(** * Two-tower recommenders (musicrec.js, movierec in build.js): model and properties

    A shallow embedding of the two recommendation classes of the repository,
    [MusicRecommendationSystem] (src/musicrec.js) and
    [MovieRecommendationSystem] (the third document of src/build.js), and of
    the CSV and deduplication helpers of the server (src/index.js), followed
    by the properties stated about them.

    Conventions of the embedding.

    - JavaScript numbers are modelled by the real numbers [R]: arithmetic is
      exact, there is no rounding, no infinity and no overflow.  Where the
      source tests a number for NaN (through [x || d]) the possibly-NaN value
      is an [option R] and [None] stands for NaN.
    - Strings are Rocq strings read as sequences of code units below 256;
      [charCodeAt], [toLowerCase] and [trim] are the Latin-1 restrictions of
      the JavaScript functions.
    - Arrays of numbers are [list R]; [vec[i] += e] is [alter (fun v => v + e) i vec].
    - Objects used as dictionaries whose enumeration order is not observed are
      [gmap string _]; objects whose key order is observed ([Object.keys],
      [Object.entries]) are association lists with the JavaScript own-key order.
    - The host functions that turn text into numbers and objects into JSON text
      ([parseFloat] and [parseInt] on strings, [JSON.stringify]) are fields of
      the class [Host]; every definition and theorem is parametric in them.
    - Property names inherited from [Object.prototype] (a user called
      "constructor") and text fields that hold numbers are outside the model. *)

From Stdlib Require Import Reals Lra Lia ZArith String Ascii List.
From stdpp Require Import base option list gmap strings.

Local Open Scope string_scope.
Local Open Scope R_scope.

#[global] Instance R_inhabited : Inhabited R := populate 0.
#[global] Instance R_eq_dec : EqDecision R := Req_EM_T.
#[global] Instance Rle_decision (x y : R) : Decision (x <= y) := Rle_dec x y.
#[global] Instance Rlt_decision (x y : R) : Decision (x < y) := Rlt_dec x y.

(** ** JavaScript values and built-in functions *)

Module Js.

(** Completion of a call: a normal return or a raised exception. *)
Inductive completion (A : Type) : Type :=
  | Normal (a : A)
  | Throw (message : string).
Arguments Normal {A} a.
Arguments Throw {A} message.

Definition bind {A B} (c : completion A) (k : A -> completion B) : completion B :=
  match c with
  | Normal a => k a
  | Throw m => Throw m
  end.

Fixpoint mapM {A B} (f : A -> completion B) (l : list A) : completion (list B) :=
  match l with
  | [] => Normal []
  | x :: r => bind (f x) (fun y => bind (mapM f r) (fun ys => Normal (y :: ys)))
  end.

(** Code units, case folding and trimming (Latin-1). *)
Definition charCode (c : ascii) : Z := Z.of_N (N_of_ascii c).

Definition lower_code (n : N) : N :=
  if ((65 <=? n) && (n <=? 90) || (192 <=? n) && (n <=? 214)
      || (216 <=? n) && (n <=? 222))%N
  then (n + 32)%N else n.

Definition toLowerChar (c : ascii) : ascii := ascii_of_N (lower_code (N_of_ascii c)).

Fixpoint toLowerCase (s : string) : string :=
  match s with
  | EmptyString => EmptyString
  | String c r => String (toLowerChar c) (toLowerCase r)
  end.

Definition is_space (c : ascii) : bool :=
  let n := N_of_ascii c in
  ((9 <=? n) && (n <=? 13) || (n =? 32) || (n =? 160))%N.

Fixpoint trimStart (s : string) : string :=
  match s with
  | EmptyString => EmptyString
  | String c r => if is_space c then trimStart r else s
  end.

Fixpoint trimEnd (s : string) : string :=
  match s with
  | EmptyString => EmptyString
  | String c r =>
      match trimEnd r with
      | EmptyString => if is_space c then EmptyString else String c EmptyString
      | r' => String c r'
      end
  end.

Definition trim (s : string) : string := trimEnd (trimStart s).

(** [s.split(sep)] for a one-character separator. *)
Fixpoint split (sep : ascii) (s : string) : list string :=
  match s with
  | EmptyString => [EmptyString]
  | String c r =>
      if Ascii.eqb c sep then EmptyString :: split sep r
      else match split sep r with
           | h :: t => String c h :: t
           | [] => [String c EmptyString]
           end
  end.

(** The code units of a string, in order. *)
Definition codes (s : string) : list Z := map charCode (list_ascii_of_string s).

(** Values found in the fields of catalog rows and history records. *)
Inductive value : Type :=
  | VUndef
  | VNum (x : R)
  | VStr (s : string).

Abbreviation object := (gmap string value).

Definition get (o : object) (k : string) : value := default VUndef (o !! k).

Definition truthy (v : value) : bool :=
  match v with
  | VUndef => false
  | VNum x => if Req_EM_T x 0 then false else true
  | VStr s => negb (String.eqb s "")
  end.

(** [a || b] on values. *)
Definition or (a b : value) : value := if truthy a then a else b.

(** The text of a field that holds a string; an absent field reads as the
    empty string once it has gone through [|| ""]. *)
Definition text (v : value) : string :=
  match v with
  | VStr s => s
  | _ => ""
  end.

(** Truncation towards zero. *)
Definition Ztrunc (x : R) : Z := if Rle_dec 0 x then Zfloor x else Zceil x.

Class Host := {
  parseFloat_str : string -> option R;
  parseInt_str : string -> option Z;
  JSON_stringify : object -> string;
  toFixed : R -> nat -> string;
  toString_num : R -> string
}.

Definition parseFloat `{Host} (v : value) : option R :=
  match v with
  | VUndef => None
  | VNum x => Some x
  | VStr s => parseFloat_str s
  end.

(** [String(x)] prints the number [x] in plain decimal notation when [x]
    is 0 or has a magnitude of at least 0.000001 and below 10^21; outside
    that range it uses the exponent notation. *)
Definition plain_decimal (x : R) : Prop := x = 0 \/ / 10 ^ 6 <= Rabs x < 10 ^ 21.

(** [parseInt(v)] parses the text of [v].  The text of a number in plain
    decimal notation starts with the digits of its truncation; for the
    exponent notation the host reads the text as it stands, so
    [parseInt(1e-7)] is the 1 in front of the exponent. *)
Definition parseInt `{Host} (v : value) : option Z :=
  match v with
  | VUndef => None
  | VNum x => if decide (plain_decimal x) then Some (Ztrunc x)
              else parseInt_str (toString_num x)
  | VStr s => parseInt_str s
  end.

(** [String(v)]. *)
Definition toString `{Host} (v : value) : string :=
  match v with
  | VUndef => "undefined"
  | VNum x => toString_num x
  | VStr s => s
  end.

(** [n || d] on a number that may be NaN: zero and NaN give the default. *)
Definition num_or (n : option R) (d : R) : R :=
  match n with
  | Some x => if Req_EM_T x 0 then d else x
  | None => d
  end.

Definition int_or (n : option Z) (d : Z) : Z :=
  match n with
  | Some x => if (x =? 0)%Z then d else x
  | None => d
  end.

(** [ToInt32], the effect of [h |= 0]. *)
Definition to_int32 (z : Z) : Z := ((z + 2 ^ 31) mod 2 ^ 32 - 2 ^ 31)%Z.

(** [a.slice(0, end)]. *)
Definition slice0 {A} (l : list A) (e : Z) : list A :=
  if (e <? 0)%Z then take (Z.to_nat (Z.max (Z.of_nat (length l) + e) 0)) l
  else take (Z.to_nat e) l.

(** [a.sort(cmp)] for a comparator [(x, y) => key(y) - key(x)]: a stable
    sort into descending key order, written as insertion from the right. *)
Section Sort.
Context {A : Type} (before : A -> A -> bool).

Fixpoint insert_sorted (x : A) (l : list A) : list A :=
  match l with
  | [] => [x]
  | y :: r => if before y x then y :: insert_sorted x r else x :: l
  end.

Definition sort (l : list A) : list A := foldr insert_sorted [] l.

End Sort.

(** Objects whose own keys are enumerated: the properties in creation
    order.  [Object.keys] lists the array-index keys first, in ascending
    numeric order, then the other keys in creation order. *)
Definition ordered (V : Type) : Type := list (string * V).

Definition oget {V} (o : ordered V) (k : string) : option V :=
  snd <$> List.find (fun kv => String.eqb (fst kv) k) o.

Fixpoint oset {V} (o : ordered V) (k : string) (v : V) : ordered V :=
  match o with
  | [] => [(k, v)]
  | (k', v') :: r => if String.eqb k' k then (k, v) :: r else (k', v') :: oset r k v
  end.

Definition digit (c : ascii) : option N :=
  let n := N_of_ascii c in
  if ((48 <=? n) && (n <=? 57))%N then Some (n - 48)%N else None.

Fixpoint digits_value (acc : N) (s : string) : option N :=
  match s with
  | EmptyString => Some acc
  | String c r =>
      match digit c with
      | Some d => digits_value (10 * acc + d)%N r
      | None => None
      end
  end.

(** The array index a property name denotes, if it is a canonical one. *)
Definition array_index (s : string) : option N :=
  match s with
  | EmptyString => None
  | String c r =>
      if Ascii.eqb c "0" then (if String.eqb r "" then Some 0%N else None)
      else match digits_value 0 s with
           | Some n => if (n <? 2 ^ 32 - 1)%N then Some n else None
           | None => None
           end
  end.

Definition index_before (a b : N * string) : bool := (fst a <? fst b)%N.

Definition okeys {V} (o : ordered V) : list string :=
  let names := map fst o in
  let indexed := omap (fun k => (fun n => (n, k)) <$> array_index k) names in
  (map snd (sort index_before indexed)
   ++ List.filter (fun k => negb (bool_decide (is_Some (array_index k)))) names)%list.

Definition oentries {V} (o : ordered V) : list (string * V) :=
  omap (fun k => (fun v => (k, v)) <$> oget o k) (okeys o).

(** [[...new Set(l)]]: the distinct elements in order of first occurrence. *)
Definition dedupe (l : list string) : list string :=
  foldl (fun acc x => if bool_decide (x ∈ acc) then acc else (acc ++ [x])%list) [] l.

End Js.

(** ** The music recommender (src/musicrec.js) *)

Module Music.
Import Js.

Section WithHost.
Context `{Host}.

Definition embeddingDim : nat := 128.

(** The fields of [MusicRecommendationSystem] that the encoders use. *)
Record system := {
  songs : list object;
  songEmbeddings : gmap string (list R)
}.

(** [o.a || o.b], the two spellings of a field. *)
Definition field2 (o : object) (a b : string) : value := or (get o a) (get o b).

Definition makeSongId (song : object) : string :=
  let title := toLowerCase (trim (text (or (field2 song "title" "Song_Title") (VStr "")))) in
  let artist := toLowerCase (trim (text (or (field2 song "artist" "Artist_Name") (VStr "")))) in
  if negb (String.eqb title "") || negb (String.eqb artist "")
  then title ++ "::" ++ artist
  else JSON_stringify song.

(** The loop of [hashToVector], from character [i] on. *)
Fixpoint hash_from (i : nat) (cs : list Z) (offset : nat) (weight : R)
    (vec : list R) : list R :=
  match cs with
  | [] => vec
  | c :: r =>
      let idx := ((offset + i) mod length vec)%nat in
      hash_from (S i) r offset weight (alter (fun v => v + IZR c / 255 * weight) idx vec)
  end.

Definition hashToVector (str : value) (vec : list R) (offset : nat) (weight : R)
    : list R :=
  let text := toLowerCase (text (or str (VStr ""))) in
  hash_from 0 (codes text) offset weight vec.

Definition createSongEmbedding (song : object) : list R :=
  let vec := replicate embeddingDim 0 in
  let vec := hashToVector (field2 song "title" "Song_Title") vec 0 1.5 in
  let vec := hashToVector (field2 song "artist" "Artist_Name") vec 16 1.5 in
  let vec := hashToVector (field2 song "genre" "Genre") vec 32 2.0 in
  let vec := hashToVector (field2 song "subGenre" "Sub_Genre") vec 48 1.5 in
  let vec := hashToVector (field2 song "language" "Language") vec 64 1.0 in
  let vec := hashToVector (field2 song "mood" "Mood") vec 80 1.8 in
  let vec := hashToVector (field2 song "activity" "Activity") vec 96 1.5 in
  let releaseYear := int_or (parseInt (field2 song "releaseYear" "Release_Year")) 2020 in
  let vec := <[112%nat := (IZR releaseYear - 1950) / 100]> vec in
  let duration := num_or (parseFloat (field2 song "duration" "Duration_sec")) 200 in
  let vec := <[113%nat := duration / 600]> vec in
  let vec := <[114%nat :=
    num_or (parseFloat (field2 song "completionRate" "Completion_Rate")) 0.5]> vec in
  let vec := <[115%nat := num_or (parseFloat (field2 song "rating" "Rating")) 3 / 5]> vec in
  let vec := <[116%nat := IZR (int_or (parseInt (field2 song "likedFlag" "Liked_Flag")) 0)]> vec in
  let vec := <[117%nat :=
    IZR (Z.min (int_or (parseInt (field2 song "repeatCount" "Repeat_Count")) 0) 5) / 5]> vec in
  let vec := <[118%nat := 1 - IZR (int_or (parseInt (field2 song "skipFlag" "Skip_Flag")) 0)]> vec in
  let vec := <[119%nat :=
    IZR (int_or (parseInt (field2 song "addedToPlaylist" "Added_To_Playlist")) 0)]> vec in
  let hour := int_or (parseInt (field2 song "hourOfDay" "Hour_of_Day")) 12 in
  let vec := <[120%nat := sin (2 * PI * IZR hour / 24)]> vec in
  let vec := <[121%nat := cos (2 * PI * IZR hour / 24)]> vec in
  let vec := <[122%nat := IZR (int_or (parseInt (field2 song "weekendFlag" "Weekend_Flag")) 0)]> vec in
  let vec := hashToVector (field2 song "weather" "Weather") vec 123 0.8 in
  let vec := hashToVector (field2 song "location" "Location") vec 126 0.5 in
  vec.

Definition trainSongEmbeddings (s : system) : system :=
  {| songs := songs s;
     songEmbeddings :=
       foldl (fun tbl song => <[makeSongId song := createSongEmbedding song]> tbl)
             ∅ (songs s) |}.

(** The engagement weight of one history record (lines 246-259 of
    [createUserEmbedding]). *)
Definition entryWeight (entry : object) : R :=
  let completionRate :=
    num_or (parseFloat (field2 entry "completionRate" "Completion_Rate")) 0.5 in
  let rating := num_or (parseFloat (field2 entry "rating" "Rating")) 3 / 5 in
  let liked := int_or (parseInt (field2 entry "likedFlag" "Liked_Flag")) 0 in
  let skipped := int_or (parseInt (field2 entry "skipFlag" "Skip_Flag")) 0 in
  let repeated := Z.min (int_or (parseInt (field2 entry "repeatCount" "Repeat_Count")) 0) 3 in
  let weight := 1.0 in
  let weight := weight * (0.5 + completionRate) in
  let weight := weight * (0.6 + rating * 0.8) in
  let weight := weight + IZR liked * 0.5 in
  let weight := weight + IZR repeated * 0.3 in
  weight * (if (skipped =? 0)%Z then 1.0 else 0.3).

(** [for (i < embeddingDim) agg[i] += emb[i] * weight]. *)
Definition addScaled (agg emb : list R) (weight : R) : list R :=
  foldl (fun agg i => alter (fun v => v + emb !!! i * weight) i agg)
        agg (seq 0 embeddingDim).

(** One iteration of the [history.forEach] of [createUserEmbedding], on
    the pair of the accumulator [agg] and [totalWeight]. *)
Definition accumulate (tbl : gmap string (list R)) (st : list R * R) (entry : object)
    : list R * R :=
  match tbl !! makeSongId entry with
  | None => st
  | Some emb =>
      let weight := entryWeight entry in
      (addScaled st.1 emb weight, st.2 + weight)
  end.

Definition aggregate (s : system) (history : list object) : list R * R :=
  foldl (accumulate (songEmbeddings s)) (replicate embeddingDim 0, 0) history.

Definition createUserEmbedding (s : system) (history : list object) : list R :=
  let '(agg, totalWeight) := aggregate s history in
  if Req_EM_T totalWeight 0 then replicate embeddingDim 0
  else
    let magnitude := num_or (Some (sqrt (foldl (fun s v => s + v * v) 0 agg))) 1 in
    map (fun x => x / magnitude) agg.

(** Arithmetic on numbers that may be NaN ([None]); reading past the end
    of an array gives [undefined], which is NaN in arithmetic. *)
Definition nadd (x y : option R) : option R :=
  match x, y with Some a, Some b => Some (a + b) | _, _ => None end.
Definition nmul (x y : option R) : option R :=
  match x, y with Some a, Some b => Some (a * b) | _, _ => None end.
Definition ndiv (x y : option R) : option R :=
  match x, y with Some a, Some b => Some (a / b) | _, _ => None end.
Definition nsqrt (x : option R) : option R := sqrt <$> x.

Definition cosineSimilarity (a b : list R) : completion (option R) :=
  let '(dot, magA, magB) :=
    foldl (fun '(dot, magA, magB) i =>
             (nadd dot (nmul (a !! i) (b !! i)),
              nadd magA (nmul (a !! i) (a !! i)),
              nadd magB (nmul (b !! i) (b !! i))))
          (Some 0, Some 0, Some 0) (seq 0 (length a)) in
  Normal (ndiv dot (Some (num_or (nmul (nsqrt magA) (nsqrt magB)) 1))).

Record recommendation := {
  id : string;
  title : value;
  artist : value;
  album : value;
  genre : value;
  mood : value;
  similarity_score : option R
}.

(** The comparator [(a, b) => b.similarity_score - a.similarity_score]
    is negative exactly when [a] scores strictly higher; a NaN
    difference counts as zero. *)
Definition scores_higher (a b : recommendation) : bool :=
  match similarity_score a, similarity_score b with
  | Some x, Some y => if Rlt_dec y x then true else false
  | _, _ => false
  end.

Definition scoreSong (s : system) (userEmb : list R) (song : object)
    : completion recommendation :=
  let id := makeSongId song in
  bind (match songEmbeddings s !! id with
        | Some emb => cosineSimilarity userEmb emb
        | None => Normal (Some 0)
        end)
    (fun score =>
       Normal {| id := id;
                 title := or (field2 song "title" "Song_Title") (VStr "");
                 artist := or (field2 song "artist" "Artist_Name") (VStr "");
                 album := or (field2 song "album" "Album") (VStr "");
                 genre := or (field2 song "genre" "Genre") (VStr "");
                 mood := or (field2 song "mood" "Mood") (VStr "");
                 similarity_score := score |}).

(** [recommendSongs(userId, limit)]; [history] is what the awaited
    [getListeningHistory(userId)] returned.  The second component is the
    system afterwards (the embeddings are trained on first use). *)
Definition recommendSongs (s : system) (history : list object) (limit : Z)
    : completion (list recommendation) * system :=
  match songs s with
  | [] => (Normal [], s)
  | _ :: _ =>
      let s := if decide (songEmbeddings s = ∅) then trainSongEmbeddings s else s in
      match history with
      | [] => (Normal [], s)
      | _ :: _ =>
          let userEmb := createUserEmbedding s history in
          (bind (mapM (scoreSong s userEmb) (songs s))
                (fun results => Normal (slice0 (sort scores_higher results) limit)),
           s)
      end
  end.

(** The document [saveListeningHistory] writes for the record [r] (the
    object literal of lines 60-93); [now], the time value of [new Date()],
    stands for the date. *)
Definition historyDocument (now : Z) (r : object) : object :=
  <["title" := or (field2 r "title" "Song_Title") (VStr "")]> $
  <["artist" := or (field2 r "artist" "Artist_Name") (VStr "")]> $
  <["genre" := or (field2 r "genre" "Genre") (VStr "")]> $
  <["subGenre" := or (get r "Sub_Genre") (VStr "")]> $
  <["language" := or (get r "Language") (VStr "")]> $
  <["releaseYear" := or (get r "Release_Year") (VStr "")]> $
  <["listenDuration" := VNum (num_or (parseFloat (get r "Listen_Duration_sec")) 0)]> $
  <["completionRate" := VNum (num_or (parseFloat (get r "Completion_Rate")) 0)]> $
  <["skipFlag" := VNum (IZR (int_or (parseInt (get r "Skip_Flag")) 0))]> $
  <["repeatCount" := VNum (IZR (int_or (parseInt (get r "Repeat_Count")) 0))]> $
  <["likedFlag" := VNum (IZR (int_or (parseInt (get r "Liked_Flag")) 0))]> $
  <["addedToPlaylist" := VNum (IZR (int_or (parseInt (get r "Added_To_Playlist")) 0))]> $
  <["rating" := VNum (num_or (parseFloat (get r "Rating")) 0)]> $
  <["mood" := or (get r "Mood") (VStr "")]> $
  <["activity" := or (get r "Activity") (VStr "")]> $
  <["device" := or (get r "Device") (VStr "")]> $
  <["location" := or (get r "Location") (VStr "")]> $
  <["weather" := or (get r "Weather") (VStr "")]> $
  <["hourOfDay" := VNum (IZR (int_or (parseInt (get r "Hour_of_Day")) 0))]> $
  <["weekendFlag" := VNum (IZR (int_or (parseInt (get r "Weekend_Flag")) 0))]> $
  <["dayOfWeek" := or (get r "Day_of_Week") (VStr "")]> $
  <["recommendedBySystem" :=
      VNum (IZR (int_or (parseInt (get r "Recommended_By_System")) 0))]> $
  <["recommendationSource" := or (get r "Recommendation_Source") (VStr "")]> $
  <["userAction" := or (get r "User_Action") (VStr "")]> $
  <["timestamp" := VNum (IZR now)]> $
  ∅.

End WithHost.
End Music.

(** ** The movie recommender (class MovieRecommendationSystem) *)

Module Movie.
Import Js.

(** A normalized rating record, an element of [this.ratings]. *)
Module Rating.
Record t := { userId : string; movieId : string; rating : R; timestamp : Z }.
End Rating.

(** A normalized metadata record, an element of [this.movies]. *)
Module Meta.
Record t := { movieId : string; title : string; genres : string; year : option Z }.
End Meta.

Module Profile.
Record t := {
  ratings : list Rating.t;
  avgRating : R;
  ratingCount : nat;
  ratingVariance : R
}.
End Profile.

Module Stat.
Record t := {
  ratings : list R;
  avgRating : R;
  ratingCount : nat;
  highRatingUsers : list string;
  lowRatingUsers : list string
}.
End Stat.

Module Rec.
Record t := {
  movieId : string;
  title : string;
  genres : string;
  year : option Z;
  avgRating : string;
  ratingCount : nat;
  similarity_score : R;
  predicted_rating : string
}.
End Rec.

(** An entry of the [genreScores] object of [createUserEmbedding]. *)
Module Genre.
Record t := { sum : R; count : nat }.
End Genre.

(** The object returned by [getStats]; the two averages are the text
    printed by [toFixed(1)], or the number 0. *)
Module Stats.
Record t := {
  totalRatings : nat;
  uniqueUsers : nat;
  uniqueMovies : nat;
  moviesWithMetadata : nat;
  avgRatingsPerUser : value;
  avgRatingsPerMovie : value
}.
End Stats.

Section WithHost.
Context `{Host}.

Definition embeddingDim : nat := 64.

Record system := {
  ratings : list Rating.t;
  movies : list Meta.t;
  movieEmbeddings : ordered (list R);
  userProfiles : gmap string Profile.t;
  movieStats : gmap string Stat.t
}.

(** [new MovieRecommendationSystem(db)]. *)
Definition constructor : system :=
  {| ratings := []; movies := []; movieEmbeddings := [];
     userProfiles := ∅; movieStats := ∅ |}.

(** [l.reduce((a, b) => a + b, 0)]. *)
Definition sumList (l : list R) : R := foldl (fun a b => a + b) 0 l.

(** First loop of [buildUserProfiles]: group the ratings by user. *)
Definition groupByUser (rs : list Rating.t) : gmap string Profile.t :=
  foldl (fun tbl r =>
           let p := default {| Profile.ratings := []; Profile.avgRating := 0;
                               Profile.ratingCount := 0; Profile.ratingVariance := 0 |}
                            (tbl !! Rating.userId r) in
           <[Rating.userId r :=
               {| Profile.ratings := (Profile.ratings p ++ [r])%list;
                  Profile.avgRating := Profile.avgRating p;
                  Profile.ratingCount := Profile.ratingCount p;
                  Profile.ratingVariance := Profile.ratingVariance p |}]> tbl)
        ∅ rs.

(** Second loop of [buildUserProfiles]: the statistics of one profile. *)
Definition profileStatistics (p : Profile.t) : Profile.t :=
  let ratingValues := map Rating.rating (Profile.ratings p) in
  let avg := sumList ratingValues / INR (length ratingValues) in
  let sqDiffs := map (fun r => (r - avg) ^ 2) ratingValues in
  {| Profile.ratings := Profile.ratings p;
     Profile.avgRating := avg;
     Profile.ratingCount := length ratingValues;
     Profile.ratingVariance := sumList sqDiffs / INR (length ratingValues) |}.

Definition buildUserProfiles (rs : list Rating.t) : gmap string Profile.t :=
  profileStatistics <$> groupByUser rs.

(** First loop of [buildMovieStats]. *)
Definition groupByMovie (rs : list Rating.t) : gmap string Stat.t :=
  foldl (fun tbl r =>
           let stat := default {| Stat.ratings := []; Stat.avgRating := 0;
                                  Stat.ratingCount := 0; Stat.highRatingUsers := [];
                                  Stat.lowRatingUsers := [] |}
                               (tbl !! Rating.movieId r) in
           <[Rating.movieId r :=
               {| Stat.ratings := (Stat.ratings stat ++ [Rating.rating r])%list;
                  Stat.avgRating := Stat.avgRating stat;
                  Stat.ratingCount := Stat.ratingCount stat;
                  Stat.highRatingUsers :=
                    if decide (4 <= Rating.rating r)
                    then (Stat.highRatingUsers stat ++ [Rating.userId r])%list
                    else Stat.highRatingUsers stat;
                  Stat.lowRatingUsers :=
                    if decide (4 <= Rating.rating r) then Stat.lowRatingUsers stat
                    else if decide (Rating.rating r <= 2)
                         then (Stat.lowRatingUsers stat ++ [Rating.userId r])%list
                         else Stat.lowRatingUsers stat |}]> tbl)
        ∅ rs.

Definition statAverages (stat : Stat.t) : Stat.t :=
  {| Stat.ratings := Stat.ratings stat;
     Stat.avgRating := sumList (Stat.ratings stat) / INR (length (Stat.ratings stat));
     Stat.ratingCount := length (Stat.ratings stat);
     Stat.highRatingUsers := Stat.highRatingUsers stat;
     Stat.lowRatingUsers := Stat.lowRatingUsers stat |}.

Definition buildMovieStats (rs : list Rating.t) : gmap string Stat.t :=
  statAverages <$> groupByMovie rs.

(** The normalization of one row by [processRatings]; [now] is the value
    of [Date.now()]. *)
Definition normalizeRating (now : Z) (r : object) : Rating.t :=
  {| Rating.userId := toString (or (or (get r "userId") (get r "user_id")) (get r "UserID"));
     Rating.movieId :=
       toString (or (or (get r "movieId") (get r "movie_id")) (get r "MovieID"));
     Rating.rating := num_or (parseFloat (or (get r "rating") (get r "Rating"))) 0;
     Rating.timestamp := int_or (parseInt (or (get r "timestamp") (get r "Timestamp"))) now |}.

(** [processRatings(ratingsData)]; the value returned is the length of
    [ratings] in the system afterwards. *)
Definition processRatings (s : system) (ratingsData : list object) (now : Z) : system :=
  let ratings_ := map (normalizeRating now) ratingsData in
  {| ratings := ratings_;
     movies := movies s;
     movieEmbeddings := movieEmbeddings s;
     userProfiles := buildUserProfiles ratings_;
     movieStats := buildMovieStats ratings_ |}.

(** The normalization of one row by [processMovies]. *)
Definition normalizeMovie (m : object) : Meta.t :=
  {| Meta.movieId :=
       toString (or (or (get m "movieId") (get m "movie_id")) (get m "MovieID"));
     Meta.title :=
       text (or (or (get m "title") (get m "Title"))
                (VStr ("Movie " ++ toString (get m "movieId"))));
     Meta.genres :=
       text (or (or (or (get m "genres") (get m "Genres")) (get m "genre")) (VStr ""));
     Meta.year := match parseInt (or (get m "year") (get m "Year")) with
                  | Some y => if (y =? 0)%Z then None else Some y
                  | None => None
                  end |}.

(** [processMovies(moviesData)]. *)
Definition processMovies (s : system) (moviesData : list object) : system :=
  {| ratings := ratings s;
     movies := map normalizeMovie moviesData;
     movieEmbeddings := movieEmbeddings s;
     userProfiles := userProfiles s;
     movieStats := movieStats s |}.

(** The loop of [hashToVector], from character [i] on; it stops at the
    first [i] with [offset + i >= vec.length]. *)
Fixpoint hash_from (i : nat) (cs : list Z) (offset : nat) (weight : R)
    (vec : list R) : list R :=
  match cs with
  | [] => vec
  | c :: r =>
      if (offset + i <? length vec)%nat
      then let idx := (offset + i mod 16)%nat in
           hash_from (S i) r offset weight (alter (fun v => v + IZR c / 255 * weight) idx vec)
      else vec
  end.

Definition hashToVector (str : string) (vec : list R) (offset : nat) (weight : R)
    : list R :=
  let text := toLowerCase str in
  hash_from 0 (codes text) offset weight vec.

Definition hashUser (userId : string) : R :=
  let hash := foldl (fun hash c => to_int32 (to_int32 (hash * 2 ^ 5) - hash + c))
                    0%Z (codes userId) in
  IZR (Z.abs hash mod 1000) / 1000.

Definition normalizeVector (vec : list R) : list R :=
  let magnitude := num_or (Some (sqrt (foldl (fun sum v => sum + v * v) 0 vec))) 1 in
  map (fun v => v / magnitude) vec.

(** The histogram loop of [createMovieEmbedding]. *)
Definition histogram (ratings : list R) : list nat :=
  foldl (fun bins r =>
           let binIdx := Z.min (Zfloor r - 1) 4 in
           if (0 <=? binIdx)%Z then alter S (Z.to_nat binIdx) bins else bins)
        [0; 0; 0; 0; 0]%nat ratings.

Definition minimum (x : Z) (l : list Z) : Z := foldl Z.min x l.
Definition maximum (x : Z) (l : list Z) : Z := foldl Z.max x l.

(** [createMovieEmbedding(movieId)]; [now] is the value of [Date.now()]. *)
Definition createMovieEmbedding (s : system) (now : Z) (movieId : string) : list R :=
  let vec := replicate embeddingDim 0 in
  match movieStats s !! movieId with
  | None => vec
  | Some stat =>
      let ratings_ := Stat.ratings stat in
      let bins := histogram ratings_ in
      let total := if (length ratings_ =? 0)%nat then 1%nat else length ratings_ in
      let vec := foldl (fun vec i => <[i := INR (bins !!! i) / INR total]> vec)
                       vec (seq 0 5) in
      let vec := <[5%nat := Stat.avgRating stat / 5]> vec in
      let vec := <[6%nat := Rmin (INR (Stat.ratingCount stat) / 1000) 1]> vec in
      let vec := <[7%nat := sqrt (INR (Stat.ratingCount stat)) / 100]> vec in
      let vec := <[8%nat := INR (length (Stat.highRatingUsers stat)) / INR total]> vec in
      let vec := <[9%nat := 1 - INR (length (Stat.lowRatingUsers stat)) / INR total]> vec in
      let vec := foldl (fun vec '(idx, userId) => <[(10 + idx)%nat := hashUser userId]> vec)
                       vec (imap (fun idx userId => (idx, userId))
                                 (take 20 (Stat.highRatingUsers stat))) in
      let movie := List.find (fun m => String.eqb (Meta.movieId m) movieId) (movies s) in
      let vec := match movie with
                 | Some m => if String.eqb (Meta.genres m) "" then vec
                             else hashToVector (Meta.genres m) vec 32 1.0
                 | None => vec
                 end in
      let movieRatings :=
        List.filter (fun r => String.eqb (Rating.movieId r) movieId) (ratings s) in
      let vec := match map Rating.timestamp movieRatings with
                 | [] => vec
                 | t :: ts =>
                     let minTime := minimum t ts in
                     let maxTime := maximum t ts in
                     let timeSpanYears :=
                       (IZR maxTime - IZR minTime) / (1000 * 60 * 60 * 24 * 365) in
                     let vec := <[48%nat := Rmin (timeSpanYears / 10) 1]> vec in
                     let now_ := IZR now / 1000 in
                     let oneYearAgo := now_ - (365 * 24 * 60 * 60) in
                     let recentRatings :=
                       filter (fun r => oneYearAgo < IZR (Rating.timestamp r))
                              movieRatings in
                     <[49%nat := INR (length recentRatings) / INR (length movieRatings)]> vec
                 end in
      hashToVector movieId vec 56 0.5
  end.

(** [for (i < embeddingDim) vec[i] += movieEmb[i] * weight]. *)
Definition addScaled (vec emb : list R) (weight : R) : list R :=
  foldl (fun vec i => alter (fun v => v + emb !!! i * weight) i vec)
        vec (seq 0 embeddingDim).

(** The comparator [(a, b) => b.rating - a.rating] is negative exactly when
    [a] has the strictly higher rating. *)
Definition rated_higher (a b : Rating.t) : bool :=
  bool_decide (Rating.rating b < Rating.rating a).

(** The [genreScores] object built by [createUserEmbedding]. *)
Definition genreScores (s : system) (rs : list Rating.t) : ordered Genre.t :=
  foldl (fun scores r =>
           match List.find (fun m => String.eqb (Meta.movieId m) (Rating.movieId r))
                           (movies s) with
           | Some m =>
               if String.eqb (Meta.genres m) "" then scores
               else foldl (fun scores g =>
                             let d := default {| Genre.sum := 0; Genre.count := 0 |}
                                              (oget scores g) in
                             oset scores g
                               {| Genre.sum := Genre.sum d + Rating.rating r;
                                  Genre.count := S (Genre.count d) |})
                          scores (split "|" (Meta.genres m))
           | None => scores
           end)
        [] rs.

(** The value of [vec] when [createUserEmbedding] reaches its last line,
    for a user with the non-empty profile [profile]. *)
Definition userVector (s : system) (profile : Profile.t) : list R :=
  let vec := replicate embeddingDim 0 in
  let vec := <[0%nat := Profile.avgRating profile / 5]> vec in
  let vec := <[1%nat := sqrt (Profile.ratingVariance profile) / 2]> vec in
  let vec := <[2%nat := Rmin (INR (Profile.ratingCount profile) / 500) 1]> vec in
  let vec := <[3%nat :=
    INR (length (filter (fun r => 4 <= Rating.rating r) (Profile.ratings profile)))
    / INR (Profile.ratingCount profile)]> vec in
  let vec := <[4%nat :=
    INR (length (filter (fun r => Rating.rating r <= 2) (Profile.ratings profile)))
    / INR (Profile.ratingCount profile)]> vec in
  let likedMovies :=
    take 30 (sort rated_higher
               (filter (fun r => 4 <= Rating.rating r) (Profile.ratings profile))) in
  let '(vec, totalWeight) :=
    foldl (fun '(vec, totalWeight) r =>
             match oget (movieEmbeddings s) (Rating.movieId r) with
             | None => (vec, totalWeight)
             | Some movieEmb =>
                 let weight := (Rating.rating r - 3) / 2 in
                 (addScaled vec movieEmb weight, totalWeight + weight)
             end)
          (vec, 0) likedMovies in
  let vec := if decide (0 < totalWeight)
             then foldl (fun vec i => alter (fun v => v / totalWeight) i vec)
                        vec (seq 5 (embeddingDim - 5))
             else vec in
  let dislikedMovies :=
    take 10 (filter (fun r => Rating.rating r <= 2) (Profile.ratings profile)) in
  let vec :=
    foldl (fun vec r =>
             match oget (movieEmbeddings s) (Rating.movieId r) with
             | None => vec
             | Some movieEmb =>
                 foldl (fun vec i => alter (fun v => v - movieEmb !!! i * 0.3) i vec)
                       vec (seq 32 8)
             end)
          vec dislikedMovies in
  let scores := genreScores s (Profile.ratings profile) in
  foldl (fun vec '(idx, (genre, data)) =>
           if (idx <? 8)%nat
           then <[(48 + idx)%nat := Genre.sum data / INR (Genre.count data) / 5]> vec
           else vec)
        vec (imap (fun idx e => (idx, e)) (oentries scores)).

Definition createUserEmbedding (s : system) (userId : string) : list R :=
  match userProfiles s !! userId with
  | None => replicate embeddingDim 0
  | Some profile =>
      if (length (Profile.ratings profile) =? 0)%nat then replicate embeddingDim 0
      else normalizeVector (userVector s profile)
  end.

(** [trainMovieEmbeddings()]; the table afterwards (the count returned is
    the number of its keys). *)
Definition trainMovieEmbeddings (s : system) (now : Z) : system :=
  let movieIds := dedupe (map Rating.movieId (ratings s)) in
  {| ratings := ratings s;
     movies := movies s;
     movieEmbeddings :=
       foldl (fun tbl movieId => oset tbl movieId (createMovieEmbedding s now movieId))
             [] movieIds;
     userProfiles := userProfiles s;
     movieStats := movieStats s |}.

Definition cosineSimilarity (a b : list R) : completion R :=
  if negb (length a =? length b)%nat then Normal 0
  else
    let '(dot, magA, magB) :=
      foldl (fun '(dot, magA, magB) i =>
               (dot + a !!! i * b !!! i, magA + a !!! i * a !!! i, magB + b !!! i * b !!! i))
            (0, 0, 0) (seq 0 (length a)) in
    Normal (dot / num_or (Some (sqrt magA * sqrt magB)) 1).

Definition predictRating (userEmb movieEmb : list R) (movieStat : option Stat.t)
    : completion string :=
  bind (cosineSimilarity userEmb movieEmb) (fun similarity =>
    let baseRating := num_or (Stat.avgRating <$> movieStat) 3 in
    let predicted := baseRating + (similarity - 0.5) * 2 in
    Normal (toFixed (Rmax 1 (Rmin 5 predicted)) 1)).

(** [s || d] on strings. *)
Definition str_or (s d : string) : string := if String.eqb s "" then d else s.

Definition candidate (s : system) (userEmb : list R) (movieId : string)
    : completion Rec.t :=
  let movieEmb := default [] (oget (movieEmbeddings s) movieId) in
  bind (cosineSimilarity userEmb movieEmb) (fun similarity =>
    let movie := List.find (fun m => String.eqb (Meta.movieId m) movieId) (movies s) in
    let stat := movieStats s !! movieId in
    bind (predictRating userEmb movieEmb stat) (fun predicted =>
      Normal {| Rec.movieId := movieId;
                Rec.title := str_or (default "" (Meta.title <$> movie)) ("Movie " ++ movieId);
                Rec.genres := str_or (default "" (Meta.genres <$> movie)) "Unknown";
                Rec.year := match movie ≫= Meta.year with
                            | Some y => if (y =? 0)%Z then None else Some y
                            | None => None
                            end;
                Rec.avgRating :=
                  str_or (default "" ((fun st => toFixed (Stat.avgRating st) 2) <$> stat)) "N/A";
                Rec.ratingCount := default 0%nat (Stat.ratingCount <$> stat);
                Rec.similarity_score := similarity;
                Rec.predicted_rating := predicted |})).

Definition more_similar (a b : Rec.t) : bool :=
  bool_decide (Rec.similarity_score b < Rec.similarity_score a).

Definition getRecommendations (s : system) (userId : string) (limit : Z)
    : completion (list Rec.t) :=
  let userProfile := userProfiles s !! userId in
  let ratedMovieIds : gset string :=
    list_to_set (match userProfile with
                 | Some p => map Rating.movieId (Profile.ratings p)
                 | None => []
                 end) in
  let userEmb := createUserEmbedding s userId in
  bind (mapM (candidate s userEmb)
             (filter (fun movieId => movieId ∉ ratedMovieIds) (okeys (movieEmbeddings s))))
       (fun candidates => Normal (slice0 (sort more_similar candidates) limit)).


End WithHost.
End Movie.


(** ** The helpers of the server (src/index.js) *)

Module Server.
Import Js.

Definition quote : ascii := "034"%char.

Fixpoint dropLastQuote (s : string) : string :=
  match s with
  | EmptyString => EmptyString
  | String c EmptyString => if Ascii.eqb c quote then EmptyString else s
  | String c r => String c (dropLastQuote r)
  end.

(** [s.replace(re, '')] for the pattern [re] of [parseCSVLine] (a double
    quote at the start or at the end, every match): a quote that starts the
    text and a quote that ends it are removed. *)
Definition stripQuotes (s : string) : string :=
  match s with
  | EmptyString => EmptyString
  | String c r => if Ascii.eqb c quote then dropLastQuote r else dropLastQuote s
  end.


(** The loop of [parseCSVLine] over the characters still to read, on the
    variables [result], [current] and [inQuotes]; after the loop the last
    field is pushed. *)
Fixpoint parseCSVLine_from (line : string) (result : list string) (current : string)
    (inQuotes : bool) : list string :=
  match line with
  | EmptyString => (result ++ [stripQuotes current])%list
  | String char r =>
      if Ascii.eqb char quote then parseCSVLine_from r result current (negb inQuotes)
      else if Ascii.eqb char "," && negb inQuotes
           then parseCSVLine_from r (result ++ [stripQuotes current])%list "" inQuotes
           else parseCSVLine_from r result (current ++ String char "") inQuotes
  end.

Definition parseCSVLine (line : string) (expectedCols : nat) : list string :=
  parseCSVLine_from line [] "" false.



(** The key under which [deduplicateSongs] files a record. *)
Definition songKey (r : object) : string :=
  let title :=
    toLowerCase (trim (text (or (or (or (get r "title") (get r "track_name"))
                                    (get r "Song_Title")) (VStr "")))) in
  let artist :=
    toLowerCase (trim (text (or (or (or (get r "artist") (get r "artist_name"))
                                    (get r "Artist_Name")) (VStr "")))) in
  title ++ "::" ++ artist.

(** [deduplicateSongs(records)]; the [Map] is the list of its entries in
    insertion order. *)
Definition deduplicateSongs (records : list object) : list object :=
  let seen :=
    foldl (fun seen r =>
             let key := songKey r in
             if bool_decide (key ∈ map fst seen) then seen else (seen ++ [(key, r)])%list)
          [] records in
  map snd seen.

End Server.


(** ** Notions used to state the properties *)

(** The dot product, the Euclidean norm and the guarded cosine, as the
    specification writes them. *)
Module Vec.

Fixpoint dot (a b : list R) : R :=
  match a, b with
  | x :: a', y :: b' => x * y + dot a' b'
  | _, _ => 0
  end.

Definition norm (a : list R) : R := sqrt (dot a a).

Definition guarded (d : R) : R := if decide (d = 0) then 1 else d.

Definition cosine (a b : list R) : R := dot a b / guarded (norm a * norm b).

Definition zero (a : list R) : Prop := Forall (fun x => x = 0) a.

End Vec.

(** The Feature Hasher as the specification describes it: character [i]
    adds [(code / 255) * weight] to coordinate [offset + i mod band], a band
    of [band] coordinates starting at [offset]. *)
Fixpoint hashBand_from (band i : nat) (cs : list Z) (offset : nat) (weight : R)
    (vec : list R) : list R :=
  match cs with
  | [] => vec
  | c :: r =>
      hashBand_from band (S i) r offset weight
        (alter (fun v => v + IZR c / 255 * weight) (offset + i mod band)%nat vec)
  end.

Definition hashBand (band : nat) (cs : list Z) (vec : list R) (offset : nat) (weight : R)
    : list R :=
  hashBand_from band 0 cs offset weight vec.

Definition hashToVector_spec (band : nat) (str : string) (vec : list R) (offset : nat)
    (weight : R) : list R :=
  hashBand band (Js.codes str) vec offset weight.

(** What the characters [cs], numbered from [i], add to coordinate [j] when
    character [k] is sent to coordinate [target k]. *)
Fixpoint contribution (target : nat -> nat) (i : nat) (cs : list Z) (weight : R)
    (j : nat) : R :=
  match cs with
  | [] => 0
  | c :: r =>
      (if decide (target i = j) then IZR c / 255 * weight else 0)
      + contribution target (S i) r weight j
  end.

(** The bodies of the two cosine loops. *)
Definition music_step (a b : list R) : option R * option R * option R -> nat ->
    option R * option R * option R :=
  fun '(dot, magA, magB) i =>
    (Music.nadd dot (Music.nmul (a !! i) (b !! i)),
     Music.nadd magA (Music.nmul (a !! i) (a !! i)),
     Music.nadd magB (Music.nmul (b !! i) (b !! i))).

Definition movie_step (a b : list R) : R * R * R -> nat -> R * R * R :=
  fun '(dot, magA, magB) i =>
    (dot + a !!! i * b !!! i, magA + a !!! i * a !!! i, magB + b !!! i * b !!! i).

(** A host that recognises no numeral in any string and prints nothing; the
    records of the concrete scenarios hold numbers, not numerals. *)
Definition plainHost : Js.Host :=
  {| Js.parseFloat_str := fun _ => None;
     Js.parseInt_str := fun _ => None;
     Js.JSON_stringify := fun _ => "";
     Js.toFixed := fun _ _ => "";
     Js.toString_num := fun _ => "" |}.

(** A host that prints the numbers 0.0000001 and 10^21 as JavaScript does,
    as the texts 1e-7 and 1e+21, and reads the integer in front of each of
    these texts; on every other input it is [plainHost]. *)
Definition sciHost : Js.Host :=
  {| Js.parseFloat_str := fun _ => None;
     Js.parseInt_str := fun s => if String.eqb s "1e-7" then Some 1%Z
                                 else if String.eqb s "1e+21" then Some 1%Z
                                 else None;
     Js.JSON_stringify := fun _ => "";
     Js.toFixed := fun _ _ => "";
     Js.toString_num := fun x => if decide (x = / 10 ^ 7) then "1e-7"
                                 else if decide (x = 10 ^ 21) then "1e+21"
                                 else "" |}.

(** The engagement signals [createUserEmbedding] extracts from a record
    (the constants of lines 247-251 of musicrec.js). *)
Section Signals.
Context `{Js.Host}.
Import Js.

Definition completionRate_of (entry : object) : R :=
  num_or (parseFloat (Music.field2 entry "completionRate" "Completion_Rate")) 0.5.

Definition rating_of (entry : object) : R :=
  num_or (parseFloat (Music.field2 entry "rating" "Rating")) 3 / 5.

Definition liked_of (entry : object) : Z :=
  int_or (parseInt (Music.field2 entry "likedFlag" "Liked_Flag")) 0.

Definition skipped_of (entry : object) : Z :=
  int_or (parseInt (Music.field2 entry "skipFlag" "Skip_Flag")) 0.

Definition repeated_of (entry : object) : Z :=
  Z.min (int_or (parseInt (Music.field2 entry "repeatCount" "Repeat_Count")) 0) 3.

(** The weight formula of the specification, on extracted signals. *)
Definition weightFormula (completionRate rating : R) (liked skipped repeated : Z) : R :=
  ((0.5 + completionRate) * (0.6 + rating * 0.8) + IZR liked * 0.5 + IZR repeated * 0.3)
  * (if (skipped =? 0)%Z then 1 else 0.3).

(** A record all of whose signals are non-negative. *)
Definition nonnegative (entry : object) : Prop :=
  0 <= completionRate_of entry /\ 0 <= rating_of entry
  /\ (0 <= liked_of entry)%Z /\ (0 <= repeated_of entry)%Z.

End Signals.

(** The catalog and the history of the music scenario. *)
Definition songAB : Js.object :=
  {[ "title" := Js.VStr "A"; "artist" := Js.VStr "B"; "genre" := Js.VStr "Pop" ]}.

Definition recordAB : Js.object :=
  {[ "title" := Js.VStr "A"; "artist" := Js.VStr "B";
     "completionRate" := Js.VNum 1; "rating" := Js.VNum 5; "likedFlag" := Js.VNum 1;
     "skipFlag" := Js.VNum 0; "repeatCount" := Js.VNum 0 ]}.

Definition catalogAB : Music.system :=
  {| Music.songs := [songAB]; Music.songEmbeddings := ∅ |}.

(** A history record naming a song that is not in the catalog. *)
Definition recordZ : Js.object := {[ "title" := Js.VStr "Z" ]}.

(** The states of a [MovieRecommendationSystem]: a new object, after any
    sequence of [processRatings], [processMovies] and [trainMovieEmbeddings]. *)
Inductive reachable `{Js.Host} : Movie.system -> Prop :=
| reachable_new : reachable Movie.constructor
| reachable_ratings s ratingsData now :
    reachable s -> reachable (Movie.processRatings s ratingsData now)
| reachable_movies s moviesData :
    reachable s -> reachable (Movie.processMovies s moviesData)
| reachable_train s now :
    reachable s -> reachable (Movie.trainMovieEmbeddings s now).


(** The movie scenario: user "u" rated movie "X" with 5 stars, user "v"
    rated movie "Y" with 4 stars; the model is trained on these ratings. *)
Definition rowX : Js.object :=
  {[ "userId" := Js.VStr "u"; "movieId" := Js.VStr "X"; "rating" := Js.VNum 5;
     "timestamp" := Js.VNum 1000 ]}.

Definition rowY : Js.object :=
  {[ "userId" := Js.VStr "v"; "movieId" := Js.VStr "Y"; "rating" := Js.VNum 4;
     "timestamp" := Js.VNum 2000 ]}.

(** The two rows after normalization. *)
Definition ratingX : Movie.Rating.t :=
  {| Movie.Rating.userId := "u"; Movie.Rating.movieId := "X";
     Movie.Rating.rating := 5; Movie.Rating.timestamp := 1000 |}.

Definition ratingY : Movie.Rating.t :=
  {| Movie.Rating.userId := "v"; Movie.Rating.movieId := "Y";
     Movie.Rating.rating := 4; Movie.Rating.timestamp := 2000 |}.

Definition ratedXY : Movie.system :=
  {| Movie.ratings := [ratingX; ratingY];
     Movie.movies := [];
     Movie.movieEmbeddings := [];
     Movie.userProfiles := Movie.buildUserProfiles [ratingX; ratingY];
     Movie.movieStats := Movie.buildMovieStats [ratingX; ratingY] |}.

Definition trainedXY `{Js.Host} (now : Z) : Movie.system :=
  Movie.trainMovieEmbeddings (Movie.processRatings Movie.constructor [rowX; rowY] now) now.

(** The five behavioral scalars of a user profile, by coordinate. *)
Definition behavioral (p : Movie.Profile.t) (j : nat) : R :=
  match j with
  | 0%nat => Movie.Profile.avgRating p / 5
  | 1%nat => sqrt (Movie.Profile.ratingVariance p) / 2
  | 2%nat => Rmin (INR (Movie.Profile.ratingCount p) / 500) 1
  | 3%nat =>
      INR (length (filter (fun r => 4 <= Movie.Rating.rating r) (Movie.Profile.ratings p)))
      / INR (Movie.Profile.ratingCount p)
  | 4%nat =>
      INR (length (filter (fun r => Movie.Rating.rating r <= 2) (Movie.Profile.ratings p)))
      / INR (Movie.Profile.ratingCount p)
  | _ => 0
  end.

(** The user's top 30 highly-rated records. *)
Definition likedMovies (p : Movie.Profile.t) : list Movie.Rating.t :=
  take 30 (Js.sort Movie.rated_higher
             (filter (fun r => 4 <= Movie.Rating.rating r) (Movie.Profile.ratings p))).

(** What the liked movies that have an embedding add to coordinate [j]
    and to the total weight. *)
Fixpoint likedSum (tbl : Js.ordered (list R)) (liked : list Movie.Rating.t) (j : nat) : R :=
  match liked with
  | [] => 0
  | r :: rest =>
      match Js.oget tbl (Movie.Rating.movieId r) with
      | Some movieEmb => movieEmb !!! j * ((Movie.Rating.rating r - 3) / 2)
      | None => 0
      end + likedSum tbl rest j
  end.

Fixpoint likedWeight (tbl : Js.ordered (list R)) (liked : list Movie.Rating.t) : R :=
  match liked with
  | [] => 0
  | r :: rest =>
      match Js.oget tbl (Movie.Rating.movieId r) with
      | Some _ => (Movie.Rating.rating r - 3) / 2
      | None => 0
      end + likedWeight tbl rest
  end.

(** The statistics of movie "X" and the profile of user "u" in the movie
    scenario. *)
Definition statX : Movie.Stat.t :=
  {| Movie.Stat.ratings := [5]; Movie.Stat.avgRating := 5;
     Movie.Stat.ratingCount := 1; Movie.Stat.highRatingUsers := ["u"];
     Movie.Stat.lowRatingUsers := [] |}.

Definition profileU : Movie.Profile.t :=
  {| Movie.Profile.ratings := [ratingX]; Movie.Profile.avgRating := 5;
     Movie.Profile.ratingCount := 1; Movie.Profile.ratingVariance := 0 |}.


(** A list in descending order of [key]. *)
Definition descending {A} (key : A -> R) (l : list A) : Prop :=
  forall i j a b, (i < j)%nat -> l !! i = Some a -> l !! j = Some b -> key b <= key a.

(** What the records of [history] whose song is in the table add to
    coordinate [j] of the aggregate, and to the total weight. *)
Fixpoint historySum `{Js.Host} (tbl : gmap string (list R)) (history : list Js.object)
    (j : nat) : R :=
  match history with
  | [] => 0
  | e :: rest =>
      match tbl !! Music.makeSongId e with
      | Some emb => emb !!! j * Music.entryWeight e
      | None => 0
      end + historySum tbl rest j
  end.

Fixpoint historyWeight `{Js.Host} (tbl : gmap string (list R)) (history : list Js.object)
    : R :=
  match history with
  | [] => 0
  | e :: rest =>
      match tbl !! Music.makeSongId e with
      | Some _ => Music.entryWeight e
      | None => 0
      end + historyWeight tbl rest
  end.

(** The score of a recommendation; a NaN score counts as 0. *)
Definition score_of (r : Music.recommendation) : R := default 0 (Music.similarity_score r).

(** What [scoreSong] returns when the user vector and every stored
    embedding have [embeddingDim] coordinates. *)
Definition scored `{Js.Host} (userEmb : list R) (song : Js.object)
    (r : Music.recommendation) : Prop :=
  Music.id r = Music.makeSongId song
  /\ exists x, Music.similarity_score r = Some x /\ -1 <= x <= 1
               /\ (Vec.zero userEmb -> x = 0).

(** The rating records of one movie, in the order of [this.ratings]. *)
Definition ratingsFor (movieId : string) (rs : list Movie.Rating.t) : list Movie.Rating.t :=
  filter (fun r => Movie.Rating.movieId r = movieId) rs.

(** What [candidate] returns for the key [movieId]: a record with that
    id and a similarity between -1 and 1, which is 0 when the user vector
    is all zero. *)
Definition scoredMovie (userEmb : list R) (movieId : string) (r : Movie.Rec.t) : Prop :=
  Movie.Rec.movieId r = movieId
  /\ -1 <= Movie.Rec.similarity_score r <= 1
  /\ (Vec.zero userEmb -> Movie.Rec.similarity_score r = 0).

(** A text without a double quote. *)
Definition quoteFree (s : string) : Prop := Server.quote ∉ list_ascii_of_string s.

(** The first field of [fields] with [current] in front of it. *)
Definition prepend (current : string) (fields : list string) : list string :=
  match fields with
  | [] => [current]
  | h :: t => (current ++ h) :: t
  end.

(** The entries of the [Map] that [deduplicateSongs] has built after the
    records [records], in insertion order. *)
Definition seenSongs (records : list Js.object) : list (string * Js.object) :=
  foldl (fun seen r =>
           let key := Server.songKey r in
           if bool_decide (key ∈ map fst seen) then seen else (seen ++ [(key, r)])%list)
        [] records.

(** The normalized title and artist of a record, the two halves of its
    song id. *)
Definition titleOf (song : Js.object) : string :=
  Js.toLowerCase (Js.trim (Js.text (Js.or (Music.field2 song "title" "Song_Title")
                                          (Js.VStr "")))).

Definition artistOf (song : Js.object) : string :=
  Js.toLowerCase (Js.trim (Js.text (Js.or (Music.field2 song "artist" "Artist_Name")
                                          (Js.VStr "")))).

(** A record with a non-empty title or artist. *)
Definition named (song : Js.object) : Prop := titleOf song <> "" \/ artistOf song <> "".

(** A record that does not use the spellings [track_name] and
    [artist_name], which only [deduplicateSongs] reads. *)
Definition plainlyNamed (song : Js.object) : Prop :=
  Js.truthy (Js.get song "track_name") = false
  /\ Js.truthy (Js.get song "artist_name") = false.

(** A row that gives its engagement signals under the capitalized CSV
    names only, the ones [saveListeningHistory] reads. *)
Definition csvSignals (r : Js.object) : Prop :=
  Forall (fun k => Js.truthy (Js.get r k) = false)
         ["completionRate"; "rating"; "likedFlag"; "skipFlag"; "repeatCount"].

(** A row whose like, skip and repeat counts are below 10^21 in magnitude;
    [String] prints such a whole number in plain decimal notation. *)
Definition ordinaryCounts `{Js.Host} (r : Js.object) : Prop :=
  Forall (fun k => (Z.abs (Js.int_or (Js.parseInt (Js.get r k)) 0) < 10 ^ 21)%Z)
         ["Liked_Flag"; "Skip_Flag"; "Repeat_Count"].

(** A row of an uploaded listening log, under the CSV names. *)
Definition rowCsv : Js.object :=
  {[ "Song_Title" := Js.VStr "A"; "Artist_Name" := Js.VStr "B";
     "Completion_Rate" := Js.VNum 0.8; "Rating" := Js.VNum 4;
     "Liked_Flag" := Js.VNum 1; "Skip_Flag" := Js.VNum 0; "Repeat_Count" := Js.VNum 2 ]}.

(** The property names every object inherits from [Object.prototype].  An
    object used as a dictionary answers a lookup of one of them with a
    function (with the prototype, for [__proto__]) even when it has no
    entry of that name. *)
Definition inheritedNames : list string :=
  ["constructor"; "__proto__"; "hasOwnProperty"; "isPrototypeOf";
   "propertyIsEnumerable"; "toLocaleString"; "toString"; "valueOf";
   "__defineGetter__"; "__defineSetter__"; "__lookupGetter__"; "__lookupSetter__"].

(** ** Properties *)

(** *** Built-in functions on concrete inputs *)

Section BuiltinExamples.
Import Js.
Example trim_example : trim "  Hello World  " = "Hello World".
Proof. reflexivity. Qed.

Example lower_example : toLowerCase "Pop ROCK" = "pop rock".
Proof. reflexivity. Qed.

Example split_example : split "|" "Action|Comedy|" = ["Action"; "Comedy"; ""].
Proof. reflexivity. Qed.

Example split_empty : split "|" "" = [""].
Proof. reflexivity. Qed.

Example codes_example : codes "pop" = [112; 111; 112]%Z.
Proof. reflexivity. Qed.

Example okeys_example :
  okeys [("b", 1%nat); ("10", 2%nat); ("2", 3%nat); ("a", 4%nat); ("01", 5%nat)]
  = ["2"; "10"; "b"; "a"; "01"].
Proof. reflexivity. Qed.

Example oset_example :
  oset (oset (oset [] "a" 1%nat) "b" 2%nat) "a" 3%nat = [("a", 3%nat); ("b", 2%nat)].
Proof. reflexivity. Qed.

Example dedupe_example : dedupe ["3"; "1"; "3"; "2"; "1"] = ["3"; "1"; "2"].
Proof. reflexivity. Qed.

Example slice0_example :
  slice0 [1; 2; 3]%nat 2 = [1; 2]%nat /\ slice0 [1; 2; 3]%nat (-1) = [1; 2]%nat
  /\ slice0 [1; 2; 3]%nat 10 = [1; 2; 3]%nat.
Proof. repeat split. Qed.

Example sort_stable :
  sort (fun a b : nat * string => (fst b <? fst a)%nat)
       [(1, "a"); (3, "b"); (1, "c"); (3, "d"); (2, "e")]%nat
  = [(3, "b"); (3, "d"); (2, "e"); (1, "a"); (1, "c")]%nat.
Proof. reflexivity. Qed.

Example to_int32_example :
  to_int32 (2 ^ 31) = (- 2 ^ 31)%Z /\ to_int32 (-1) = (-1)%Z /\ to_int32 (2 ^ 32 + 5) = 5%Z.
Proof. repeat split. Qed.

Example hashUser_example : Movie.hashUser "abc" = 354 / 1000 /\ Movie.hashUser "1" = 49 / 1000.
Proof. split; reflexivity. Qed.

Example histogram_example : Movie.histogram [5; 4; 4; 1] = [1; 0; 0; 2; 1]%nat.
Proof. unfold Movie.histogram. cbn [foldl]. rewrite !ZfloorZ. reflexivity. Qed.
End BuiltinExamples.

(** *** Vectors *)

Section VecFacts.
Import Vec.

Lemma dot_comm a b : dot a b = dot b a.
Proof.
  revert b; induction a as [|x a IH]; intros [|y b]; simpl; try reflexivity.
  rewrite IH; lra.
Qed.

Lemma dot_self_nonneg a : 0 <= dot a a.
Proof. induction a as [|x a IH]; simpl; [lra | nra]. Qed.

Lemma dot_snoc a b x y :
  length a = length b -> dot (a ++ [x]) (b ++ [y]) = dot a b + x * y.
Proof.
  revert b; induction a as [|u a IH]; intros [|v b] Hlen; simpl in *; try discriminate.
  - lra.
  - rewrite IH by congruence. lra.
Qed.

Lemma dot_self_zero a : dot a a = 0 <-> zero a.
Proof.
  unfold zero. induction a as [|x a IH]; simpl.
  - split; [constructor | reflexivity].
  - pose proof (dot_self_nonneg a) as Hn. split.
    + intros Hs. assert (x = 0) by nra. assert (dot a a = 0) by nra.
      constructor; [assumption | now apply IH].
    + intros Hz. inversion Hz as [|? ? Hx Ha]; subst.
      apply IH in Ha. rewrite Ha. lra.
Qed.

Lemma dot_zero_l a b : zero a -> dot a b = 0.
Proof.
  unfold zero. intros Hz; revert b; induction Hz as [|x a Hx _ IH]; intros [|y b]; simpl;
    try reflexivity.
  rewrite IH, Hx. lra.
Qed.

Lemma dot_zero_r a b : zero b -> dot a b = 0.
Proof. intros Hz. rewrite dot_comm. now apply dot_zero_l. Qed.

(** Cauchy-Schwarz on lists. *)
Lemma dot_square_le a b : dot a b * dot a b <= dot a a * dot b b.
Proof.
  revert b; induction a as [|x a IH]; intros [|y b]; simpl; try lra.
  specialize (IH b).
  pose proof (dot_self_nonneg a) as HA. pose proof (dot_self_nonneg b) as HB.
  set (d := dot a b) in *. set (A := dot a a) in *. set (B := dot b b) in *.
  assert (Hs : A = sqrt A * sqrt A) by (symmetry; now apply sqrt_sqrt).
  assert (Ht : B = sqrt B * sqrt B) by (symmetry; now apply sqrt_sqrt).
  pose proof (sqrt_pos A) as HsA. pose proof (sqrt_pos B) as HsB.
  set (s := sqrt A) in *. set (t := sqrt B) in *.
  assert (Hd : -(s * t) <= d <= s * t).
  { assert (d * d <= (s * t) * (s * t)) by nra.
    assert (0 <= s * t) by nra. split; nra. }
  assert (Hxy : 2 * x * y * d <= x * x * B + y * y * A).
  { rewrite Hs, Ht.
    destruct (Rle_dec 0 (x * y)) as [Hp|Hp].
    - assert (2 * x * y * d <= 2 * (x * y) * (s * t)) by nra.
      pose proof (Rle_0_sqr (x * t - y * s)) as Hsq. unfold Rsqr in Hsq. nra.
    - assert (2 * x * y * d <= 2 * (x * y) * (- (s * t))) by nra.
      pose proof (Rle_0_sqr (x * t + y * s)) as Hsq. unfold Rsqr in Hsq. nra. }
  nra.
Qed.

Lemma norm_nonneg a : 0 <= norm a.
Proof. apply sqrt_pos. Qed.

Lemma norm_zero a : norm a = 0 <-> zero a.
Proof.
  unfold norm. rewrite <- dot_self_zero. split.
  - intros Hs. apply sqrt_eq_0; [apply dot_self_nonneg | exact Hs].
  - intros ->. apply sqrt_0.
Qed.

Lemma norm_square a : norm a * norm a = dot a a.
Proof. apply sqrt_sqrt, dot_self_nonneg. Qed.

Lemma dot_abs_le a b : - (norm a * norm b) <= dot a b <= norm a * norm b.
Proof.
  pose proof (dot_square_le a b) as Hcs.
  pose proof (norm_nonneg a) as Ha. pose proof (norm_nonneg b) as Hb.
  rewrite <- (norm_square a), <- (norm_square b) in Hcs.
  assert (0 <= norm a * norm b) by nra.
  split; nra.
Qed.

Lemma cosine_bounds a b : -1 <= cosine a b <= 1.
Proof.
  unfold cosine, guarded. pose proof (dot_abs_le a b) as Hd.
  pose proof (norm_nonneg a) as Ha. pose proof (norm_nonneg b) as Hb.
  destruct (decide (norm a * norm b = 0)) as [Hz|Hz].
  - rewrite Hz in Hd. replace (dot a b) with 0 by lra.
    unfold Rdiv. rewrite Rmult_0_l. lra.
  - assert (Hp : 0 < norm a * norm b) by nra.
    split.
    + apply Rmult_le_reg_r with (norm a * norm b); [exact Hp|].
      unfold Rdiv. rewrite Rmult_assoc, Rinv_l by exact Hz. lra.
    + apply Rmult_le_reg_r with (norm a * norm b); [exact Hp|].
      unfold Rdiv. rewrite Rmult_assoc, Rinv_l by exact Hz. lra.
Qed.

Lemma cosine_self a : ~ zero a -> cosine a a = 1.
Proof.
  intros Hnz. unfold cosine, guarded.
  assert (Hn : norm a <> 0) by (intros Hn; apply Hnz; now apply norm_zero).
  rewrite norm_square.
  destruct (decide (dot a a = 0)) as [Hz|Hz].
  - exfalso. apply Hnz. now apply dot_self_zero.
  - now apply Rdiv_diag.
Qed.

Lemma cosine_zero a b : zero a \/ zero b -> cosine a b = 0.
Proof.
  intros Hz. unfold cosine.
  replace (dot a b) with 0; [unfold Rdiv; apply Rmult_0_l|].
  destruct Hz; [now rewrite dot_zero_l | now rewrite dot_zero_r].
Qed.

End VecFacts.

(** *** The two cosine loops *)

Section CosineFacts.
Import Js Vec.

Lemma foldl_seq_succ {A} (f : A -> nat -> A) (acc : A) (n : nat) :
  foldl f acc (seq 0 (S n)) = foldl (fun acc i => f acc (S i)) (f acc 0%nat) (seq 0 n).
Proof. simpl. now rewrite <- fmap_S_seq, foldl_fmap. Qed.

Lemma foldl_ext {A B} (f g : A -> B -> A) (l : list B) :
  (forall acc x, f acc x = g acc x) -> forall acc, foldl f acc l = foldl g acc l.
Proof.
  intros Hfg. induction l as [|x l IH]; intros acc; [reflexivity|].
  simpl. rewrite Hfg. apply IH.
Qed.

Lemma num_or_guarded d : num_or (Some d) 1 = guarded d.
Proof. unfold num_or, guarded. destruct (Req_EM_T d 0), (decide (d = 0)); congruence. Qed.

Lemma music_loop_le a : forall b d m n,
  (length a <= length b)%nat ->
  foldl (music_step a b) (Some d, Some m, Some n) (seq 0 (length a))
  = (Some (d + dot a b), Some (m + dot a a),
     Some (n + dot (take (length a) b) (take (length a) b))).
Proof.
  induction a as [|x a IH]; intros b d m n Hlen.
  - simpl. now rewrite !Rplus_0_r.
  - destruct b as [|y b]; [simpl in Hlen; lia|].
    cbn [length]. rewrite foldl_seq_succ.
    rewrite (foldl_ext _ (music_step a b)) by (intros [[? ?] ?] i; reflexivity).
    cbn [music_step lookup list_lookup Music.nadd Music.nmul].
    rewrite IH by (simpl in Hlen; lia).
    simpl. f_equal; [f_equal|]; f_equal; lra.
Qed.

Lemma music_loop_nan l a b : forall m n,
  (foldl (music_step a b) (None, m, n) l).1.1 = None.
Proof.
  induction l as [|i l IH]; intros m n; [reflexivity|].
  cbn [foldl]. unfold music_step at 2. cbn [Music.nadd]. apply IH.
Qed.

Lemma music_loop_short a : forall b d m n,
  (length b < length a)%nat ->
  (foldl (music_step a b) (d, m, n) (seq 0 (length a))).1.1 = None.
Proof.
  induction a as [|x a IH]; intros b d m n Hlen; [simpl in Hlen; lia|].
  cbn [length]. rewrite foldl_seq_succ.
  rewrite (foldl_ext _ (music_step a (tail b)))
    by (intros [[? ?] ?] i; destruct b; reflexivity).
  destruct b as [|y b].
  - cbn [music_step lookup list_lookup Music.nmul Music.nadd tail].
    replace (Music.nadd d None) with (@None R) by (now destruct d).
    apply music_loop_nan.
  - cbn [tail]. unfold music_step at 2. apply IH. simpl in Hlen. lia.
Qed.

Lemma music_cosine_le a b :
  (length a <= length b)%nat ->
  Music.cosineSimilarity a b = Normal (Some (cosine a (take (length a) b))).
Proof.
  intros Hlen. unfold Music.cosineSimilarity.
  change (foldl _ (Some 0, Some 0, Some 0) (seq 0 (length a)))
    with (foldl (music_step a b) (Some 0, Some 0, Some 0) (seq 0 (length a))).
  rewrite music_loop_le by exact Hlen.
  cbn [Music.nsqrt Music.nmul Music.ndiv fmap option_fmap option_map].
  rewrite num_or_guarded, !Rplus_0_l. unfold cosine, norm.
  do 3 f_equal.
  clear Hlen. revert b. induction a as [|x a IH]; intros [|y b]; simpl; try reflexivity.
  now rewrite IH.
Qed.

Lemma music_cosine_short a b :
  (length b < length a)%nat -> Music.cosineSimilarity a b = Normal None.
Proof.
  intros Hlen. unfold Music.cosineSimilarity.
  change (foldl _ (Some 0, Some 0, Some 0) (seq 0 (length a)))
    with (foldl (music_step a b) (Some 0, Some 0, Some 0) (seq 0 (length a))).
  pose proof (music_loop_short a b (Some 0) (Some 0) (Some 0) Hlen) as Hn.
  destruct (foldl _ _ _) as [[dot magA] magB]. simpl in Hn. subst dot. reflexivity.
Qed.

Lemma music_cosine_eq a b :
  length a = length b -> Music.cosineSimilarity a b = Normal (Some (cosine a b)).
Proof.
  intros Hlen. rewrite music_cosine_le by lia.
  now rewrite Hlen, firstn_all.
Qed.

Lemma movie_loop a : forall b d m n,
  length a = length b ->
  foldl (movie_step a b) (d, m, n) (seq 0 (length a))
  = (d + dot a b, m + dot a a, n + dot b b).
Proof.
  induction a as [|x a IH]; intros b d m n Hlen.
  - destruct b; [|discriminate]. simpl. now rewrite !Rplus_0_r.
  - destruct b as [|y b]; [discriminate|].
    cbn [length]. rewrite foldl_seq_succ.
    rewrite (foldl_ext _ (movie_step a b)) by (intros [[? ?] ?] i; reflexivity).
    cbn [movie_step]. rewrite IH by (simpl in Hlen; congruence).
    simpl. f_equal; [f_equal|]; lra.
Qed.

Lemma movie_cosine_eq a b :
  length a = length b -> Movie.cosineSimilarity a b = Normal (cosine a b).
Proof.
  intros Hlen. unfold Movie.cosineSimilarity.
  rewrite Hlen, Nat.eqb_refl. cbn [negb]. rewrite <- Hlen.
  change (foldl _ (0, 0, 0) (seq 0 (length a)))
    with (foldl (movie_step a b) (0, 0, 0) (seq 0 (length a))).
  rewrite movie_loop by exact Hlen.
  rewrite num_or_guarded, !Rplus_0_l. reflexivity.
Qed.

Lemma movie_cosine_mismatch a b :
  length a <> length b -> Movie.cosineSimilarity a b = Normal 0.
Proof.
  intros Hlen. unfold Movie.cosineSimilarity.
  destruct (Nat.eqb_spec (length a) (length b)) as [He|_]; [contradiction|reflexivity].
Qed.

End CosineFacts.

(** *** Cosine similarity: contract and mismatched lengths *)

Section CosineClaims.
Import Js Vec.

Lemma norm_product_zero a b : norm a * norm b = 0 <-> norm a = 0 \/ norm b = 0.
Proof.
  split.
  - apply Rmult_integral.
  - intros [-> | ->]; lra.
Qed.

Lemma cosine_formula a b :
  cosine a b
  = dot a b / (if decide (norm a = 0 \/ norm b = 0) then 1 else norm a * norm b).
Proof.
  unfold cosine, guarded.
  destruct (decide (norm a * norm b = 0)) as [Hz|Hz],
           (decide (norm a = 0 \/ norm b = 0)) as [Hd|Hd]; try reflexivity.
  - exfalso. now apply Hd, norm_product_zero.
  - exfalso. now apply Hz, norm_product_zero.
Qed.

(** C9.  For two vectors of equal length both [cosineSimilarity] functions
    return [dot(a,b) / (||a|| * ||b||)], the denominator being replaced by 1
    when either norm is zero.  The value lies in [-1, 1]; it is 1 when a
    non-zero vector is compared with itself and 0 when either argument is
    the zero vector. *)
Theorem C9_cosine_contract (a b : list R) :
  length a = length b ->
  exists c : R,
    Music.cosineSimilarity a b = Normal (Some c)
    /\ Movie.cosineSimilarity a b = Normal c
    /\ c = dot a b / (if decide (norm a = 0 \/ norm b = 0) then 1 else norm a * norm b)
    /\ -1 <= c <= 1
    /\ (a = b -> ~ zero a -> c = 1)
    /\ (zero a \/ zero b -> c = 0).
Proof.
  intros Hlen. exists (cosine a b).
  split; [now apply music_cosine_eq|].
  split; [now apply movie_cosine_eq|].
  split; [apply cosine_formula|].
  split; [apply cosine_bounds|].
  split.
  - intros <- Hnz. now apply cosine_self.
  - apply cosine_zero.
Qed.

Lemma C9_cosine_contract_witness :
  length [3; 4] = length [4; 3]
  /\ exists c : R,
       Music.cosineSimilarity [3; 4] [4; 3] = Normal (Some c)
       /\ Movie.cosineSimilarity [3; 4] [4; 3] = Normal c
       /\ c = dot [3; 4] [4; 3]
              / (if decide (norm [3; 4] = 0 \/ norm [4; 3] = 0) then 1
                 else norm [3; 4] * norm [4; 3])
       /\ -1 <= c <= 1
       /\ ([3; 4] = [4; 3] -> ~ zero [3; 4] -> c = 1)
       /\ (zero [3; 4] \/ zero [4; 3] -> c = 0).
Proof. split; [reflexivity | apply (C9_cosine_contract [3; 4] [4; 3]); reflexivity]. Defined.

(** C8, as the specification states it, fails: on vectors of different
    lengths neither function raises. The music function returns the cosine
    of the first vector with the truncated second one, the movie function
    returns 0. *)
Lemma C8_mismatch_counterexample :
  length [1] <> length [1; 5]
  /\ Music.cosineSimilarity [1] [1; 5] = Normal (Some 1)
  /\ Movie.cosineSimilarity [1] [1; 5] = Normal 0
  /\ ~ (exists m, Music.cosineSimilarity [1] [1; 5] = Throw m)
  /\ ~ (exists m, Movie.cosineSimilarity [1] [1; 5] = Throw m).
Proof.
  assert (Hm : Music.cosineSimilarity [1] [1; 5] = Normal (Some 1)).
  { rewrite music_cosine_le by (simpl; lia). simpl take.
    rewrite cosine_self; [reflexivity|].
    intros Hz. inversion Hz; subst. lra. }
  assert (Hv : Movie.cosineSimilarity [1] [1; 5] = Normal 0)
    by (apply movie_cosine_mismatch; discriminate).
  split; [discriminate|]. split; [exact Hm|]. split; [exact Hv|].
  split; intros [m Hthrow]; congruence.
Qed.

(** C8, amended.  Comparing vectors of different lengths never raises.  The
    movie function returns 0.  The music function iterates over the indices
    of its first argument: a longer second vector is silently truncated, a
    shorter one makes the result NaN. *)
Theorem C8_mismatch_is_silent (a b : list R) :
  length a <> length b ->
  Movie.cosineSimilarity a b = Normal 0
  /\ ((length a < length b)%nat ->
      Music.cosineSimilarity a b = Music.cosineSimilarity a (take (length a) b)
      /\ Music.cosineSimilarity a b = Normal (Some (cosine a (take (length a) b))))
  /\ ((length b < length a)%nat -> Music.cosineSimilarity a b = Normal None).
Proof.
  intros Hne. split; [now apply movie_cosine_mismatch|]. split.
  - intros Hlt. split; [|apply music_cosine_le; lia].
    rewrite (music_cosine_le a b) by lia.
    rewrite (music_cosine_le a (take (length a) b)) by (rewrite length_take; lia).
    now rewrite take_take, Nat.min_id.
  - apply music_cosine_short.
Qed.

Lemma C8_mismatch_is_silent_witness :
  length [1] <> length [1; 5]
  /\ Movie.cosineSimilarity [1] [1; 5] = Normal 0
  /\ ((length [1] < length [1; 5])%nat ->
      Music.cosineSimilarity [1] [1; 5]
      = Music.cosineSimilarity [1] (take (length [1]) [1; 5])
      /\ Music.cosineSimilarity [1] [1; 5]
         = Normal (Some (cosine [1] (take (length [1]) [1; 5]))))
  /\ ((length [1; 5] < length [1])%nat -> Music.cosineSimilarity [1] [1; 5] = Normal None).
Proof.
  split; [discriminate | apply (C8_mismatch_is_silent [1] [1; 5]); discriminate].
Defined.

End CosineClaims.

(** *** The feature hasher *)

Section HasherFacts.
Import Js.

Lemma alter_add_lookup (vec : list R) (idx j : nat) (t : R) :
  (j < length vec)%nat ->
  alter (fun v => v + t) idx vec !!! j
  = vec !!! j + (if decide (idx = j) then t else 0).
Proof.
  intros Hj. destruct (decide (idx = j)) as [->|Hne].
  - now rewrite list_lookup_total_alter_eq.
  - rewrite list_lookup_total_alter_ne by exact Hne. lra.
Qed.

Lemma music_hash_length cs : forall i offset weight vec,
  length (Music.hash_from i cs offset weight vec) = length vec.
Proof.
  induction cs as [|c r IH]; intros i offset weight vec; simpl; [reflexivity|].
  now rewrite IH, length_alter.
Qed.

Lemma music_hash_lookup cs : forall i offset weight vec j,
  (j < length vec)%nat ->
  Music.hash_from i cs offset weight vec !!! j
  = vec !!! j
    + contribution (fun k => ((offset + k) mod length vec)%nat) i cs weight j.
Proof.
  induction cs as [|c r IH]; intros i offset weight vec j Hj; simpl; [lra|].
  rewrite IH by now rewrite length_alter.
  rewrite length_alter, alter_add_lookup by exact Hj. lra.
Qed.

Lemma music_hash_band cs : forall i offset weight vec,
  (i + length cs <= 16)%nat -> (offset + 16 <= length vec)%nat ->
  Music.hash_from i cs offset weight vec = hashBand_from 16 i cs offset weight vec.
Proof.
  induction cs as [|c r IH]; intros i offset weight vec Hi Hv;
    cbn [Music.hash_from hashBand_from]; [reflexivity|].
  cbn [length] in Hi.
  rewrite (Nat.mod_small (offset + i)) by lia.
  rewrite (Nat.mod_small i 16) by lia.
  apply IH; [lia | now rewrite length_alter].
Qed.

Lemma band_hash_length band cs : forall i offset weight vec,
  length (hashBand_from band i cs offset weight vec) = length vec.
Proof.
  induction cs as [|c r IH]; intros i offset weight vec; simpl; [reflexivity|].
  now rewrite IH, length_alter.
Qed.

Lemma band_hash_lookup band cs : forall i offset weight vec j,
  (j < length vec)%nat ->
  hashBand_from band i cs offset weight vec !!! j
  = vec !!! j + contribution (fun k => (offset + k mod band)%nat) i cs weight j.
Proof.
  induction cs as [|c r IH]; intros i offset weight vec j Hj;
    cbn [hashBand_from contribution]; [lra|].
  rewrite IH by now rewrite length_alter.
  rewrite alter_add_lookup by exact Hj. lra.
Qed.

(** The movie hasher is the band hasher on the characters that fit before
    the end of the vector. *)
Lemma movie_hash_band cs : forall i offset weight vec,
  Movie.hash_from i cs offset weight vec
  = hashBand_from 16 i (take (length vec - offset - i) cs) offset weight vec.
Proof.
  induction cs as [|c r IH]; intros i offset weight vec; cbn [Movie.hash_from].
  - now rewrite take_nil.
  - destruct (Nat.ltb_spec (offset + i) (length vec)) as [Hlt|Hge].
    + replace (length vec - offset - i)%nat with (S (length vec - offset - S i)) by lia.
      cbn [take hashBand_from]. rewrite IH, length_alter. reflexivity.
    + replace (length vec - offset - i)%nat with 0%nat by lia. reflexivity.
Qed.

Lemma movie_hash_length str vec offset weight :
  length (Movie.hashToVector str vec offset weight) = length vec.
Proof.
  unfold Movie.hashToVector. rewrite movie_hash_band. apply band_hash_length.
Qed.

End HasherFacts.

Section HasherClaims.
Import Js.

Lemma codes_length s : length (codes s) = String.length s.
Proof.
  unfold codes. rewrite length_map. induction s as [|c s IH]; simpl; congruence.
Qed.

Lemma toLowerCase_length s : String.length (toLowerCase s) = String.length s.
Proof. induction s as [|c s IH]; simpl; congruence. Qed.

(** C2, as the specification states it, fails for both hashers.  In the
    music class the seventeenth character of a text hashed at offset 0 lands
    on coordinate 16, outside the band of 16 coordinates, instead of wrapping
    to coordinate 0.  In the movie class the thirty-third character of a text
    hashed at offset 32 into a vector of 64 contributes nothing. *)
Lemma C2_hasher_counterexample :
  Music.hashToVector (VStr "aaaaaaaaaaaaaaaaa") (replicate 128 0) 0 1
    <> hashToVector_spec 16 "aaaaaaaaaaaaaaaaa" (replicate 128 0) 0 1
  /\ Movie.hashToVector "action|adventure|animation|comedy" (replicate 64 0) 32 1
    <> hashToVector_spec 16 "action|adventure|animation|comedy" (replicate 64 0) 32 1.
Proof.
  split; intros Heq.
  - apply (f_equal (fun v => v !!! 16%nat)) in Heq.
    unfold Music.hashToVector, hashToVector_spec, hashBand in Heq.
    rewrite music_hash_lookup, band_hash_lookup in Heq
      by (rewrite length_replicate; lia).
    rewrite length_replicate in Heq. vm_compute contribution in Heq. lra.
  - apply (f_equal (fun v => v !!! 32%nat)) in Heq.
    unfold Movie.hashToVector, hashToVector_spec, hashBand in Heq.
    rewrite movie_hash_band, !band_hash_lookup in Heq
      by (rewrite length_replicate; lia).
    rewrite length_replicate in Heq. vm_compute contribution in Heq. lra.
Qed.

(** C2, amended.  The hasher adds [(code / 255) * weight] of each
    character of the lower-cased text to one coordinate.  For a text that
    fits its band this is coordinate [offset + i mod 16] of a band of 16
    coordinates starting at [offset]: in the music class when the text has at
    most 16 characters and the band fits in the vector, in the movie class
    when the text has at most [vec.length - offset] characters.  In general
    character [i] goes to coordinate [(offset + i) mod vec.length] in the
    music class and to [offset + i mod 16] in the movie class, where only the
    first [vec.length - offset] characters are hashed.  An empty or absent
    string leaves the vector unchanged. *)
Theorem C2_hasher_bands (str : value) (mstr : string) (vec : list R)
    (offset : nat) (weight : R) (j : nat) :
  (j < length vec)%nat ->
  let text := toLowerCase (Js.text (or str (VStr ""))) in
  let kept := take (length vec - offset) (codes (toLowerCase mstr)) in
  Music.hashToVector str vec offset weight !!! j
    = vec !!! j
      + contribution (fun i => ((offset + i) mod length vec)%nat) 0 (codes text) weight j
  /\ Movie.hashToVector mstr vec offset weight !!! j
    = vec !!! j + contribution (fun i => (offset + i mod 16)%nat) 0 kept weight j
  /\ ((String.length text <= 16)%nat -> (offset + 16 <= length vec)%nat ->
      Music.hashToVector str vec offset weight = hashToVector_spec 16 text vec offset weight)
  /\ ((String.length mstr <= length vec - offset)%nat ->
      Movie.hashToVector mstr vec offset weight
      = hashToVector_spec 16 (toLowerCase mstr) vec offset weight)
  /\ (truthy str = false -> Music.hashToVector str vec offset weight = vec)
  /\ Movie.hashToVector "" vec offset weight = vec.
Proof.
  intros Hj text kept. repeat split.
  - unfold Music.hashToVector. now apply music_hash_lookup.
  - unfold Movie.hashToVector. rewrite movie_hash_band, Nat.sub_0_r.
    now apply band_hash_lookup.
  - intros Hlen Hfit. unfold Music.hashToVector, hashToVector_spec, hashBand.
    apply music_hash_band; [|exact Hfit]. fold text. rewrite codes_length. lia.
  - intros Hlen. unfold Movie.hashToVector, hashToVector_spec, hashBand.
    rewrite movie_hash_band, Nat.sub_0_r, take_ge; [reflexivity|].
    now rewrite codes_length, toLowerCase_length.
  - intros Hfalsy. unfold Music.hashToVector, or. rewrite Hfalsy. reflexivity.
Qed.

Lemma C2_hasher_bands_witness :
  (33 < length (replicate 64 0))%nat
  /\ Music.hashToVector (VStr "Pop") (replicate 64 0) 32 2 !!! 33%nat
     = replicate 64 0 !!! 33%nat
       + contribution (fun i => ((32 + i) mod length (replicate 64 0))%nat) 0
           (codes (toLowerCase (Js.text (or (VStr "Pop") (VStr ""))))) 2 33
  /\ Music.hashToVector (VStr "Pop") (replicate 64 0) 32 2
     = hashToVector_spec 16 "pop" (replicate 64 0) 32 2.
Proof.
  assert (Hj : (33 < length (replicate 64 0))%nat) by (simpl; lia).
  destruct (C2_hasher_bands (VStr "Pop") "Drama" (replicate 64 0) 32 2 33 Hj)
    as (Hmusic & _ & Hband & _).
  split; [exact Hj|]. split; [exact Hmusic|].
  apply Hband; simpl; lia.
Defined.

End HasherClaims.

(** *** Music: the engagement weight of a record *)

Section WeightFacts.
Context `{Js.Host}.
Import Js.

Lemma truthy_num x : x <> 0 -> truthy (VNum x) = true.
Proof. intros Hx. unfold truthy. now destruct (Req_EM_T x 0). Qed.

Lemma truthy_zero : truthy (VNum 0) = false.
Proof. unfold truthy. now destruct (Req_EM_T 0 0). Qed.

Lemma get_insert_eq (e : object) k v : get (<[k := v]> e) k = v.
Proof. unfold get. now rewrite lookup_insert_eq. Qed.

Lemma get_insert_ne (e : object) k k' v : k <> k' -> get (<[k := v]> e) k' = get e k'.
Proof. intros Hne. unfold get. now rewrite lookup_insert_ne. Qed.

Lemma field2_insert_num (e : object) a b x :
  x <> 0 -> Music.field2 (<[a := VNum x]> e) a b = VNum x.
Proof.
  intros Hx. unfold Music.field2, or. now rewrite get_insert_eq, truthy_num.
Qed.

Lemma field2_insert_other (e : object) k v a b :
  k <> a -> k <> b -> Music.field2 (<[k := v]> e) a b = Music.field2 e a b.
Proof.
  intros Ha Hb. unfold Music.field2. now rewrite !get_insert_ne.
Qed.

Lemma num_or_nonzero x d : x <> 0 -> num_or (Some x) d = x.
Proof. intros Hx. unfold num_or. now destruct (Req_EM_T x 0). Qed.

Lemma int_or_zero n : int_or (Some n) 0 = n.
Proof. unfold int_or. destruct (Z.eqb_spec n 0); congruence. Qed.

Lemma Ztrunc_IZR z : Ztrunc (IZR z) = z.
Proof.
  unfold Ztrunc. destruct (Rle_dec 0 (IZR z)); [apply ZfloorZ|].
  apply Zceil_eq. lra.
Qed.

Lemma Ztrunc_nonneg x : 0 <= x -> Ztrunc x = Zfloor x.
Proof. intros Hx. unfold Ztrunc. now destruct (Rle_dec 0 x). Qed.

Lemma parseInt_plain x : plain_decimal x -> parseInt (VNum x) = Some (Ztrunc x).
Proof. intros Hx. cbn [parseInt]. now rewrite decide_True. Qed.

Lemma plain_decimal_IZR (n : Z) : (Z.abs n < 10 ^ 21)%Z -> plain_decimal (IZR n).
Proof.
  intros Hn. destruct (Z.eq_dec n 0%Z) as [->|Hne]; [now left | right].
  rewrite <- abs_IZR.
  assert (H1 : 1 <= IZR (Z.abs n)) by (apply IZR_le; lia).
  apply IZR_lt in Hn.
  assert (Hp : 10 ^ 21 = IZR (10 ^ 21)) by (rewrite pow_IZR; reflexivity).
  rewrite Hp. split; [lra | exact Hn].
Qed.

Lemma parseInt_IZR (n : Z) : (Z.abs n < 10 ^ 21)%Z -> parseInt (VNum (IZR n)) = Some n.
Proof. intros Hn. now rewrite parseInt_plain, Ztrunc_IZR by now apply plain_decimal_IZR. Qed.

Lemma entryWeight_formula (e : object) :
  Music.entryWeight e
  = weightFormula (completionRate_of e) (rating_of e) (liked_of e) (skipped_of e)
      (repeated_of e).
Proof.
  unfold Music.entryWeight, weightFormula, completionRate_of, rating_of, liked_of,
    skipped_of, repeated_of.
  destruct (_ =? 0)%Z; lra.
Qed.

(** A record with non-negative signals has a positive weight. *)
Lemma entryWeight_positive (e : object) : nonnegative e -> 0 < Music.entryWeight e.
Proof.
  intros (Hc & Hr & Hl & Hp). rewrite entryWeight_formula. unfold weightFormula.
  apply IZR_le in Hl, Hp.
  destruct (_ =? 0)%Z; nra.
Qed.

Ltac other_field :=
  repeat match goal with
    | |- context [Music.field2 (<[?k := ?v]> ?e) ?a ?b] =>
        rewrite (field2_insert_other e k v a b) by discriminate
    end.

Lemma signals_completionRate (e : object) x :
  x <> 0 ->
  let e' := <["completionRate" := VNum x]> e in
  completionRate_of e' = x /\ rating_of e' = rating_of e /\ liked_of e' = liked_of e
  /\ skipped_of e' = skipped_of e /\ repeated_of e' = repeated_of e.
Proof.
  intros Hx e'. subst e'.
  unfold completionRate_of, rating_of, liked_of, skipped_of, repeated_of.
  other_field. rewrite field2_insert_num by exact Hx.
  cbn [parseFloat]. now rewrite num_or_nonzero.
Qed.

Lemma signals_rating (e : object) x :
  x <> 0 ->
  let e' := <["rating" := VNum x]> e in
  completionRate_of e' = completionRate_of e /\ rating_of e' = x / 5
  /\ liked_of e' = liked_of e /\ skipped_of e' = skipped_of e
  /\ repeated_of e' = repeated_of e.
Proof.
  intros Hx e'. subst e'.
  unfold completionRate_of, rating_of, liked_of, skipped_of, repeated_of.
  other_field. rewrite field2_insert_num by exact Hx.
  cbn [parseFloat]. now rewrite num_or_nonzero.
Qed.

Lemma signals_likedFlag (e : object) x :
  x <> 0 -> plain_decimal x ->
  let e' := <["likedFlag" := VNum x]> e in
  completionRate_of e' = completionRate_of e /\ rating_of e' = rating_of e
  /\ liked_of e' = Ztrunc x /\ skipped_of e' = skipped_of e
  /\ repeated_of e' = repeated_of e.
Proof.
  intros Hx Hp e'. subst e'.
  unfold completionRate_of, rating_of, liked_of, skipped_of, repeated_of.
  other_field. rewrite field2_insert_num by exact Hx.
  now rewrite parseInt_plain, int_or_zero by exact Hp.
Qed.

(** A likedFlag of 0 gives way to the other spelling of the field; without
    it the record is not liked. *)
Lemma signals_likedFlag_zero (e : object) :
  e !! "Liked_Flag" = None ->
  let e' := <["likedFlag" := VNum 0]> e in
  completionRate_of e' = completionRate_of e /\ rating_of e' = rating_of e
  /\ liked_of e' = 0%Z /\ skipped_of e' = skipped_of e
  /\ repeated_of e' = repeated_of e.
Proof.
  intros Hnone e'. subst e'.
  unfold completionRate_of, rating_of, liked_of, skipped_of, repeated_of.
  other_field. repeat split.
  unfold Music.field2, or. rewrite get_insert_eq, truthy_zero.
  rewrite get_insert_ne by discriminate. unfold get. rewrite Hnone. reflexivity.
Qed.

Lemma signals_skipFlag (e : object) x :
  x <> 0 -> plain_decimal x ->
  let e' := <["skipFlag" := VNum x]> e in
  completionRate_of e' = completionRate_of e /\ rating_of e' = rating_of e
  /\ liked_of e' = liked_of e /\ skipped_of e' = Ztrunc x
  /\ repeated_of e' = repeated_of e.
Proof.
  intros Hx Hp e'. subst e'.
  unfold completionRate_of, rating_of, liked_of, skipped_of, repeated_of.
  other_field. rewrite field2_insert_num by exact Hx.
  now rewrite parseInt_plain, int_or_zero by exact Hp.
Qed.

Lemma plain_decimal_one : plain_decimal 1.
Proof. right. rewrite Rabs_R1. lra. Qed.

Lemma Ztrunc_le x y : x <= y -> (Ztrunc x <= Ztrunc y)%Z.
Proof.
  intros Hxy. unfold Ztrunc.
  destruct (Rle_dec 0 x) as [Hx|Hx], (Rle_dec 0 y) as [Hy|Hy]; try lra.
  - now apply Zfloor_le.
  - pose proof (Zceil_bound x) as [Hc _].
    assert (Hlt : IZR (Zceil x) < IZR 1) by lra. apply lt_IZR in Hlt.
    pose proof (Zfloor_lub 0 y Hy). lia.
  - now apply Zceil_le.
Qed.

End WeightFacts.

Section WeightClaims.
Import Js.

Ltac plain_number :=
  first [left; lra | right; rewrite Rabs_right by lra; lra].

Ltac eval_fields :=
  unfold completionRate_of, rating_of, liked_of, skipped_of, repeated_of,
    Music.field2, get;
  simplify_map_eq; unfold or;
  repeat first [rewrite truthy_zero | rewrite truthy_num by lra];
  repeat rewrite parseInt_plain by plain_number;
  cbn [parseFloat parseInt truthy];
  repeat rewrite num_or_nonzero by lra;
  rewrite ?Ztrunc_IZR;
  cbn [num_or int_or Z.eqb Z.min Z.compare Pos.compare Pos.compare_cont].

(** C4, as the specification states it, fails in five ways.  A completion
    rate or a rating of 0 is replaced by the default (0.5, respectively
    3), so raising the field from 0 to a small positive value lowers the
    weight.  [parseInt] reads the text of a likedFlag: the number
    0.0000001 is printed 1e-7 and counts as 1 while the larger number 0.5
    counts as 0, and the number 10^21 is printed 1e+21 and counts as 1
    while the smaller number 2 counts as 2.  A likedFlag of 0 gives way to
    the field Liked_Flag, so with a Liked_Flag of 2 raising likedFlag from
    0 to 1 lowers the weight. *)
Lemma C4_weight_counterexample :
  (0 < 0.25
   /\ @Music.entryWeight plainHost (<["completionRate" := VNum 0.25]> (<["rating" := VNum 5]> ∅))
      < @Music.entryWeight plainHost (<["completionRate" := VNum 0]> (<["rating" := VNum 5]> ∅)))
  /\ (0 < 1
      /\ @Music.entryWeight plainHost (<["rating" := VNum 1]> (<["completionRate" := VNum 1]> ∅))
         < @Music.entryWeight plainHost
             (<["rating" := VNum 0]> (<["completionRate" := VNum 1]> ∅)))
  /\ (/ 10 ^ 7 < 0.5
      /\ @Music.entryWeight sciHost (<["likedFlag" := VNum 0.5]> ∅)
         < @Music.entryWeight sciHost (<["likedFlag" := VNum (/ 10 ^ 7)]> ∅))
  /\ (2 < 10 ^ 21
      /\ @Music.entryWeight sciHost (<["likedFlag" := VNum (10 ^ 21)]> ∅)
         < @Music.entryWeight sciHost (<["likedFlag" := VNum 2]> ∅))
  /\ (0 < 1
      /\ @Music.entryWeight plainHost (<["likedFlag" := VNum 1]> (<["Liked_Flag" := VNum 2]> ∅))
         < @Music.entryWeight plainHost
             (<["likedFlag" := VNum 0]> (<["Liked_Flag" := VNum 2]> ∅))).
Proof.
  assert (Hrest : forall x,
            @completionRate_of sciHost (<["likedFlag" := VNum x]> ∅) = 0.5
            /\ @rating_of sciHost (<["likedFlag" := VNum x]> ∅) = 3 / 5
            /\ @skipped_of sciHost (<["likedFlag" := VNum x]> ∅) = 0%Z
            /\ @repeated_of sciHost (<["likedFlag" := VNum x]> ∅) = 0%Z).
  { intros x. unfold completionRate_of, rating_of, skipped_of, repeated_of.
    rewrite !field2_insert_other by discriminate.
    unfold Music.field2, get, or. rewrite !lookup_empty. cbn. repeat split. }
  assert (Hhalf : @liked_of sciHost (<["likedFlag" := VNum 0.5]> ∅) = 0%Z).
  { destruct (@signals_likedFlag sciHost ∅ 0.5) as (_ & _ & -> & _);
      [lra | right; rewrite Rabs_right by lra; lra|].
    rewrite Ztrunc_nonneg by lra. apply Zfloor_eq. lra. }
  assert (Htwo : @liked_of sciHost (<["likedFlag" := VNum 2]> ∅) = 2%Z).
  { destruct (@signals_likedFlag sciHost ∅ 2) as (_ & _ & -> & _);
      [lra | right; rewrite Rabs_right by lra; lra|].
    apply Ztrunc_IZR. }
  assert (Htiny : @liked_of sciHost (<["likedFlag" := VNum (/ 10 ^ 7)]> ∅) = 1%Z).
  { unfold liked_of. rewrite field2_insert_num by lra.
    cbn [parseInt]. rewrite decide_False.
    - cbn [toString_num sciHost]. rewrite decide_True by reflexivity. reflexivity.
    - intros [H0|[Hlo _]]; [lra|]. rewrite Rabs_right in Hlo by lra. lra. }
  assert (Hhuge : @liked_of sciHost (<["likedFlag" := VNum (10 ^ 21)]> ∅) = 1%Z).
  { unfold liked_of. rewrite field2_insert_num by lra.
    cbn [parseInt]. rewrite decide_False.
    - cbn [toString_num sciHost].
      rewrite decide_False by lra. rewrite decide_True by reflexivity. reflexivity.
    - intros [H0|[_ Hhi]]; [lra|]. rewrite Rabs_right in Hhi by lra. lra. }
  split; [|split; [|split; [|split]]]; (split; [lra|]).
  - rewrite !entryWeight_formula. eval_fields. unfold weightFormula. simpl. lra.
  - rewrite !entryWeight_formula. eval_fields. unfold weightFormula. simpl. lra.
  - rewrite !entryWeight_formula, Hhalf, Htiny.
    destruct (Hrest 0.5) as (-> & -> & -> & ->).
    destruct (Hrest (/ 10 ^ 7)) as (-> & -> & -> & ->).
    unfold weightFormula. simpl. lra.
  - rewrite !entryWeight_formula, Htwo, Hhuge.
    destruct (Hrest 2) as (-> & -> & -> & ->).
    destruct (Hrest (10 ^ 21)) as (-> & -> & -> & ->).
    unfold weightFormula. simpl. lra.
  - rewrite !entryWeight_formula. eval_fields. unfold weightFormula. simpl. lra.
Qed.

(** C4, amended.  On a record whose other signals are non-negative, raising
    a completionRate or rating field from one non-zero value to a larger
    non-zero value never lowers the weight.  Raising likedFlag between
    numbers that are 0 or of a magnitude from 0.000001 up to, not
    including, 10^21 (in particular from 0 to 1) never lowers it, on a
    record without the field Liked_Flag when one of the two numbers is 0.
    Setting skipFlag on an unskipped record with non-negative signals
    multiplies its weight by 0.3, which strictly lowers it. *)
Theorem C4_weight_monotone `{Host} (e : object) (x y : R) :
  x <= y ->
  (x <> 0 -> y <> 0 -> 0 <= rating_of e ->
   Music.entryWeight (<["completionRate" := VNum x]> e)
   <= Music.entryWeight (<["completionRate" := VNum y]> e))
  /\ (x <> 0 -> y <> 0 -> 0 <= completionRate_of e ->
      Music.entryWeight (<["rating" := VNum x]> e)
      <= Music.entryWeight (<["rating" := VNum y]> e))
  /\ (plain_decimal x -> plain_decimal y ->
      (x = 0 \/ y = 0 -> e !! "Liked_Flag" = None) ->
      Music.entryWeight (<["likedFlag" := VNum x]> e)
      <= Music.entryWeight (<["likedFlag" := VNum y]> e))
  /\ (skipped_of e = 0%Z -> nonnegative e ->
      Music.entryWeight (<["skipFlag" := VNum 1]> e) = 0.3 * Music.entryWeight e
      /\ Music.entryWeight (<["skipFlag" := VNum 1]> e) < Music.entryWeight e).
Proof.
  intros Hxy. rewrite !entryWeight_formula. split; [|split; [|split]].
  - intros Hx0 Hy0 Hr.
    destruct (signals_completionRate e x Hx0) as (-> & -> & -> & -> & ->).
    destruct (signals_completionRate e y Hy0) as (-> & -> & -> & -> & ->).
    unfold weightFormula. destruct (_ =? 0)%Z; nra.
  - intros Hx0 Hy0 Hc.
    destruct (signals_rating e x Hx0) as (-> & -> & -> & -> & ->).
    destruct (signals_rating e y Hy0) as (-> & -> & -> & -> & ->).
    unfold weightFormula. destruct (_ =? 0)%Z; nra.
  - intros Hpx Hpy Hzero.
    assert (Hliked : forall z, plain_decimal z ->
              (z = 0 -> e !! "Liked_Flag" = None) ->
              let e' := <["likedFlag" := VNum z]> e in
              completionRate_of e' = completionRate_of e /\ rating_of e' = rating_of e
              /\ liked_of e' = Ztrunc z /\ skipped_of e' = skipped_of e
              /\ repeated_of e' = repeated_of e).
    { intros z Hpz Hz. destruct (Req_EM_T z 0) as [->|Hne].
      - change 0 with (IZR 0). rewrite Ztrunc_IZR.
        now apply signals_likedFlag_zero, Hz.
      - now apply signals_likedFlag. }
    destruct (Hliked x Hpx (fun Hx => Hzero (or_introl Hx))) as (-> & -> & -> & -> & ->).
    destruct (Hliked y Hpy (fun Hy => Hzero (or_intror Hy))) as (-> & -> & -> & -> & ->).
    assert (Htr : IZR (Ztrunc x) <= IZR (Ztrunc y)) by now apply IZR_le, Ztrunc_le.
    unfold weightFormula. destruct (_ =? 0)%Z; nra.
  - intros Hs Hn. destruct Hn as (Hc & Hr & Hl & Hp). apply IZR_le in Hl, Hp.
    destruct (signals_skipFlag e 1 R1_neq_R0 plain_decimal_one) as (-> & -> & -> & -> & ->).
    rewrite Ztrunc_IZR, Hs. unfold weightFormula. simpl. split; [lra | nra].
Qed.

Lemma C4_weight_monotone_witness :
  0.5 <= 1
  /\ @Music.entryWeight plainHost (<["completionRate" := VNum 0.5]> recordAB)
     <= @Music.entryWeight plainHost (<["completionRate" := VNum 1]> recordAB)
  /\ @Music.entryWeight plainHost (<["rating" := VNum 0.5]> recordAB)
     <= @Music.entryWeight plainHost (<["rating" := VNum 1]> recordAB)
  /\ @Music.entryWeight plainHost (<["likedFlag" := VNum 0.5]> recordAB)
     <= @Music.entryWeight plainHost (<["likedFlag" := VNum 1]> recordAB)
  /\ @Music.entryWeight plainHost (<["likedFlag" := VNum 0]> recordAB)
     <= @Music.entryWeight plainHost (<["likedFlag" := VNum 1]> recordAB)
  /\ @Music.entryWeight plainHost (<["skipFlag" := VNum 1]> recordAB)
     = 0.3 * @Music.entryWeight plainHost recordAB
  /\ @Music.entryWeight plainHost (<["skipFlag" := VNum 1]> recordAB)
     < @Music.entryWeight plainHost recordAB.
Proof.
  assert (Hxy : 0.5 <= 1) by lra.
  assert (Hx0 : 0.5 <> 0) by lra.
  assert (Hy0 : 1 <> 0) by lra.
  assert (Hpx : plain_decimal 0.5) by (right; rewrite Rabs_right by lra; lra).
  assert (Hpy : plain_decimal 1) by (right; rewrite Rabs_right by lra; lra).
  assert (Hp0 : plain_decimal 0) by (left; reflexivity).
  assert (Hnone : recordAB !! "Liked_Flag" = None) by reflexivity.
  assert (Hc : 0 <= @completionRate_of plainHost recordAB)
    by (unfold recordAB; eval_fields; lra).
  assert (Hr : 0 <= @rating_of plainHost recordAB)
    by (unfold recordAB; eval_fields; lra).
  assert (Hs : @skipped_of plainHost recordAB = 0%Z)
    by (unfold recordAB; eval_fields; reflexivity).
  assert (Hn : @nonnegative plainHost recordAB).
  { split; [exact Hc|]. split; [exact Hr|].
    split; unfold recordAB; eval_fields; lia. }
  destruct (@C4_weight_monotone plainHost recordAB 0.5 1 Hxy) as (H1 & H2 & H3 & H4).
  destruct (@C4_weight_monotone plainHost recordAB 0 1 ltac:(lra)) as (_ & _ & H3' & _).
  destruct (H4 Hs Hn) as [H5 H6].
  split; [exact Hxy|]. split; [exact (H1 Hx0 Hy0 Hr)|]. split; [exact (H2 Hx0 Hy0 Hc)|].
  split; [apply (H3 Hpx Hpy); intros [?|?]; lra|].
  split; [exact (H3' Hp0 Hpy (fun _ => Hnone))|].
  split; [exact H5 | exact H6].
Defined.

End WeightClaims.

(** *** Index loops over a vector *)

Section LoopFacts.

(** [for (i = a; i < a + n; i++) vec[i] = f(i, vec[i])]. *)
Lemma loop_alter_lookup {A} (f : nat -> A -> A) (n : nat) : forall (a : nat) (vec : list A) (j : nat),
  foldl (fun vec i => alter (f i) i vec) vec (seq a n) !! j
  = (fun x => if decide (a <= j < a + n)%nat then f j x else x) <$> vec !! j.
Proof.
  induction n as [|n IH]; intros a vec j; cbn [seq foldl].
  - destruct (vec !! j) as [x|]; cbn; [|reflexivity].
    case_decide; [lia | reflexivity].
  - rewrite IH. destruct (decide (a = j)) as [->|Hne].
    + rewrite list_lookup_alter_eq. destruct (vec !! j) as [x|]; cbn; [|reflexivity].
      repeat case_decide; try lia; reflexivity.
    + rewrite list_lookup_alter_ne by exact Hne.
      destruct (vec !! j) as [x|]; cbn; [|reflexivity].
      repeat case_decide; try lia; reflexivity.
Qed.

Lemma loop_alter_length {A} (f : nat -> A -> A) (n : nat) : forall (a : nat) (vec : list A),
  length (foldl (fun vec i => alter (f i) i vec) vec (seq a n)) = length vec.
Proof.
  induction n as [|n IH]; intros a vec; cbn [seq foldl]; [reflexivity|].
  now rewrite IH, length_alter.
Qed.

Lemma loop_alter_total (f : nat -> R -> R) (n a : nat) (vec : list R) (j : nat) :
  (j < length vec)%nat ->
  foldl (fun vec i => alter (f i) i vec) vec (seq a n) !!! j
  = if decide (a <= j < a + n)%nat then f j (vec !!! j) else vec !!! j.
Proof.
  intros Hj. rewrite !list_lookup_total_alt, loop_alter_lookup.
  destruct (lookup_lt_is_Some_2 vec j Hj) as [x ->]. cbn.
  now destruct (decide _).
Qed.

Lemma music_addScaled_length agg emb w :
  length (Music.addScaled agg emb w) = length agg.
Proof. apply loop_alter_length. Qed.

Lemma music_addScaled_lookup agg emb w j :
  length agg = Music.embeddingDim -> (j < Music.embeddingDim)%nat ->
  Music.addScaled agg emb w !!! j = agg !!! j + emb !!! j * w.
Proof.
  intros Hlen Hj. unfold Music.addScaled.
  rewrite loop_alter_total by lia.
  destruct (decide _) as [_|Hd]; [reflexivity | lia].
Qed.

Lemma movie_addScaled_length vec emb w :
  length (Movie.addScaled vec emb w) = length vec.
Proof. apply loop_alter_length. Qed.

Lemma movie_addScaled_lookup vec emb w j :
  length vec = Movie.embeddingDim -> (j < Movie.embeddingDim)%nat ->
  Movie.addScaled vec emb w !!! j = vec !!! j + emb !!! j * w.
Proof.
  intros Hlen Hj. unfold Movie.addScaled.
  rewrite loop_alter_total by lia.
  destruct (decide _) as [_|Hd]; [reflexivity | lia].
Qed.

End LoopFacts.

(** *** Normalization *)

Section NormFacts.
Import Js Vec.

Lemma sum_squares_dot (l : list R) : forall s0,
  foldl (fun s v => s + v * v) s0 l = s0 + dot l l.
Proof.
  induction l as [|x l IH]; intros s0; simpl; [lra|].
  rewrite IH. lra.
Qed.

Lemma dot_map_div (a : list R) (m : R) :
  dot (map (fun x => x / m) a) (map (fun x => x / m) a) = dot a a / (m * m).
Proof.
  induction a as [|x a IH]; simpl.
  - unfold Rdiv. now rewrite Rmult_0_l.
  - rewrite IH. destruct (Req_EM_T m 0) as [->|Hm].
    + unfold Rdiv. rewrite !Rmult_0_l, Rinv_0. lra.
    + field. exact Hm.
Qed.

Lemma norm_map_div (a : list R) (m : R) :
  0 < m -> norm (map (fun x => x / m) a) = norm a / m.
Proof.
  intros Hm. unfold norm. rewrite dot_map_div.
  apply sqrt_lem_1.
  - apply Rmult_le_pos; [apply dot_self_nonneg|].
    apply Rlt_le, Rinv_0_lt_compat. nra.
  - apply Rmult_le_pos; [apply sqrt_pos|]. now apply Rlt_le, Rinv_0_lt_compat.
  - pose proof (sqrt_sqrt (dot a a) (dot_self_nonneg a)) as Hs.
    field_simplify_eq; [|lra]. rewrite <- Hs at 2. ring.
Qed.

(** Dividing a non-zero vector by its own norm gives a unit vector. *)
Lemma normalized_unit (a : list R) :
  ~ zero a -> norm (map (fun x => x / guarded (norm a)) a) = 1.
Proof.
  intros Hnz.
  assert (Hn : norm a <> 0) by (intros Hn; apply Hnz; now apply norm_zero).
  pose proof (norm_nonneg a) as Hpos.
  unfold guarded. destruct (decide (norm a = 0)) as [Hz|_]; [contradiction|].
  rewrite norm_map_div by lra. now apply Rdiv_diag.
Qed.

Lemma normalized_zero (a : list R) :
  zero a -> map (fun x => x / guarded (norm a)) a = a.
Proof.
  intros Hz. pose proof Hz as Hn. apply norm_zero in Hn. rewrite Hn. clear Hn.
  unfold guarded. destruct (decide (0 = 0)) as [_|Hd]; [|contradiction].
  unfold zero in Hz. induction Hz as [|x a Hx _ IH]; simpl; [reflexivity|].
  rewrite IH, Hx. f_equal. lra.
Qed.

Lemma zero_replicate n : zero (replicate n 0).
Proof. unfold zero. apply Forall_replicate. reflexivity. Qed.

Lemma not_zero_lookup (a : list R) j : a !!! j <> 0 -> ~ zero a.
Proof.
  intros Hj Hz. apply Hj. unfold zero in Hz.
  rewrite list_lookup_total_alt. destruct (a !! j) as [x|] eqn:E; [|reflexivity].
  cbn. rewrite Forall_forall in Hz. apply Hz.
  now apply list_elem_of_lookup_2 in E.
Qed.

Lemma movie_normalizeVector_eq (vec : list R) :
  Movie.normalizeVector vec = map (fun v => v / guarded (norm vec)) vec.
Proof.
  unfold Movie.normalizeVector. now rewrite num_or_guarded, sum_squares_dot, Rplus_0_l.
Qed.

End NormFacts.

(** *** Music: song embeddings and the trained table *)

Section SongFacts.
Context `{Js.Host}.
Import Js Vec.

Lemma charCode_nonneg c : (0 <= charCode c)%Z.
Proof. unfold charCode. lia. Qed.

Lemma codes_nonneg s : Forall (fun c => (0 <= c)%Z) (codes s).
Proof.
  unfold codes. apply Forall_fmap, Forall_forall. intros c _. apply charCode_nonneg.
Qed.

Lemma contribution_nonneg target cs : forall i weight j,
  Forall (fun c => (0 <= c)%Z) cs -> 0 <= weight ->
  0 <= contribution target i cs weight j.
Proof.
  induction cs as [|c r IH]; intros i weight j Hcs Hw; simpl; [lra|].
  inversion Hcs as [|? ? Hc Hr]; subst.
  specialize (IH (S i) weight j Hr Hw). apply IZR_le in Hc.
  case_decide; [|lra].
  assert (0 <= IZR c / 255 * weight); [|lra].
  apply Rmult_le_pos; [|exact Hw]. apply Rmult_le_pos; [exact Hc | lra].
Qed.

(** Hashing with a non-negative weight never lowers a coordinate. *)
Lemma music_hash_grows str vec offset weight j :
  0 <= weight -> (j < length vec)%nat ->
  vec !!! j <= Music.hashToVector str vec offset weight !!! j.
Proof.
  intros Hw Hj. unfold Music.hashToVector.
  rewrite music_hash_lookup by exact Hj.
  pose proof (contribution_nonneg (fun k => ((offset + k) mod length vec)%nat)
                (codes (toLowerCase (text (or str (VStr ""))))) 0 weight j
                (codes_nonneg _) Hw).
  lra.
Qed.

Lemma music_hashToVector_length str vec offset weight :
  length (Music.hashToVector str vec offset weight) = length vec.
Proof. apply music_hash_length. Qed.

Lemma createSongEmbedding_length song :
  length (Music.createSongEmbedding song) = Music.embeddingDim.
Proof.
  unfold Music.createSongEmbedding.
  repeat first [rewrite music_hashToVector_length | rewrite length_insert].
  apply length_replicate.
Qed.

Lemma num_or_nonzero_default n d : d <> 0 -> num_or n d <> 0.
Proof.
  intros Hd. unfold num_or. destruct n as [x|]; [|exact Hd].
  now destruct (Req_EM_T x 0).
Qed.

Lemma rating_of_nonzero song : rating_of song <> 0.
Proof.
  unfold rating_of.
  pose proof (num_or_nonzero_default
                (parseFloat (Music.field2 song "rating" "Rating")) 3) as Hn.
  intros Hz. apply Hn; lra.
Qed.

(** Coordinate 115 of a song embedding is at least the rescaled rating. *)
Lemma createSongEmbedding_rating song :
  rating_of song <= Music.createSongEmbedding song !!! 115%nat.
Proof.
  unfold Music.createSongEmbedding.
  eapply Rle_trans; [|apply music_hash_grows; [lra|]].
  2:{ repeat first [rewrite music_hashToVector_length | rewrite length_insert].
      rewrite length_replicate. unfold Music.embeddingDim. lia. }
  eapply Rle_trans; [|apply music_hash_grows; [lra|]].
  2:{ repeat first [rewrite music_hashToVector_length | rewrite length_insert].
      rewrite length_replicate. unfold Music.embeddingDim. lia. }
  rewrite !(list_lookup_total_insert_ne _ _ 115) by lia.
  rewrite list_lookup_total_insert_eq.
  - unfold rating_of. lra.
  - repeat first [rewrite music_hashToVector_length | rewrite length_insert].
    rewrite length_replicate. unfold Music.embeddingDim. lia.
Qed.

Lemma createSongEmbedding_not_zero song :
  0 <= rating_of song -> ~ zero (Music.createSongEmbedding song).
Proof.
  intros Hr. apply (not_zero_lookup _ 115).
  pose proof (createSongEmbedding_rating song). pose proof (rating_of_nonzero song). lra.
Qed.

(** Every entry of the trained table is the embedding of a catalog song. *)
Lemma trained_table_values (songs : list object) :
  forall (tbl0 : gmap string (list R)) id emb,
  foldl (fun tbl song => <[Music.makeSongId song := Music.createSongEmbedding song]> tbl)
        tbl0 songs !! id = Some emb ->
  tbl0 !! id = Some emb
  \/ exists song, song ∈ songs /\ id = Music.makeSongId song
                  /\ emb = Music.createSongEmbedding song.
Proof.
  induction songs as [|song songs IH]; intros tbl0 id emb Hlook; simpl in Hlook.
  - now left.
  - apply IH in Hlook as [Hlook | (song' & Hin & Hid & Hemb)].
    + destruct (decide (Music.makeSongId song = id)) as [<-|Hne].
      * rewrite lookup_insert_eq in Hlook. injection Hlook as <-.
        right. exists song. split; [apply list_elem_of_here | now split].
      * rewrite lookup_insert_ne in Hlook by exact Hne. now left.
    + right. exists song'. split; [now apply list_elem_of_further | now split].
Qed.

Lemma train_lookup (s : Music.system) id emb :
  Music.songEmbeddings (Music.trainSongEmbeddings s) !! id = Some emb ->
  exists song, song ∈ Music.songs s /\ id = Music.makeSongId song
               /\ emb = Music.createSongEmbedding song.
Proof.
  intros Hlook. cbn in Hlook.
  apply trained_table_values in Hlook as [Hlook | Hex]; [|exact Hex].
  now rewrite lookup_empty in Hlook.
Qed.

End SongFacts.

(** *** Music: the user embedding *)

Section UserEmbeddingFacts.
Context `{Js.Host}.
Import Js Vec.

Lemma music_createUserEmbedding_eq (s : Music.system) history :
  Music.createUserEmbedding s history
  = if decide ((Music.aggregate s history).2 = 0) then replicate Music.embeddingDim 0
    else map (fun x => x / guarded (norm (Music.aggregate s history).1))
             (Music.aggregate s history).1.
Proof.
  unfold Music.createUserEmbedding.
  destruct (Music.aggregate s history) as [agg totalWeight]. cbn [fst snd].
  destruct (Req_EM_T totalWeight 0), (decide (totalWeight = 0)); try contradiction;
    [reflexivity|].
  now rewrite num_or_guarded, sum_squares_dot, Rplus_0_l.
Qed.

Lemma accumulate_unknown tbl st entry :
  tbl !! Music.makeSongId entry = None -> Music.accumulate tbl st entry = st.
Proof. intros Hn. unfold Music.accumulate. now rewrite Hn. Qed.

Lemma aggregate_unknown (s : Music.system) history :
  (forall e, e ∈ history -> Music.songEmbeddings s !! Music.makeSongId e = None) ->
  Music.aggregate s history = (replicate Music.embeddingDim 0, 0).
Proof.
  unfold Music.aggregate. generalize (replicate Music.embeddingDim 0, 0).
  induction history as [|e history IH]; intros st Hall; [reflexivity|].
  cbn [foldl]. rewrite accumulate_unknown by (apply Hall, list_elem_of_here).
  apply IH. intros e' He'. now apply Hall, list_elem_of_further.
Qed.

(** What one pass of the aggregation loop preserves, when every embedding
    of the table has a positive coordinate 115 and every record has a
    positive weight. *)
Lemma aggregate_grows (tbl : gmap string (list R)) (history : list object) :
  (forall id emb, tbl !! id = Some emb -> 0 < emb !!! 115%nat) ->
  (forall e, e ∈ history -> 0 < Music.entryWeight e) ->
  forall agg tw,
    length agg = Music.embeddingDim ->
    let st := foldl (Music.accumulate tbl) (agg, tw) history in
    length st.1 = Music.embeddingDim
    /\ tw <= st.2 /\ agg !!! 115%nat <= st.1 !!! 115%nat
    /\ ((exists e, e ∈ history /\ is_Some (tbl !! Music.makeSongId e)) ->
        tw < st.2 /\ agg !!! 115%nat < st.1 !!! 115%nat).
Proof.
  intros Htbl. induction history as [|e history IH]; intros Hw agg tw Hlen; cbn [foldl].
  - cbn. split; [exact Hlen|]. split; [lra|]. split; [lra|].
    intros (e & He & _). now apply elem_of_nil in He.
  - assert (Hw' : forall e', e' ∈ history -> 0 < Music.entryWeight e')
      by (intros e' He'; now apply Hw, list_elem_of_further).
    pose proof (Hw e (list_elem_of_here _ _)) as Hwe.
    destruct (tbl !! Music.makeSongId e) as [emb|] eqn:E.
    + replace (Music.accumulate tbl (agg, tw) e)
        with (Music.addScaled agg emb (Music.entryWeight e), tw + Music.entryWeight e)
        by (unfold Music.accumulate; now rewrite E).
      pose proof (Htbl _ _ E) as Hemb.
      assert (Hlen' : length (Music.addScaled agg emb (Music.entryWeight e))
                      = Music.embeddingDim) by now rewrite music_addScaled_length.
      destruct (IH Hw' _ (tw + Music.entryWeight e) Hlen') as (H1 & H2 & H3 & _).
      rewrite music_addScaled_lookup in H3 by (try exact Hlen; unfold Music.embeddingDim; lia).
      assert (0 < emb !!! 115%nat * Music.entryWeight e) by now apply Rmult_lt_0_compat.
      split; [exact H1|]. split; [lra|]. split; [lra|]. intros _. lra.
    + rewrite accumulate_unknown by exact E.
      destruct (IH Hw' agg tw Hlen) as (H1 & H2 & H3 & H4).
      split; [exact H1|]. split; [exact H2|]. split; [exact H3|].
      intros (e' & He' & Hsome). apply H4. exists e'. split; [|exact Hsome].
      apply elem_of_cons in He' as [->|He']; [|exact He'].
      rewrite E in Hsome. now destruct Hsome.
Qed.

End UserEmbeddingFacts.

Section MusicScenario.
Context `{Js.Host}.
Import Js Vec.

Lemma makeSongId_songAB : Music.makeSongId songAB = "a::b".
Proof. unfold Music.makeSongId, Music.field2, get, songAB. simplify_map_eq. reflexivity. Qed.

Lemma makeSongId_recordAB : Music.makeSongId recordAB = "a::b".
Proof. unfold Music.makeSongId, Music.field2, get, recordAB. simplify_map_eq. reflexivity. Qed.

Lemma makeSongId_recordZ : Music.makeSongId recordZ = "z::".
Proof. unfold Music.makeSongId, Music.field2, get, recordZ. simplify_map_eq. reflexivity. Qed.

Lemma trained_catalogAB :
  Music.songEmbeddings (Music.trainSongEmbeddings catalogAB)
  = <["a::b" := Music.createSongEmbedding songAB]> ∅.
Proof. cbn. now rewrite makeSongId_songAB. Qed.

Ltac eval_record :=
  unfold completionRate_of, rating_of, liked_of, skipped_of, repeated_of,
    Music.field2, get;
  simplify_map_eq; unfold or;
  repeat first [rewrite truthy_zero | rewrite truthy_num by lra];
  repeat rewrite parseInt_plain
    by first [left; lra | right; rewrite Rabs_right by lra; lra];
  cbn [parseFloat parseInt truthy];
  repeat rewrite num_or_nonzero by lra;
  rewrite ?Ztrunc_IZR;
  cbn [num_or int_or Z.eqb Z.min Z.compare Pos.compare Pos.compare_cont].

Lemma rating_of_songAB : rating_of songAB = 3 / 5.
Proof. unfold songAB. eval_record. reflexivity. Qed.

Lemma recordAB_signals :
  completionRate_of recordAB = 1 /\ rating_of recordAB = 5 / 5
  /\ liked_of recordAB = 1%Z /\ skipped_of recordAB = 0%Z /\ repeated_of recordAB = 0%Z.
Proof. unfold recordAB. repeat split; eval_record; reflexivity. Qed.

Lemma recordAB_nonnegative : nonnegative recordAB.
Proof.
  destruct recordAB_signals as (Hc & Hr & Hl & _ & Hp).
  unfold nonnegative. rewrite Hc, Hr, Hl, Hp. repeat split; try lra; lia.
Qed.

Lemma recordAB_weight : Music.entryWeight recordAB = 2.6.
Proof.
  rewrite entryWeight_formula.
  destruct recordAB_signals as (-> & -> & -> & -> & ->).
  unfold weightFormula. simpl. lra.
Qed.

Lemma guarded_positive d : 0 <= d -> 0 < guarded d.
Proof. intros Hd. unfold guarded. case_decide; lra. Qed.

Lemma music_addScaled_zeros emb w :
  length emb = Music.embeddingDim ->
  Music.addScaled (replicate Music.embeddingDim 0) emb w = map (fun e => e * w) emb.
Proof.
  intros Hlen. apply list_eq. intros i. unfold Music.addScaled.
  rewrite loop_alter_lookup, list_lookup_fmap, list_lookup_total_alt.
  destruct (decide (i < Music.embeddingDim)%nat) as [Hi|Hi].
  - rewrite lookup_replicate_2 by exact Hi.
    destruct (lookup_lt_is_Some_2 emb i) as [e ->]; [lia|]. cbn.
    case_decide; [|lia]. f_equal. lra.
  - rewrite (proj1 (lookup_replicate_None _ _ _)) by lia.
    rewrite (lookup_ge_None_2 emb) by lia. reflexivity.
Qed.

Lemma dot_map_scale_l (v u : list R) c : dot (map (fun e => e * c) v) u = c * dot v u.
Proof.
  revert u. induction v as [|x v IH]; intros [|y u]; simpl; try lra.
  rewrite IH. lra.
Qed.

(** A positive multiple of a non-zero vector has cosine 1 with it. *)
Lemma cosine_scaled (v : list R) c : 0 < c -> ~ zero v -> cosine (map (fun e => e * c) v) v = 1.
Proof.
  intros Hc Hnz. unfold cosine.
  assert (Hd : 0 < dot v v).
  { pose proof (dot_self_nonneg v). destruct (Req_EM_T (dot v v) 0) as [Hz|Hz]; [|lra].
    exfalso. now apply Hnz, dot_self_zero. }
  assert (Hn : norm (map (fun e => e * c) v) = c * norm v).
  { unfold norm. rewrite dot_map_scale_l, dot_comm, dot_map_scale_l.
    apply sqrt_lem_1.
    - nra.
    - apply Rmult_le_pos; [lra | apply sqrt_pos].
    - pose proof (sqrt_sqrt (dot v v) (Rlt_le _ _ Hd)). nra. }
  rewrite Hn, dot_map_scale_l, Rmult_assoc, norm_square.
  unfold guarded. case_decide as Hg; [nra|].
  now apply Rdiv_diag.
Qed.

Lemma zero_map_scale (v : list R) c : c <> 0 -> zero (map (fun e => e * c) v) -> zero v.
Proof.
  intros Hc Hz. unfold zero in *. rewrite Forall_fmap in Hz.
  eapply Forall_impl; [exact Hz|]. cbn. intros x Hx. nra.
Qed.

Lemma aggregateAB :
  Music.aggregate (Music.trainSongEmbeddings catalogAB) [recordAB]
  = (map (fun e => e * 2.6) (Music.createSongEmbedding songAB), 0 + 2.6).
Proof.
  unfold Music.aggregate. cbn [foldl]. unfold Music.accumulate.
  rewrite trained_catalogAB, makeSongId_recordAB, lookup_insert_eq. cbn [fst snd].
  rewrite recordAB_weight, music_addScaled_zeros by apply createSongEmbedding_length.
  reflexivity.
Qed.

Lemma userAB_embedding :
  exists c, 0 < c
    /\ Music.createUserEmbedding (Music.trainSongEmbeddings catalogAB) [recordAB]
       = map (fun e => e * c) (Music.createSongEmbedding songAB).
Proof.
  rewrite music_createUserEmbedding_eq, aggregateAB. cbn [fst snd].
  case_decide; [lra|].
  set (g := guarded (norm (map (fun e => e * 2.6) (Music.createSongEmbedding songAB)))).
  assert (Hg : 0 < g) by apply guarded_positive, norm_nonneg.
  exists (2.6 / g). split.
  - apply Rdiv_lt_0_compat; lra.
  - rewrite map_map. apply map_ext. intros e. field. lra.
Qed.

(** C1.  In the music scenario (one song "A" by "B", genre "Pop"; one
    record for it with completionRate 1, rating 5, likedFlag 1, skipFlag 0,
    repeatCount 0) the record's weight is 2.6, the user embedding has norm 1
    and cosine similarity 1 with the song's embedding, and the song is the
    first (and only) recommendation, with score 1. *)
Theorem C1_music_scenario :
  Music.entryWeight recordAB = (0.5 + 1) * (0.6 + 1 * 0.8) + 1 * 0.5 + 0
  /\ Music.entryWeight recordAB = 2.6
  /\ norm (Music.createUserEmbedding (Music.trainSongEmbeddings catalogAB) [recordAB]) = 1
  /\ Music.cosineSimilarity
       (Music.createUserEmbedding (Music.trainSongEmbeddings catalogAB) [recordAB])
       (Music.createSongEmbedding songAB)
     = Normal (Some 1)
  /\ exists r,
       Music.recommendSongs catalogAB [recordAB] 10
       = (Normal [r], Music.trainSongEmbeddings catalogAB)
       /\ Music.id r = "a::b" /\ Music.title r = VStr "A"
       /\ Music.similarity_score r = Some 1.
Proof.
  assert (Hnz : ~ zero (Music.createSongEmbedding songAB)).
  { apply createSongEmbedding_not_zero. rewrite rating_of_songAB. lra. }
  destruct userAB_embedding as (c & Hc & Huser).
  assert (Hcos : Music.cosineSimilarity
                   (Music.createUserEmbedding (Music.trainSongEmbeddings catalogAB) [recordAB])
                   (Music.createSongEmbedding songAB) = Normal (Some 1)).
  { rewrite Huser, music_cosine_eq by now rewrite length_map.
    now rewrite cosine_scaled. }
  split; [rewrite recordAB_weight; lra|]. split; [apply recordAB_weight|].
  split; [|split; [exact Hcos|]].
  - rewrite music_createUserEmbedding_eq, aggregateAB. cbn [fst snd].
    case_decide; [lra|]. apply normalized_unit.
    intros Hz. apply Hnz. eapply zero_map_scale; [|exact Hz]. lra.
  - assert (Hscore : exists r,
              Music.scoreSong (Music.trainSongEmbeddings catalogAB)
                (Music.createUserEmbedding (Music.trainSongEmbeddings catalogAB) [recordAB])
                songAB = Normal r
              /\ Music.id r = "a::b" /\ Music.title r = VStr "A"
              /\ Music.similarity_score r = Some 1).
    { unfold Music.scoreSong. eexists. split.
      - rewrite makeSongId_songAB. rewrite trained_catalogAB at 1.
        rewrite lookup_insert_eq, Hcos. cbn [bind]. reflexivity.
      - cbn. split; [reflexivity|]. split; [|reflexivity].
        unfold Music.field2, get, songAB. simplify_map_eq. reflexivity. }
    destruct Hscore as (r & Hr & Hid & Htitle & Hsim).
    exists r. split; [|now repeat split].
    unfold Music.recommendSongs. cbn [Music.songs catalogAB].
    rewrite decide_True by reflexivity.
    change (Music.songs (Music.trainSongEmbeddings catalogAB)) with [songAB].
    cbn [mapM]. rewrite Hr. reflexivity.
Qed.

End MusicScenario.

Section UserNormClaims.
Import Js Vec.

(** C3, as the specification states it, fails: a non-empty history whose
    only record names a song that is not in the catalog gives the all-zero
    vector, whose norm is 0. *)
Lemma C3_norm_counterexample :
  [recordZ] <> []
  /\ @Music.createUserEmbedding plainHost (@Music.trainSongEmbeddings plainHost catalogAB)
       [recordZ]
     = replicate 128 0
  /\ norm (@Music.createUserEmbedding plainHost
             (@Music.trainSongEmbeddings plainHost catalogAB) [recordZ]) <> 1.
Proof.
  assert (Heq : @Music.createUserEmbedding plainHost
                  (@Music.trainSongEmbeddings plainHost catalogAB) [recordZ]
                = replicate 128 0).
  { rewrite music_createUserEmbedding_eq, aggregate_unknown.
    - cbn [fst snd]. now rewrite decide_True.
    - intros e He. apply list_elem_of_singleton in He as ->.
      rewrite trained_catalogAB, makeSongId_recordZ. now rewrite lookup_insert_ne. }
  split; [discriminate|]. split; [exact Heq|].
  rewrite Heq. rewrite (proj2 (norm_zero _) (zero_replicate 128)). lra.
Qed.

(** C3, amended.  The user embedding has norm 1 whenever the accumulated
    total weight and the accumulated vector are both non-zero; this is the
    case when the table was trained from a catalog whose ratings are
    non-negative, every record has non-negative signals and at least one
    record names a catalogued song.  When no record names a catalogued song,
    in particular for the empty history, the result is the all-zero vector of
    128 coordinates. *)
Theorem C3_user_embedding_norm `{Host} (s : Music.system) (history : list object) :
  ((Music.aggregate s history).2 <> 0 -> ~ zero (Music.aggregate s history).1 ->
   norm (Music.createUserEmbedding s history) = 1)
  /\ (Music.songEmbeddings s = Music.songEmbeddings (Music.trainSongEmbeddings s) ->
      (forall song, song ∈ Music.songs s -> 0 <= rating_of song) ->
      (forall e, e ∈ history -> nonnegative e) ->
      (exists e, e ∈ history /\ is_Some (Music.songEmbeddings s !! Music.makeSongId e)) ->
      norm (Music.createUserEmbedding s history) = 1)
  /\ ((forall e, e ∈ history -> Music.songEmbeddings s !! Music.makeSongId e = None) ->
      Music.createUserEmbedding s history = replicate 128 0)
  /\ Music.createUserEmbedding s [] = replicate 128 0.
Proof.
  assert (Hgeneral : (Music.aggregate s history).2 <> 0 ->
                     ~ zero (Music.aggregate s history).1 ->
                     norm (Music.createUserEmbedding s history) = 1).
  { intros Htw Hnz. rewrite music_createUserEmbedding_eq.
    rewrite decide_False by exact Htw. now apply normalized_unit. }
  split; [exact Hgeneral|]. split; [|split].
  - intros Htrained Hsongs Hhist Hknown.
    assert (Htbl : forall id emb, Music.songEmbeddings s !! id = Some emb ->
                                  0 < emb !!! 115%nat).
    { intros id emb Hlook. rewrite Htrained in Hlook.
      apply train_lookup in Hlook as (song & Hin & _ & ->).
      pose proof (createSongEmbedding_rating song).
      pose proof (rating_of_nonzero song). pose proof (Hsongs song Hin). lra. }
    assert (Hw : forall e, e ∈ history -> 0 < Music.entryWeight e)
      by (intros e He; now apply entryWeight_positive, Hhist).
    destruct (aggregate_grows (Music.songEmbeddings s) history Htbl Hw
                (replicate Music.embeddingDim 0) 0 (length_replicate _ _))
      as (_ & _ & _ & Hstrict).
    destruct (Hstrict Hknown) as [Htw Hagg].
    rewrite lookup_total_replicate_2 in Hagg by (unfold Music.embeddingDim; lia).
    apply Hgeneral; [unfold Music.aggregate; lra|].
    apply (not_zero_lookup _ 115). unfold Music.aggregate. lra.
  - intros Hunknown. rewrite music_createUserEmbedding_eq, aggregate_unknown by exact Hunknown.
    cbn [fst snd]. now rewrite decide_True.
  - rewrite music_createUserEmbedding_eq. cbn. now rewrite decide_True.
Qed.

Lemma C3_user_embedding_norm_witness :
  (exists e, e ∈ [recordAB]
             /\ is_Some (Music.songEmbeddings (@Music.trainSongEmbeddings plainHost catalogAB)
                         !! @Music.makeSongId plainHost e))
  /\ norm (@Music.createUserEmbedding plainHost
             (@Music.trainSongEmbeddings plainHost catalogAB) [recordAB]) = 1.
Proof.
  assert (Hknown : exists e, e ∈ [recordAB]
             /\ is_Some (Music.songEmbeddings (@Music.trainSongEmbeddings plainHost catalogAB)
                         !! @Music.makeSongId plainHost e)).
  { exists recordAB. split; [apply list_elem_of_here|].
    rewrite trained_catalogAB, makeSongId_recordAB, lookup_insert_eq. now eexists. }
  split; [exact Hknown|].
  destruct (@C3_user_embedding_norm plainHost
              (@Music.trainSongEmbeddings plainHost catalogAB) [recordAB])
    as (_ & Hnorm & _).
  apply Hnorm.
  - reflexivity.
  - intros song Hin. apply list_elem_of_singleton in Hin as ->.
    rewrite rating_of_songAB. lra.
  - intros e Hin. apply list_elem_of_singleton in Hin as ->. apply recordAB_nonnegative.
  - exact Hknown.
Defined.

End UserNormClaims.

(** *** Movie: tables, keys and sorting *)

Section TableFacts.
Import Js.

Lemma mapM_normal {A B} (f : A -> completion B) (g : A -> B) (l : list A) :
  (forall x, x ∈ l -> f x = Normal (g x)) -> mapM f l = Normal (map g l).
Proof.
  induction l as [|x l IH]; intros Hf; [reflexivity|].
  cbn [mapM map]. rewrite Hf by apply list_elem_of_here. cbn [bind].
  rewrite IH by (intros y Hy; now apply Hf, list_elem_of_further). reflexivity.
Qed.

Lemma insert_sorted_elem {A} (before : A -> A -> bool) (x y : A) (l : list A) :
  y ∈ insert_sorted before x l <-> y = x \/ y ∈ l.
Proof.
  induction l as [|z l IH]; cbn [insert_sorted].
  - rewrite list_elem_of_singleton, elem_of_nil. tauto.
  - destruct (before z x).
    + rewrite !elem_of_cons, IH. tauto.
    + rewrite !elem_of_cons. tauto.
Qed.

Lemma sort_elem {A} (before : A -> A -> bool) (y : A) (l : list A) :
  y ∈ sort before l <-> y ∈ l.
Proof.
  unfold sort. induction l as [|x l IH]; cbn [foldr]; [reflexivity|].
  rewrite insert_sorted_elem, elem_of_cons, IH. tauto.
Qed.

Lemma slice0_elem {A} (y : A) (l : list A) (e : Z) : y ∈ slice0 l e -> y ∈ l.
Proof.
  unfold slice0. destruct (e <? 0)%Z; intros Hy;
    apply elem_of_take in Hy as (i & Hi & _); now apply list_elem_of_lookup_2 in Hi.
Qed.






End TableFacts.

(** *** Movie: profiles and recommendations *)

Section RecommendationFacts.
Context `{Js.Host}.
Import Js.


Lemma movie_cosine_total a b : exists c, Movie.cosineSimilarity a b = Normal c.
Proof.
  destruct (decide (length a = length b)) as [He|Hne].
  - eexists. now apply movie_cosine_eq.
  - eexists. now apply movie_cosine_mismatch.
Qed.



End RecommendationFacts.

Section ProfileFacts.
Context `{Js.Host}.
Import Js.




End ProfileFacts.

Section RecommendationClaims.
Import Js.




End RecommendationClaims.

(** *** Movie: coordinates of the movie embedding *)

Section MovieEmbeddingFacts.
Import Js.

(** [for (x of l) vec[idx(x)] = val(x)]. *)
Lemma loop_insert_length {A} (idx : A -> nat) (val : A -> R) (l : list A) :
  forall vec : list R,
    length (foldl (fun vec x => <[idx x := val x]> vec) vec l) = length vec.
Proof.
  induction l as [|x l IH]; intros vec; cbn [foldl]; [reflexivity|].
  now rewrite IH, length_insert.
Qed.

Lemma loop_insert_miss {A} (idx : A -> nat) (val : A -> R) (l : list A) (j : nat) :
  Forall (fun x => idx x <> j) l ->
  forall vec : list R,
    foldl (fun vec x => <[idx x := val x]> vec) vec l !!! j = vec !!! j.
Proof.
  induction 1 as [|x l Hx _ IH]; intros vec; cbn [foldl]; [reflexivity|].
  rewrite IH. now apply list_lookup_total_insert_ne.
Qed.

Lemma loop_insert_seq (val : nat -> R) (n : nat) : forall (a : nat) (vec : list R) (j : nat),
  (j < length vec)%nat ->
  foldl (fun vec i => <[i := val i]> vec) vec (seq a n) !!! j
  = if decide (a <= j < a + n)%nat then val j else vec !!! j.
Proof.
  induction n as [|n IH]; intros a vec j Hj; cbn [seq foldl].
  - case_decide; [lia | reflexivity].
  - rewrite IH by now rewrite length_insert.
    destruct (decide (a = j)) as [->|Hne].
    + rewrite list_lookup_total_insert_eq by exact Hj.
      repeat case_decide; try lia; reflexivity.
    + rewrite list_lookup_total_insert_ne by exact Hne.
      repeat case_decide; try lia; reflexivity.
Qed.

Lemma contribution_miss target cs j : forall i weight,
  (forall k, target k <> j) -> contribution target i cs weight j = 0.
Proof.
  induction cs as [|c r IH]; intros i weight Hmiss; cbn [contribution]; [reflexivity|].
  rewrite IH by exact Hmiss. case_decide as Hd; [now apply Hmiss in Hd | lra].
Qed.

(** The movie hasher leaves the coordinates outside its band alone. *)
Lemma movie_hash_outside str vec offset weight j :
  (j < length vec)%nat -> (j < offset \/ offset + 16 <= j)%nat ->
  Movie.hashToVector str vec offset weight !!! j = vec !!! j.
Proof.
  intros Hj Hout. unfold Movie.hashToVector.
  rewrite movie_hash_band, band_hash_lookup by exact Hj.
  rewrite contribution_miss; [lra|].
  intros k Hk. pose proof (Nat.mod_upper_bound k 16). lia.
Qed.

(** Inside a band of at most 16 coordinates each coordinate receives the
    one character that is sent to it. *)
Lemma contribution_single offset weight cs i : forall i0,
  (i0 + length cs <= 16)%nat ->
  contribution (fun k => (offset + k mod 16)%nat) i0 cs weight (offset + i)
  = if decide (i0 <= i)%nat
    then match cs !! (i - i0)%nat with
         | Some c => IZR c / 255 * weight
         | None => 0
         end
    else 0.
Proof.
  induction cs as [|c r IH]; intros i0 Hlen; cbn [contribution].
  - rewrite lookup_nil. now case_decide.
  - cbn [length] in Hlen. rewrite IH by lia.
    rewrite (Nat.mod_small i0) by lia.
    destruct (decide (i0 = i)) as [->|Hne].
    + rewrite Nat.sub_diag. cbn [lookup list_lookup].
      repeat case_decide; try lia; lra.
    + destruct (decide (i0 <= i)%nat) as [Hle|Hgt].
      * replace (i - i0)%nat with (S (i - S i0)) by lia. cbn [lookup list_lookup].
        repeat case_decide; try lia; destruct (r !! _); lra.
      * repeat case_decide; try lia; lra.
Qed.

Lemma imap_pair_index {A} (l : list A) (p : nat * A) :
  p ∈ imap (fun idx x => (idx, x)) l -> (p.1 < length l)%nat.
Proof.
  intros Hp. apply elem_of_lookup_imap in Hp as (i & x & -> & Hi).
  cbn. now apply lookup_lt_Some in Hi.
Qed.

End MovieEmbeddingFacts.

Section MovieEmbeddingCoordinates.
Import Js.

Ltac movie_len :=
  repeat first [rewrite movie_hash_length | rewrite length_insert
               | rewrite loop_insert_length | rewrite loop_alter_length
               | rewrite length_replicate];
  unfold Movie.embeddingDim; try lia.

Lemma pairs_miss (l : list string) (j : nat) :
  (j < 10 \/ 30 <= j)%nat ->
  Forall (fun p : nat * string => (10 + p.1)%nat <> j)
         (imap (fun idx userId => (idx, userId)) (take 20 l)).
Proof.
  intros Hj. apply Forall_forall. intros p Hp.
  apply imap_pair_index in Hp. rewrite length_take in Hp. lia.
Qed.

Ltac peel :=
  repeat first
    [ rewrite list_lookup_total_insert_ne by lia
    | rewrite movie_hash_outside by (movie_len; lia)
    | rewrite loop_insert_miss by (apply pairs_miss; lia) ].

Lemma createMovieEmbedding_unrated (s : Movie.system) now movieId :
  Movie.movieStats s !! movieId = None ->
  Movie.createMovieEmbedding s now movieId = replicate 64 0.
Proof. intros Hstat. unfold Movie.createMovieEmbedding. now rewrite Hstat. Qed.

Lemma createMovieEmbedding_length (s : Movie.system) now movieId :
  length (Movie.createMovieEmbedding s now movieId) = Movie.embeddingDim.
Proof.
  unfold Movie.createMovieEmbedding.
  destruct (Movie.movieStats s !! movieId) as [stat|]; [|apply length_replicate].
  rewrite (foldl_ext _ (fun vec p => <[(10 + p.1)%nat := Movie.hashUser p.2]> vec))
    by (intros ? [? ?]; reflexivity).
  destruct (List.find _ (Movie.movies s)) as [m|];
    [destruct (String.eqb (Movie.Meta.genres m) "")|];
    destruct (map Movie.Rating.timestamp _) as [|t ts]; movie_len; reflexivity.
Qed.

(** Coordinates 56-63 of the embedding of a movie that has statistics hold
    the first eight characters of its id, hashed with weight 0.5. *)
Lemma createMovieEmbedding_id_band (s : Movie.system) now movieId stat i :
  Movie.movieStats s !! movieId = Some stat -> (i < 8)%nat ->
  Movie.createMovieEmbedding s now movieId !!! (56 + i)%nat
  = match codes (toLowerCase movieId) !! i with
    | Some c => IZR c / 255 * 0.5
    | None => 0
    end.
Proof.
  intros Hstat Hi. unfold Movie.createMovieEmbedding. rewrite Hstat.
  rewrite (foldl_ext _ (fun vec p => <[(10 + p.1)%nat := Movie.hashUser p.2]> vec))
    by (intros ? [? ?]; reflexivity).
  destruct (List.find _ (Movie.movies s)) as [m|];
    [destruct (String.eqb (Movie.Meta.genres m) "")|];
    destruct (map Movie.Rating.timestamp _) as [|t ts].
  all: unfold Movie.hashToVector at 1; rewrite movie_hash_band, band_hash_lookup by movie_len.
  all: movie_len; peel.
  all: rewrite loop_insert_seq by movie_len.
  all: rewrite decide_False by lia.
  all: rewrite lookup_total_replicate_2 by lia.
  all: change (64 - 56 - 0)%nat with 8%nat.
  all: rewrite contribution_single by (rewrite length_take; lia).
  all: rewrite decide_True by lia.
  all: rewrite Nat.sub_0_r, lookup_take_lt by exact Hi.
  all: destruct (codes (toLowerCase movieId) !! i); lra.
Qed.

(** Coordinates 0-4 of the embedding of a movie that has statistics hold
    its normalized rating histogram. *)
Lemma createMovieEmbedding_histogram (s : Movie.system) now movieId stat j :
  Movie.movieStats s !! movieId = Some stat -> (j < 5)%nat ->
  Movie.createMovieEmbedding s now movieId !!! j
  = INR (Movie.histogram (Movie.Stat.ratings stat) !!! j)
    / INR (if (length (Movie.Stat.ratings stat) =? 0)%nat then 1%nat
           else length (Movie.Stat.ratings stat)).
Proof.
  intros Hstat Hj. unfold Movie.createMovieEmbedding. rewrite Hstat.
  rewrite (foldl_ext _ (fun vec p => <[(10 + p.1)%nat := Movie.hashUser p.2]> vec))
    by (intros ? [? ?]; reflexivity).
  destruct (List.find _ (Movie.movies s)) as [m|];
    [destruct (String.eqb (Movie.Meta.genres m) "")|];
    destruct (map Movie.Rating.timestamp _) as [|t ts].
  all: peel.
  all: rewrite loop_insert_seq by movie_len.
  all: now rewrite decide_True by lia.
Qed.

End MovieEmbeddingCoordinates.

(** *** Movie: coordinates of the user vector *)

Section UserVectorFacts.
Import Js.

(** The aggregation loop over the liked movies. *)
Lemma liked_loop (tbl : ordered (list R)) (liked : list Movie.Rating.t) :
  forall (vec : list R) (tw : R),
    length vec = Movie.embeddingDim ->
    let st := foldl (fun '(vec, totalWeight) r =>
                       match oget tbl (Movie.Rating.movieId r) with
                       | None => (vec, totalWeight)
                       | Some movieEmb =>
                           let weight := (Movie.Rating.rating r - 3) / 2 in
                           (Movie.addScaled vec movieEmb weight, totalWeight + weight)
                       end)
                    (vec, tw) liked in
    length st.1 = Movie.embeddingDim
    /\ st.2 = tw + likedWeight tbl liked
    /\ forall j, (j < Movie.embeddingDim)%nat ->
                 st.1 !!! j = vec !!! j + likedSum tbl liked j.
Proof.
  induction liked as [|r liked IH]; intros vec tw Hlen st; subst st;
    cbn [foldl likedSum likedWeight].
  - cbn. split; [exact Hlen|]. split; [lra|]. intros j _. lra.
  - destruct (oget tbl (Movie.Rating.movieId r)) as [emb|]; cbv zeta in *.
    + destruct (IH (Movie.addScaled vec emb ((Movie.Rating.rating r - 3) / 2))
                   (tw + (Movie.Rating.rating r - 3) / 2))
        as (H1 & H2 & H3); [now rewrite movie_addScaled_length|].
      split; [exact H1|]. split; [rewrite H2; lra|].
      intros j Hj. rewrite H3 by exact Hj.
      rewrite movie_addScaled_lookup by assumption. lra.
    + destruct (IH vec tw Hlen) as (H1 & H2 & H3).
      split; [exact H1|]. split; [rewrite H2; lra|].
      intros j Hj. rewrite H3 by exact Hj. lra.
Qed.

(** The loop over the disliked movies touches coordinates 32-39 only. *)
Lemma disliked_loop (tbl : ordered (list R)) (disliked : list Movie.Rating.t) :
  forall vec : list R,
    let vec' := foldl (fun vec r =>
                         match oget tbl (Movie.Rating.movieId r) with
                         | None => vec
                         | Some movieEmb =>
                             foldl (fun vec i => alter (fun v => v - movieEmb !!! i * 0.3) i vec)
                                   vec (seq 32 8)
                         end)
                      vec disliked in
    length vec' = length vec
    /\ forall j, (j < 32 \/ 40 <= j)%nat -> vec' !!! j = vec !!! j.
Proof.
  induction disliked as [|r disliked IH]; intros vec vec'; subst vec'; cbn [foldl].
  - split; [reflexivity | now intros].
  - destruct (oget tbl (Movie.Rating.movieId r)) as [emb|].
    + destruct (IH (foldl (fun vec i => alter (fun v => v - emb !!! i * 0.3) i vec)
                          vec (seq 32 8))) as [H1 H2].
      rewrite loop_alter_length in H1. split; [exact H1|].
      intros j Hj. rewrite H2 by exact Hj.
      rewrite !list_lookup_total_alt, loop_alter_lookup.
      destruct (vec !! j) as [x|]; cbn; [|reflexivity].
      case_decide; [lia | reflexivity].
    + apply IH.
Qed.

(** The loop over the genre scores touches coordinates 48-55 only. *)
Lemma genre_loop (entries : list (nat * (string * Movie.Genre.t))) :
  forall vec : list R,
    let vec' := foldl (fun vec '(idx, (genre, data)) =>
                         if (idx <? 8)%nat
                         then <[(48 + idx)%nat :=
                                  Movie.Genre.sum data / INR (Movie.Genre.count data) / 5]> vec
                         else vec)
                      vec entries in
    length vec' = length vec
    /\ forall j, (j < 48 \/ 56 <= j)%nat -> vec' !!! j = vec !!! j.
Proof.
  induction entries as [|[idx [genre data]] entries IH]; intros vec vec'; subst vec';
    cbn [foldl].
  - split; [reflexivity | now intros].
  - destruct (Nat.ltb_spec idx 8) as [Hlt|Hge]; [|apply IH].
    destruct (IH (<[(48 + idx)%nat :=
                     Movie.Genre.sum data / INR (Movie.Genre.count data) / 5]> vec))
      as [H1 H2].
    rewrite length_insert in H1. split; [exact H1|].
    intros j Hj. rewrite H2 by exact Hj.
    apply list_lookup_total_insert_ne. lia.
Qed.

End UserVectorFacts.

Section UserVectorCoordinates.
Import Js.

(** Before normalization, coordinates 0-4 of the user vector hold the
    behavioral scalar plus the weighted sum of the liked movies' embeddings
    at that coordinate; the coordinates from 5 on that later steps leave
    alone hold that weighted sum divided by the total weight. *)
Lemma userVector_coordinates (s : Movie.system) (p : Movie.Profile.t) (j : nat) :
  let liked := likedMovies p in
  let tbl := Movie.movieEmbeddings s in
  ((j < 5)%nat ->
   Movie.userVector s p !!! j = behavioral p j + likedSum tbl liked j)
  /\ ((5 <= j < 32 \/ 40 <= j < 48 \/ 56 <= j < 64)%nat ->
      Movie.userVector s p !!! j
      = if decide (0 < likedWeight tbl liked)
        then likedSum tbl liked j / likedWeight tbl liked
        else likedSum tbl liked j).
Proof.
  intros liked tbl. unfold Movie.userVector.
  set (v1 := <[4%nat := _]> _).
  assert (Hlen1 : length v1 = Movie.embeddingDim).
  { subst v1. rewrite !length_insert. apply length_replicate. }
  pose proof (liked_loop tbl liked v1 0 Hlen1) as Hloop. cbv zeta in Hloop.
  subst liked tbl. unfold likedMovies in *.
  destruct (foldl _ (v1, 0) _) as [v2 tw]. cbn [fst snd] in Hloop.
  destruct Hloop as (Hlen2 & Htw & Hv2). rewrite Rplus_0_l in Htw. subst tw.
  set (tw := likedWeight _ _) in *.
  set (v3 := if decide (0 < tw) then _ else v2).
  assert (Hlen3 : length v3 = Movie.embeddingDim).
  { subst v3. case_decide; [now rewrite loop_alter_length | exact Hlen2]. }
  match goal with
  | |- context [foldl ?f v3 ?l] =>
      destruct (disliked_loop (Movie.movieEmbeddings s) l v3) as [Hlen4 Hv4];
      set (v4 := foldl f v3 l) in *
  end.
  match goal with
  | |- context [foldl ?f v4 ?l] => destruct (genre_loop l v4) as [Hlen5 Hv5]
  end.
  unfold Movie.embeddingDim in *.
  split; intros Hj; rewrite Hv5, Hv4 by lia; subst v3.
  - assert (Hv3 : (if decide (0 < tw)
                   then foldl (fun vec i => alter (fun v => v / tw) i vec) v2 (seq 5 (64 - 5))
                   else v2) !!! j = v2 !!! j).
    { case_decide; [|reflexivity]. rewrite loop_alter_total by lia.
      case_decide; [lia | reflexivity]. }
    rewrite Hv3, Hv2 by lia. f_equal. subst v1.
    destruct j as [|[|[|[|[|j]]]]]; [| | | | |lia]; cbn [behavioral].
    all: rewrite ?list_lookup_total_insert_ne by lia.
    all: rewrite list_lookup_total_insert_eq; [reflexivity|].
    all: rewrite ?length_insert, length_replicate; lia.
  - assert (Hv1 : v1 !!! j = 0).
    { subst v1. rewrite !list_lookup_total_insert_ne by lia.
      apply lookup_total_replicate_2. lia. }
    case_decide.
    + rewrite loop_alter_total by lia. rewrite decide_True by lia.
      rewrite Hv2, Hv1 by lia. now rewrite Rplus_0_l.
    + rewrite Hv2, Hv1 by lia. now rewrite Rplus_0_l.
Qed.

End UserVectorCoordinates.

(** *** Movie: the scenario *)

Section MovieScenario.
Context `{Js.Host}.
Import Js.

Lemma normalizeRating_rows now :
  map (Movie.normalizeRating now) [rowX; rowY] = [ratingX; ratingY].
Proof.
  cbn [map]. unfold Movie.normalizeRating, rowX, rowY, ratingX, ratingY, get.
  simplify_map_eq. unfold or.
  rewrite !truthy_num by lra.
  rewrite !parseInt_plain by (right; rewrite Rabs_right by lra; lra).
  cbn [truthy String.eqb Ascii.eqb Bool.eqb negb toString parseFloat parseInt].
  rewrite !num_or_nonzero by lra. rewrite !Ztrunc_IZR. reflexivity.
Qed.

Lemma trainedXY_eq now : trainedXY now = Movie.trainMovieEmbeddings ratedXY now.
Proof.
  unfold trainedXY, Movie.processRatings. now rewrite normalizeRating_rows.
Qed.

Lemma movieStats_X now : Movie.movieStats (trainedXY now) !! "X" = Some statX.
Proof.
  rewrite trainedXY_eq.
  cbn [ratedXY Movie.trainMovieEmbeddings Movie.movieStats].
  unfold Movie.buildMovieStats, Movie.groupByMovie. cbn [foldl].
  rewrite lookup_fmap.
  cbn [ratingX ratingY Movie.Rating.movieId Movie.Rating.rating Movie.Rating.userId].
  simplify_map_eq. rewrite !decide_True by lra.
  unfold Movie.statAverages, Movie.sumList, statX. cbn. do 2 f_equal. lra.
Qed.

Lemma userProfiles_u now : Movie.userProfiles (trainedXY now) !! "u" = Some profileU.
Proof.
  rewrite trainedXY_eq.
  cbn [ratedXY Movie.trainMovieEmbeddings Movie.userProfiles].
  unfold Movie.buildUserProfiles, Movie.groupByUser. cbn [foldl].
  rewrite lookup_fmap.
  cbn [ratingX ratingY Movie.Rating.userId].
  simplify_map_eq.
  unfold Movie.profileStatistics, Movie.sumList, profileU. cbn. do 2 f_equal; lra.
Qed.

Lemma movieEmbeddings_XY now :
  exists embX embY,
    Movie.movieEmbeddings (trainedXY now) = [("X", embX); ("Y", embY)]
    /\ embX = Movie.createMovieEmbedding ratedXY now "X".
Proof. rewrite trainedXY_eq. eexists _, _. split; reflexivity. Qed.

Lemma histogram_five : Movie.histogram [5] = [0; 0; 0; 0; 1]%nat.
Proof. unfold Movie.histogram. cbn [foldl]. rewrite ZfloorZ. reflexivity. Qed.

Lemma embedding_X_bin now : Movie.createMovieEmbedding ratedXY now "X" !!! 4%nat = 1.
Proof.
  pose proof (movieStats_X now) as Hstat. rewrite trainedXY_eq in Hstat.
  rewrite (createMovieEmbedding_histogram _ now "X" statX) by (exact Hstat || lia).
  cbn [statX Movie.Stat.ratings]. rewrite histogram_five. cbn. lra.
Qed.

Lemma likedMovies_u : likedMovies profileU = [ratingX].
Proof.
  unfold likedMovies, profileU. cbn [Movie.Profile.ratings].
  rewrite filter_cons, decide_True by (cbn; lra). reflexivity.
Qed.

End MovieScenario.

Section UnratedMovieScenario.
Import Js.


End UnratedMovieScenario.

Section MovieEncoderClaims.
Import Js.

(** C6, evaluated at the failing input.  User "u" has one rating, 5 stars
    on movie "X", and no rating of 2 or below.  When [createUserEmbedding]
    reaches its final normalization, coordinate 4 of the vector holds 1
    and not the dislike fraction 0: the aggregation loop over the liked
    movies starts at coordinate 0 and has added the 5-star histogram bin of
    "X" to it. *)
Theorem C6_dislike_coordinate_polluted `{Host} (now : Z) :
  Movie.userProfiles (trainedXY now) !! "u" = Some profileU
  /\ Movie.createUserEmbedding (trainedXY now) "u"
     = Movie.normalizeVector (Movie.userVector (trainedXY now) profileU)
  /\ behavioral profileU 4 = 0
  /\ Movie.userVector (trainedXY now) profileU !!! 4%nat = 1.
Proof.
  assert (Hbeh : behavioral profileU 4 = 0).
  { unfold behavioral, profileU. cbn [Movie.Profile.ratings Movie.Profile.ratingCount].
    rewrite filter_cons, decide_False by (cbn; lra). cbn. lra. }
  split; [apply userProfiles_u|]. split; [|split].
  - unfold Movie.createUserEmbedding. now rewrite userProfiles_u.
  - exact Hbeh.
  - destruct (userVector_coordinates (trainedXY now) profileU 4) as [Hlow _].
    rewrite Hlow by lia. rewrite likedMovies_u.
    destruct (movieEmbeddings_XY now) as (embX & embY & -> & ->).
    cbn [likedSum ratingX Movie.Rating.movieId Movie.Rating.rating oget List.find fst snd
           String.eqb Ascii.eqb Bool.eqb fmap option_fmap option_map].
    rewrite embedding_X_bin, Hbeh. lra.
Qed.

(** C7, as the specification states it, fails: for an id without a
    statistics entry the encoder returns the all-zero vector; coordinate 56
    does not hold the hashed first character of the id. *)
Lemma C7_unrated_counterexample :
  Movie.movieStats Movie.constructor !! "x" = None
  /\ Movie.createMovieEmbedding Movie.constructor 0 "x" = replicate 64 0
  /\ Movie.hashToVector "x" (replicate 64 0) 56 0.5 !!! 56%nat = 120 / 255 * 0.5
  /\ Movie.createMovieEmbedding Movie.constructor 0 "x" !!! 56%nat <> 120 / 255 * 0.5.
Proof.
  assert (Hzero : Movie.createMovieEmbedding Movie.constructor 0 "x" = replicate 64 0)
    by (apply createMovieEmbedding_unrated; apply lookup_empty).
  split; [apply lookup_empty|]. split; [exact Hzero|]. split.
  - unfold Movie.hashToVector.
    rewrite movie_hash_band, band_hash_lookup by (rewrite length_replicate; lia).
    rewrite lookup_total_replicate_2 by lia. rewrite length_replicate.
    vm_compute contribution. lra.
  - rewrite Hzero, lookup_total_replicate_2 by lia. lra.
Qed.

(** C7, amended.  For an id that has a statistics entry, coordinates 56-63
    of the embedding hold the first eight characters of the lower-cased id,
    each as [(code / 255) * 0.5].  For an id without a statistics entry the
    embedding is the all-zero vector. *)
Theorem C7_id_band (s : Movie.system) (now : Z) (movieId : string) (i : nat) :
  (Movie.movieStats s !! movieId = None ->
   Movie.createMovieEmbedding s now movieId = replicate 64 0)
  /\ (is_Some (Movie.movieStats s !! movieId) -> (i < 8)%nat ->
      Movie.createMovieEmbedding s now movieId !!! (56 + i)%nat
      = match codes (toLowerCase movieId) !! i with
        | Some c => IZR c / 255 * 0.5
        | None => 0
        end).
Proof.
  split.
  - apply createMovieEmbedding_unrated.
  - intros [stat Hstat] Hi. now apply (createMovieEmbedding_id_band s now movieId stat).
Qed.

Lemma C7_id_band_witness :
  is_Some (Movie.movieStats (@trainedXY plainHost 0) !! "X")
  /\ (0 < 8)%nat
  /\ Movie.createMovieEmbedding (@trainedXY plainHost 0) 0 "X" !!! (56 + 0)%nat
     = match codes (toLowerCase "X") !! 0%nat with
       | Some c => IZR c / 255 * 0.5
       | None => 0
       end.
Proof.
  assert (Hstat : is_Some (Movie.movieStats (@trainedXY plainHost 0) !! "X"))
    by (rewrite movieStats_X; now eexists).
  assert (Hi : (0 < 8)%nat) by lia.
  split; [exact Hstat|]. split; [exact Hi|].
  destruct (C7_id_band (@trainedXY plainHost 0) 0 "X" 0) as [_ Hband].
  exact (Hband Hstat Hi).
Defined.

End MovieEncoderClaims.

(** *** Sorting and slicing *)

Section SortFacts.
Import Js.
Context {A : Type} (before : A -> A -> bool).

Lemma insert_sorted_perm (x : A) (l : list A) : insert_sorted before x l ≡ₚ x :: l.
Proof.
  induction l as [|y l IH]; cbn [insert_sorted]; [reflexivity|].
  destruct (before y x); [|reflexivity].
  rewrite IH. apply Permutation_swap.
Qed.

Lemma sort_perm (l : list A) : sort before l ≡ₚ l.
Proof.
  induction l as [|x l IH]; cbn; [reflexivity|].
  change (foldr (insert_sorted before) [] l) with (sort before l).
  now rewrite insert_sorted_perm, IH.
Qed.

Lemma sort_length (l : list A) : length (sort before l) = length l.
Proof. apply Permutation_length, sort_perm. Qed.

Lemma descending_nil (key : A -> R) : descending key [].
Proof. intros i j a b _ Hi. now rewrite lookup_nil in Hi. Qed.

Lemma descending_cons (key : A -> R) (x : A) (l : list A) :
  descending key (x :: l) <-> (forall y, y ∈ l -> key y <= key x) /\ descending key l.
Proof.
  split.
  - intros Hd. split.
    + intros y Hy. apply list_elem_of_lookup_1 in Hy as [j Hj].
      apply (Hd 0%nat (S j) x y); [lia | reflexivity | exact Hj].
    + intros i j a b Hij Hi Hj. apply (Hd (S i) (S j) a b); [lia | exact Hi | exact Hj].
  - intros [Hx Hd] i j a b Hij Hi Hj.
    destruct j as [|j]; [lia|]. cbn in Hj.
    destruct i as [|i].
    + cbn in Hi. injection Hi as <-. apply Hx. now apply list_elem_of_lookup_2 in Hj.
    + cbn in Hi. apply (Hd i j a b); [lia | exact Hi | exact Hj].
Qed.

Lemma insert_sorted_descending (key : A -> R) (x : A) (l : list A) :
  (forall a b, a ∈ x :: l -> b ∈ x :: l -> before a b = true <-> key b < key a) ->
  descending key l -> descending key (insert_sorted before x l).
Proof.
  induction l as [|y l IH]; intros Hb Hd; cbn [insert_sorted].
  - apply descending_cons. split; [|apply descending_nil].
    intros y Hy. now apply elem_of_nil in Hy.
  - apply descending_cons in Hd as [Hy Hd].
    assert (Hx : x ∈ x :: y :: l) by apply list_elem_of_here.
    assert (Hy' : y ∈ x :: y :: l) by apply list_elem_of_further, list_elem_of_here.
    destruct (before y x) eqn:E.
    + apply (Hb y x Hy' Hx) in E. apply descending_cons. split.
      * intros z Hz. rewrite insert_sorted_perm in Hz.
        apply elem_of_cons in Hz as [->|Hz]; [lra | now apply Hy].
      * apply IH; [|exact Hd].
        intros a b Ha Hb'. apply Hb.
        -- apply elem_of_cons in Ha as [->|Ha]; [exact Hx|].
           now apply list_elem_of_further, list_elem_of_further.
        -- apply elem_of_cons in Hb' as [->|Hb']; [exact Hx|].
           now apply list_elem_of_further, list_elem_of_further.
    + assert (Hxy : key y <= key x).
      { destruct (Rle_dec (key y) (key x)) as [Hle|Hn]; [exact Hle|].
        assert (Ht : before y x = true) by (apply (Hb y x Hy' Hx); lra). congruence. }
      apply descending_cons. split.
      * intros z Hz. apply elem_of_cons in Hz as [->|Hz]; [exact Hxy|].
        specialize (Hy z Hz). lra.
      * apply descending_cons. now split.
Qed.

Lemma sort_descending (key : A -> R) (l : list A) :
  (forall a b, a ∈ l -> b ∈ l -> before a b = true <-> key b < key a) ->
  descending key (sort before l).
Proof.
  induction l as [|x l IH]; intros Hb; cbn; [apply descending_nil|].
  change (foldr (insert_sorted before) [] l) with (sort before l).
  apply insert_sorted_descending.
  - intros a b Ha Hb'. apply Hb.
    + apply elem_of_cons in Ha as [->|Ha]; [apply list_elem_of_here|].
      apply list_elem_of_further. now rewrite sort_perm in Ha.
    + apply elem_of_cons in Hb' as [->|Hb']; [apply list_elem_of_here|].
      apply list_elem_of_further. now rewrite sort_perm in Hb'.
  - apply IH. intros a b Ha Hb'. apply Hb; now apply list_elem_of_further.
Qed.

Lemma descending_take (key : A -> R) (n : nat) (l : list A) :
  descending key l -> descending key (take n l).
Proof.
  intros Hd i j a b Hij Hi Hj.
  apply lookup_take_Some in Hi as [Hi _]. apply lookup_take_Some in Hj as [Hj _].
  now apply (Hd i j).
Qed.

Lemma descending_slice0 (key : A -> R) (e : Z) (l : list A) :
  descending key l -> descending key (slice0 l e).
Proof. intros Hd. unfold slice0. destruct (e <? 0)%Z; now apply descending_take. Qed.

(** A sort that never finds an element strictly before another one leaves
    the list as it is. *)
Lemma sort_unordered (l : list A) :
  (forall x y, x ∈ l -> y ∈ l -> before x y = false) -> sort before l = l.
Proof.
  induction l as [|x l IH]; intros Hb; cbn; [reflexivity|].
  change (foldr (insert_sorted before) [] l) with (sort before l).
  rewrite IH by (intros y z Hy Hz; apply Hb; now apply list_elem_of_further).
  destruct l as [|y l]; [reflexivity|]. cbn [insert_sorted].
  rewrite Hb; [reflexivity | apply list_elem_of_further, list_elem_of_here
                           | apply list_elem_of_here].
Qed.

Lemma slice0_length (l : list A) (e : Z) :
  (0 <= e)%Z -> length (slice0 l e) = Nat.min (Z.to_nat e) (length l).
Proof.
  intros He. unfold slice0. destruct (Z.ltb_spec e 0) as [Hlt|_]; [lia|].
  apply length_take.
Qed.

End SortFacts.

(** *** Music: the trained table and the user embedding *)

Section MusicEncoderFacts.
Context `{Js.Host}.
Import Js Vec.

Lemma last_cons_default {A} (x : A) (l : list A) :
  last (x :: l) = Some (default x (last l)).
Proof.
  revert x. induction l as [|y l IH]; intros x; [reflexivity|].
  change (last (x :: y :: l)) with (last (y :: l)). rewrite IH.
  cbn [default]. reflexivity.
Qed.

Lemma trained_table_last (songs : list object) (id : string) :
  forall tbl0 : gmap string (list R),
  foldl (fun tbl song => <[Music.makeSongId song := Music.createSongEmbedding song]> tbl)
        tbl0 songs !! id
  = match last (filter (fun song => Music.makeSongId song = id) songs) with
    | Some song => Some (Music.createSongEmbedding song)
    | None => tbl0 !! id
    end.
Proof.
  induction songs as [|song songs IH]; intros tbl0; [reflexivity|].
  cbn [foldl]. rewrite IH. rewrite filter_cons.
  destruct (decide (Music.makeSongId song = id)) as [Hid|Hne].
  - rewrite last_cons_default.
    destruct (last (filter _ songs)) as [song'|]; cbn [default]; [reflexivity|].
    now rewrite <- Hid, lookup_insert_eq.
  - destruct (last (filter _ songs)) as [song'|]; [reflexivity|].
    now rewrite lookup_insert_ne.
Qed.

Lemma trained_song_known (s : Music.system) (song : object) :
  song ∈ Music.songs s ->
  exists emb, Music.songEmbeddings (Music.trainSongEmbeddings s) !! Music.makeSongId song
              = Some emb
              /\ length emb = Music.embeddingDim.
Proof.
  intros Hin. cbn. rewrite trained_table_last.
  destruct (last (filter _ (Music.songs s))) as [song'|] eqn:E.
  - eexists. split; [reflexivity | apply createSongEmbedding_length].
  - apply last_None in E.
    assert (Hf : song ∈ filter (fun x => Music.makeSongId x = Music.makeSongId song)
                               (Music.songs s)) by now apply list_elem_of_filter.
    rewrite E in Hf. now apply elem_of_nil in Hf.
Qed.

Lemma trained_lengths (s : Music.system) id emb :
  Music.songEmbeddings (Music.trainSongEmbeddings s) !! id = Some emb ->
  length emb = Music.embeddingDim.
Proof.
  intros Hl. apply train_lookup in Hl as (song & _ & _ & ->).
  apply createSongEmbedding_length.
Qed.

(** The aggregation loop of [createUserEmbedding] as sums. *)
Lemma aggregate_sums (tbl : gmap string (list R)) (history : list object) :
  forall agg tw,
    length agg = Music.embeddingDim ->
    let st := foldl (Music.accumulate tbl) (agg, tw) history in
    length st.1 = Music.embeddingDim
    /\ st.2 = tw + historyWeight tbl history
    /\ forall j, (j < Music.embeddingDim)%nat ->
                 st.1 !!! j = agg !!! j + historySum tbl history j.
Proof.
  induction history as [|e history IH]; intros agg tw Hlen; cbv zeta in *; cbn [foldl].
  - cbn. split; [exact Hlen|]. split; [lra|]. intros j _. lra.
  - cbn [historySum historyWeight]. unfold Music.accumulate at 2 4 6.
    destruct (tbl !! Music.makeSongId e) as [emb|] eqn:E; cbn [fst snd].
    + assert (Hlen' : length (Music.addScaled agg emb (Music.entryWeight e))
                      = Music.embeddingDim) by now rewrite music_addScaled_length.
      destruct (IH _ (tw + Music.entryWeight e) Hlen') as (H1 & H2 & H3).
      split; [exact H1|]. split; [rewrite H2; lra|].
      intros j Hj. rewrite H3 by exact Hj.
      rewrite music_addScaled_lookup by assumption. lra.
    + destruct (IH agg tw Hlen) as (H1 & H2 & H3).
      split; [exact H1|]. split; [rewrite H2; lra|].
      intros j Hj. rewrite H3 by exact Hj. lra.
Qed.

Lemma aggregate_length (s : Music.system) history :
  length (Music.aggregate s history).1 = Music.embeddingDim.
Proof.
  unfold Music.aggregate.
  now destruct (aggregate_sums (Music.songEmbeddings s) history
                  (replicate Music.embeddingDim 0) 0 (length_replicate _ _)) as (H1 & _).
Qed.

(** Two histories with the same sums have the same aggregate. *)
Lemma aggregate_ext (s : Music.system) (h1 h2 : list object) :
  historyWeight (Music.songEmbeddings s) h1 = historyWeight (Music.songEmbeddings s) h2 ->
  (forall j, historySum (Music.songEmbeddings s) h1 j
             = historySum (Music.songEmbeddings s) h2 j) ->
  Music.aggregate s h1 = Music.aggregate s h2.
Proof.
  intros Hw Hs. unfold Music.aggregate.
  destruct (aggregate_sums (Music.songEmbeddings s) h1
              (replicate Music.embeddingDim 0) 0 (length_replicate _ _)) as (L1 & W1 & S1).
  destruct (aggregate_sums (Music.songEmbeddings s) h2
              (replicate Music.embeddingDim 0) 0 (length_replicate _ _)) as (L2 & W2 & S2).
  cbv zeta in *.
  destruct (foldl _ _ h1) as [agg1 tw1], (foldl _ _ h2) as [agg2 tw2]. cbn [fst snd] in *.
  f_equal; [|rewrite W1, W2, Hw; reflexivity].
  apply list_eq_same_length with Music.embeddingDim; [exact L2 | exact L1 |].
  intros j x y Hj Hx Hy.
  apply list_lookup_total_correct in Hx, Hy.
  rewrite <- Hx, <- Hy, S1, S2, Hs by exact Hj. reflexivity.
Qed.

Lemma historySum_perm tbl (h1 h2 : list object) j :
  h1 ≡ₚ h2 -> historySum tbl h1 j = historySum tbl h2 j.
Proof.
  induction 1 as [|e h1 h2 _ IH|e1 e2 h|h1 h2 h3 _ IH1 _ IH2]; cbn [historySum].
  - reflexivity.
  - now rewrite IH.
  - lra.
  - now rewrite IH1.
Qed.

Lemma historyWeight_perm tbl (h1 h2 : list object) :
  h1 ≡ₚ h2 -> historyWeight tbl h1 = historyWeight tbl h2.
Proof.
  induction 1 as [|e h1 h2 _ IH|e1 e2 h|h1 h2 h3 _ IH1 _ IH2]; cbn [historyWeight].
  - reflexivity.
  - now rewrite IH.
  - lra.
  - now rewrite IH1.
Qed.

Lemma historySum_known tbl (h : list object) j :
  historySum tbl (filter (fun e => is_Some (tbl !! Music.makeSongId e)) h) j
  = historySum tbl h j.
Proof.
  induction h as [|e h IH]; [reflexivity|].
  rewrite filter_cons. destruct (decide _) as [Hs|Hn]; cbn [historySum].
  - now rewrite IH.
  - rewrite IH. destruct (tbl !! Music.makeSongId e) as [emb|]; [|lra].
    exfalso. apply Hn. now eexists.
Qed.

Lemma historyWeight_known tbl (h : list object) :
  historyWeight tbl (filter (fun e => is_Some (tbl !! Music.makeSongId e)) h)
  = historyWeight tbl h.
Proof.
  induction h as [|e h IH]; [reflexivity|].
  rewrite filter_cons. destruct (decide _) as [Hs|Hn]; cbn [historyWeight].
  - now rewrite IH.
  - rewrite IH. destruct (tbl !! Music.makeSongId e) as [emb|]; [|lra].
    exfalso. apply Hn. now eexists.
Qed.

Lemma music_createUserEmbedding_ext (s : Music.system) (h1 h2 : list object) :
  Music.aggregate s h1 = Music.aggregate s h2 ->
  Music.createUserEmbedding s h1 = Music.createUserEmbedding s h2.
Proof. intros He. unfold Music.createUserEmbedding. now rewrite He. Qed.

Lemma music_createUserEmbedding_length (s : Music.system) history :
  length (Music.createUserEmbedding s history) = Music.embeddingDim.
Proof.
  rewrite music_createUserEmbedding_eq.
  destruct (decide _); [apply length_replicate|].
  rewrite length_map. apply aggregate_length.
Qed.

End MusicEncoderFacts.

(** *** Music: recommendations *)

Section MusicRecommendationFacts.
Context `{Js.Host}.
Import Js Vec.

Lemma mapM_Forall2 {A B} (f : A -> completion B) (P : A -> B -> Prop) (l : list A) :
  (forall x, x ∈ l -> exists y, f x = Normal y /\ P x y) ->
  exists ys, mapM f l = Normal ys /\ Forall2 P l ys.
Proof.
  induction l as [|x l IH]; intros Hf.
  - exists []. split; [reflexivity | constructor].
  - destruct (Hf x (list_elem_of_here _ _)) as (y & Hy & HP).
    destruct IH as (ys & Hys & Hall);
      [intros x' Hx'; now apply Hf, list_elem_of_further|].
    exists (y :: ys). split; [|now constructor].
    cbn [mapM]. rewrite Hy. cbn [bind]. rewrite Hys. reflexivity.
Qed.

Lemma zero_take n (a : list R) : zero a -> zero (take n a).
Proof. unfold zero. apply Forall_take. Qed.

Lemma scoreSong_scored (s : Music.system) (userEmb : list R) (song : object) :
  length userEmb = Music.embeddingDim ->
  (forall id emb, Music.songEmbeddings s !! id = Some emb ->
                  length emb = Music.embeddingDim) ->
  exists r, Music.scoreSong s userEmb song = Normal r /\ scored userEmb song r.
Proof.
  intros Hu Htbl. unfold Music.scoreSong.
  destruct (Music.songEmbeddings s !! Music.makeSongId song) as [emb|] eqn:E.
  - rewrite music_cosine_eq by (rewrite Hu; symmetry; now apply (Htbl _ _ E)).
    cbn [bind]. eexists. split; [reflexivity|]. split; [reflexivity|].
    eexists. split; [reflexivity|]. split; [apply cosine_bounds|].
    intros Hz. apply cosine_zero. now left.
  - cbn [bind]. eexists. split; [reflexivity|]. split; [reflexivity|].
    exists 0. split; [reflexivity|]. split; [lra | reflexivity].
Qed.

Lemma scores_higher_spec (a b : Music.recommendation) :
  is_Some (Music.similarity_score a) -> is_Some (Music.similarity_score b) ->
  Music.scores_higher a b = true <-> score_of b < score_of a.
Proof.
  intros [x Hx] [y Hy]. unfold Music.scores_higher, score_of. rewrite Hx, Hy. cbn.
  destruct (Rlt_dec y x); split; intros; try lra; try discriminate; reflexivity.
Qed.

(** The system in which [recommendSongs] scores the catalog. *)
Lemma recommendSongs_system (s : Music.system) history limit :
  (forall id emb, Music.songEmbeddings s !! id = Some emb ->
                  length emb = Music.embeddingDim) ->
  let s' := (Music.recommendSongs s history limit).2 in
  Music.songs s' = Music.songs s
  /\ forall id emb, Music.songEmbeddings s' !! id = Some emb ->
                    length emb = Music.embeddingDim.
Proof.
  intros Htbl. cbv zeta. unfold Music.recommendSongs.
  destruct (Music.songs s) as [|song songs] eqn:Es; cbn [snd]; [now split|].
  assert (Hs' : Music.songs (if decide (Music.songEmbeddings s = ∅)
                             then Music.trainSongEmbeddings s else s) = song :: songs
                /\ forall id emb,
                     Music.songEmbeddings (if decide (Music.songEmbeddings s = ∅)
                                           then Music.trainSongEmbeddings s else s) !! id
                     = Some emb -> length emb = Music.embeddingDim).
  { destruct (decide _); [|now split].
    split; [exact Es|]. intros id emb. apply trained_lengths. }
  destruct history; exact Hs'.
Qed.

(** The list [recommendSongs] returns, before sorting and cutting. *)
Lemma recommendSongs_results (s : Music.system) history limit :
  (forall id emb, Music.songEmbeddings s !! id = Some emb ->
                  length emb = Music.embeddingDim) ->
  let s' := (Music.recommendSongs s history limit).2 in
  (Music.songs s = [] \/ history = [] -> (Music.recommendSongs s history limit).1 = Normal [])
  /\ (Music.songs s <> [] -> history <> [] ->
      exists results,
        (Music.recommendSongs s history limit).1
        = Normal (slice0 (sort Music.scores_higher results) limit)
        /\ Forall2 (scored (Music.createUserEmbedding s' history)) (Music.songs s) results).
Proof.
  intros Htbl. cbv zeta.
  pose proof (recommendSongs_system s history limit Htbl) as [Hsongs Hlen].
  cbv zeta in Hsongs, Hlen. revert Hsongs Hlen. unfold Music.recommendSongs.
  destruct (Music.songs s) as [|song songs] eqn:Es; cbn [fst snd].
  - intros _ _. split; [reflexivity | congruence].
  - set (s' := if decide (Music.songEmbeddings s = ∅)
               then Music.trainSongEmbeddings s else s).
    destruct history as [|e history]; cbn [fst snd]; intros Hsongs Hlen.
    + split; [reflexivity | congruence].
    + split; [intros [?|?]; discriminate|]. intros _ _.
      destruct (mapM_Forall2 (Music.scoreSong s' (Music.createUserEmbedding s' (e :: history)))
                  (scored (Music.createUserEmbedding s' (e :: history))) (Music.songs s'))
        as (results & Hres & Hall).
      { intros song' _. apply scoreSong_scored; [|exact Hlen].
        apply music_createUserEmbedding_length. }
      exists results. rewrite Hres. cbn [bind]. split; [reflexivity|].
      now rewrite <- Hsongs.
Qed.

End MusicRecommendationFacts.

Section MusicProperties.
Import Js Vec.

(** X1.  After [trainSongEmbeddings] the table holds, under each id, the
    embedding of the last catalog song with that id, and holds nothing
    under an id that no catalog song has: when two songs of the catalog
    share an id, the later one overwrites the earlier one. *)
Theorem X1_trained_table `{Host} (s : Music.system) (id : string) :
  Music.songEmbeddings (Music.trainSongEmbeddings s) !! id
  = Music.createSongEmbedding
      <$> last (filter (fun song => Music.makeSongId song = id) (Music.songs s)).
Proof.
  cbn [Music.trainSongEmbeddings Music.songEmbeddings].
  rewrite trained_table_last, lookup_empty.
  now destruct (last _).
Qed.

(** X2.  Over the real numbers the user embedding does not depend on the
    order of the history records: a rearranged history gives the same
    vector (the aggregation is a sum). *)
Theorem X2_user_embedding_order `{Host} (s : Music.system) (h1 h2 : list object) :
  h1 ≡ₚ h2 -> Music.createUserEmbedding s h1 = Music.createUserEmbedding s h2.
Proof.
  intros Hp. apply music_createUserEmbedding_ext, aggregate_ext.
  - now apply historyWeight_perm.
  - intros j. now apply historySum_perm.
Qed.

Lemma X2_user_embedding_order_witness :
  [recordAB; recordZ] ≡ₚ [recordZ; recordAB]
  /\ @Music.createUserEmbedding plainHost (@Music.trainSongEmbeddings plainHost catalogAB)
       [recordAB; recordZ]
     = @Music.createUserEmbedding plainHost (@Music.trainSongEmbeddings plainHost catalogAB)
         [recordZ; recordAB].
Proof.
  split; [apply Permutation_swap|].
  apply (@X2_user_embedding_order plainHost), Permutation_swap.
Defined.

(** X3.  The user embedding always has [embeddingDim] = 128 coordinates,
    and the records whose song has no stored embedding do not influence
    it: dropping them from the history gives the same vector. *)
Theorem X3_user_embedding_known `{Host} (s : Music.system) (history : list object) :
  length (Music.createUserEmbedding s history) = Music.embeddingDim
  /\ Music.createUserEmbedding s history
     = Music.createUserEmbedding s
         (filter (fun e => is_Some (Music.songEmbeddings s !! Music.makeSongId e)) history).
Proof.
  split; [apply music_createUserEmbedding_length|].
  apply music_createUserEmbedding_ext, aggregate_ext.
  - symmetry. apply historyWeight_known.
  - intros j. symmetry. apply historySum_known.
Qed.

Lemma slice0_fmap {A B} (f : A -> B) (l : list A) (e : Z) :
  f <$> slice0 l e = slice0 (f <$> l) e.
Proof. unfold slice0. rewrite length_fmap. destruct (e <? 0)%Z; apply fmap_take. Qed.

(** X4.  With a table whose embeddings all have 128 coordinates (an empty
    table is trained on first use), [recommendSongs] returns normally a
    list in descending order of score; every record of the list carries
    the id of a catalog song and a score between -1 and 1 (never NaN); for
    a non-negative limit and a non-empty history the list has
    min(limit, number of catalog songs) records, and for an empty history
    it is empty. *)
Theorem X4_recommendSongs_ranked `{Host} (s : Music.system) (history : list object)
    (limit : Z) :
  (forall id emb, Music.songEmbeddings s !! id = Some emb ->
                  length emb = Music.embeddingDim) ->
  exists recs,
    (Music.recommendSongs s history limit).1 = Normal recs
    /\ (history = [] -> recs = [])
    /\ ((0 <= limit)%Z -> history <> [] ->
        length recs = Nat.min (Z.to_nat limit) (length (Music.songs s)))
    /\ descending score_of recs
    /\ forall r, r ∈ recs ->
         (exists song, song ∈ Music.songs s /\ Music.id r = Music.makeSongId song)
         /\ exists x, Music.similarity_score r = Some x /\ -1 <= x <= 1.
Proof.
  intros Htbl.
  destruct (recommendSongs_results s history limit Htbl) as [Hempty Hfull].
  destruct (decide (Music.songs s = [] \/ history = [])) as [He|Hne].
  - exists []. split; [now apply Hempty|]. split; [reflexivity|].
    split; [|split; [apply descending_nil | intros r Hr; now apply elem_of_nil in Hr]].
    intros _ Hh. destruct He as [He|He]; [|contradiction]. now rewrite He, Nat.min_0_r.
  - destruct Hfull as (results & Hres & Hall); [tauto | tauto |].
    assert (Hscored : forall r, r ∈ results ->
              exists song, song ∈ Music.songs s
                /\ scored (Music.createUserEmbedding
                             (Music.recommendSongs s history limit).2 history) song r).
    { intros r Hr. apply list_elem_of_lookup_1 in Hr as [i Hi].
      destruct (Forall2_lookup_r _ _ _ _ _ Hall Hi) as (song & Hsong & Hs).
      exists song. split; [now apply list_elem_of_lookup_2 in Hsong | exact Hs]. }
    exists (slice0 (sort Music.scores_higher results) limit).
    split; [exact Hres|]. split; [tauto|]. split; [|split].
    + intros Hl _. rewrite slice0_length by exact Hl.
      now rewrite sort_length, <- (Forall2_length _ _ _ Hall).
    + apply descending_slice0, sort_descending. intros a b Ha Hb.
      destruct (Hscored a Ha) as (? & _ & _ & xa & Hxa & _).
      destruct (Hscored b Hb) as (? & _ & _ & xb & Hxb & _).
      apply scores_higher_spec; [now exists xa | now exists xb].
    + intros r Hr. apply slice0_elem, sort_elem in Hr.
      destruct (Hscored r Hr) as (song & Hsong & Hid & x & Hx & Hb & _).
      split; [now exists song | now exists x].
Qed.

Lemma X4_recommendSongs_ranked_witness :
  (forall id emb, Music.songEmbeddings catalogAB !! id = Some emb ->
                  length emb = Music.embeddingDim)
  /\ exists recs,
       (@Music.recommendSongs plainHost catalogAB [recordAB] 10).1 = Normal recs
       /\ descending score_of recs.
Proof.
  assert (Htbl : forall id emb, Music.songEmbeddings catalogAB !! id = Some emb ->
                                length emb = Music.embeddingDim).
  { intros id emb Hl. cbn in Hl. rewrite lookup_empty in Hl. discriminate. }
  split; [exact Htbl|].
  destruct (@X4_recommendSongs_ranked plainHost catalogAB [recordAB] 10 Htbl)
    as (recs & Hrecs & _ & _ & Hd & _).
  exists recs. now split.
Defined.

(** X5.  When no record of a non-empty history names a song of the table,
    the user vector is zero, every catalog song scores exactly 0, and
    [recommendSongs] returns the catalog in its own order, cut as
    [slice(0, limit)] cuts it. *)
Theorem X5_recommendSongs_unknown_history `{Host} (s : Music.system)
    (history : list object) (limit : Z) :
  (forall id emb, Music.songEmbeddings s !! id = Some emb ->
                  length emb = Music.embeddingDim) ->
  history <> [] ->
  (forall e, e ∈ history ->
     Music.songEmbeddings (Music.recommendSongs s history limit).2 !! Music.makeSongId e
     = None) ->
  exists recs,
    (Music.recommendSongs s history limit).1 = Normal recs
    /\ Music.id <$> recs = slice0 (Music.makeSongId <$> Music.songs s) limit
    /\ forall r, r ∈ recs -> Music.similarity_score r = Some 0.
Proof.
  intros Htbl Hh Hunknown.
  destruct (recommendSongs_results s history limit Htbl) as [Hempty Hfull].
  destruct (decide (Music.songs s = [])) as [He|Hne].
  - exists []. split; [apply Hempty; now left|]. rewrite He. split.
    + unfold slice0. cbn. now destruct (limit <? 0)%Z; rewrite take_nil.
    + intros r Hr. now apply elem_of_nil in Hr.
  - destruct (Hfull Hne Hh) as (results & Hres & Hall).
    set (s' := (Music.recommendSongs s history limit).2) in *.
    assert (Hzero : zero (Music.createUserEmbedding s' history)).
    { rewrite music_createUserEmbedding_eq, (aggregate_unknown s' history Hunknown).
      cbn [fst snd]. destruct (decide (0 = 0)) as [_|Hd]; [|contradiction].
      apply zero_replicate. }
    assert (Hscore : forall r, r ∈ results -> Music.similarity_score r = Some 0).
    { intros r Hr. apply list_elem_of_lookup_1 in Hr as [i Hi].
      destruct (Forall2_lookup_r _ _ _ _ _ Hall Hi) as (song & _ & _ & x & Hx & _ & Hz).
      now rewrite Hx, (Hz Hzero). }
    exists (slice0 (sort Music.scores_higher results) limit).
    split; [exact Hres|].
    rewrite sort_unordered.
    2:{ intros a b Ha Hb. unfold Music.scores_higher.
        rewrite (Hscore a Ha), (Hscore b Hb).
        destruct (Rlt_dec 0 0) as [Hlt|_]; [lra | reflexivity]. }
    split.
    + rewrite slice0_fmap. f_equal.
      clear -Hall. induction Hall as [|song r songs rs [Hid _] _ IH]; [reflexivity|].
      cbn. now rewrite Hid, IH.
    + intros r Hr. apply slice0_elem in Hr. now apply Hscore.
Qed.

Lemma X5_recommendSongs_unknown_history_witness :
  (forall id emb, Music.songEmbeddings catalogAB !! id = Some emb ->
                  length emb = Music.embeddingDim)
  /\ [recordZ] <> []
  /\ exists recs,
       (@Music.recommendSongs plainHost catalogAB [recordZ] 10).1 = Normal recs
       /\ Music.id <$> recs = ["a::b"].
Proof.
  assert (Htbl : forall id emb, Music.songEmbeddings catalogAB !! id = Some emb ->
                                length emb = Music.embeddingDim).
  { intros id emb Hl. cbn in Hl. rewrite lookup_empty in Hl. discriminate. }
  split; [exact Htbl|]. split; [discriminate|].
  destruct (@X5_recommendSongs_unknown_history plainHost catalogAB [recordZ] 10 Htbl)
    as (recs & Hrecs & Hids & _).
  - discriminate.
  - intros e He. apply list_elem_of_singleton in He as ->. reflexivity.
  - exists recs. split; [exact Hrecs|]. rewrite Hids. reflexivity.
Defined.

End MusicProperties.

(** *** Movies: hashing of users, normalization, predicted rating *)

Section MovieVectorFacts.
Import Js Vec.

Lemma dot_map_div_l (a b : list R) (m : R) :
  dot (map (fun x => x / m) a) b = dot a b / m.
Proof.
  revert b. induction a as [|x a IH]; intros [|y b]; cbn [map dot];
    try (unfold Rdiv; now rewrite Rmult_0_l).
  rewrite IH. unfold Rdiv. ring.
Qed.



End MovieVectorFacts.

Section MovieVectorProperties.
Import Js Vec.

(** X6.  [hashUser] returns one of the thousand values 0, 0.001, ...,
    0.999: a number of thousandths, at least 0 and strictly below 1. *)
Theorem X6_hashUser_range (userId : string) :
  exists n : Z, (0 <= n < 1000)%Z /\ Movie.hashUser userId = IZR n / 1000
                /\ 0 <= Movie.hashUser userId < 1.
Proof.
  unfold Movie.hashUser.
  set (h := foldl _ _ _).
  pose proof (Z.mod_pos_bound (Z.abs h) 1000 ltac:(lia)) as Hb.
  exists (Z.abs h mod 1000)%Z. split; [exact Hb|]. split; [reflexivity|].
  destruct Hb as [H0 H1]. apply IZR_le in H0. apply IZR_lt in H1. lra.
Qed.

(** X7.  [normalizeVector] keeps the number of coordinates; it returns a
    vector of Euclidean norm 1 for every vector that is not all zero, and
    returns an all-zero vector unchanged (the division guard). *)
Theorem X7_normalizeVector_unit (vec : list R) :
  length (Movie.normalizeVector vec) = length vec
  /\ (~ zero vec -> norm (Movie.normalizeVector vec) = 1)
  /\ (zero vec -> Movie.normalizeVector vec = vec).
Proof.
  rewrite movie_normalizeVector_eq. split; [apply length_map|]. split.
  - apply normalized_unit.
  - apply normalized_zero.
Qed.

Lemma X7_normalizeVector_unit_witness :
  ~ zero [3; 4] /\ norm (Movie.normalizeVector [3; 4]) = 1.
Proof.
  assert (Hnz : ~ zero [3; 4]).
  { intros Hz. apply Forall_cons in Hz as [H3 _]. lra. }
  split; [exact Hnz|].
  destruct (X7_normalizeVector_unit [3; 4]) as (_ & Hunit & _).
  exact (Hunit Hnz).
Defined.



(** X9.  Normalizing the user vector does not change any similarity: the
    cosine of the normalized vector with a movie vector is the cosine of
    the vector itself, whatever the lengths. *)
Theorem X9_cosine_ignores_normalization (u m : list R) :
  Movie.cosineSimilarity (Movie.normalizeVector u) m = Movie.cosineSimilarity u m.
Proof.
  rewrite movie_normalizeVector_eq.
  destruct (decide (length u = length m)) as [Hlen|Hlen].
  2:{ rewrite !movie_cosine_mismatch; [reflexivity | exact Hlen | now rewrite length_map]. }
  rewrite !movie_cosine_eq by (rewrite ?length_map; exact Hlen). f_equal.
  destruct (decide (norm u = 0)) as [Hz|Hnz].
  { apply norm_zero in Hz. now rewrite normalized_zero. }
  pose proof (norm_nonneg u) as Hu. pose proof (norm_nonneg m) as Hm.
  assert (Hg : guarded (norm u) = norm u)
    by (unfold guarded; now rewrite decide_False by exact Hnz).
  unfold cosine. rewrite !Hg, dot_map_div_l, norm_map_div by lra.
  replace (norm u / norm u) with 1 by (field; exact Hnz). rewrite Rmult_1_l.
  destruct (decide (norm m = 0)) as [Hmz|Hmnz].
  - apply norm_zero in Hmz. rewrite (dot_zero_r u m Hmz).
    unfold Rdiv. now rewrite !Rmult_0_l.
  - assert (Hp : norm u * norm m <> 0)
      by (apply Rmult_integral_contrapositive_currified; assumption).
    unfold guarded. rewrite (decide_False _ _ Hmnz), (decide_False _ _ Hp).
    field. split; assumption.
Qed.

(** X10.  [predictRating] never fails and prints, with one decimal, a
    number between 1 and 5: the base rating (the movie's average, or 3
    without statistics or with a zero average) moved by twice the
    similarity minus one and clamped. *)
Theorem X10_predictRating_clamped `{Host} (userEmb movieEmb : list R)
    (movieStat : option Movie.Stat.t) :
  exists x, Movie.predictRating userEmb movieEmb movieStat = Normal (toFixed x 1)
            /\ 1 <= x <= 5.
Proof.
  unfold Movie.predictRating.
  destruct (movie_cosine_total userEmb movieEmb) as [c ->]. cbn [bind].
  eexists. split; [reflexivity|]. split.
  - apply Rmax_l.
  - apply Rmax_lub; [lra | apply Rmin_l].
Qed.

End MovieVectorProperties.

(** *** Movies: the indices built from the ratings *)

Section IndexFacts.
Import Js.

Lemma foldl_snoc {A B} (f : A -> B -> A) (a : A) (l : list B) (x : B) :
  foldl f a (l ++ [x]) = f (foldl f a l) x.
Proof. now rewrite foldl_app. Qed.

Lemma dedupe_snoc (l : list string) (x : string) :
  dedupe (l ++ [x]) = if bool_decide (x ∈ dedupe l) then dedupe l else (dedupe l ++ [x])%list.
Proof. unfold dedupe. now rewrite foldl_snoc. Qed.

Lemma dedupe_spec (l : list string) :
  NoDup (dedupe l) /\ forall x, x ∈ dedupe l <-> x ∈ l.
Proof.
  induction l as [|x l [IHn IHe]] using rev_ind.
  - split; [constructor | reflexivity].
  - rewrite dedupe_snoc. case_bool_decide as Hx.
    + split; [exact IHn|]. intros y. rewrite elem_of_app, list_elem_of_singleton, IHe.
      split; [tauto|]. intros [Hy| ->]; [exact Hy | now apply IHe].
    + split.
      * apply NoDup_app. split; [exact IHn|]. split; [|apply NoDup_singleton].
        intros y Hy Hy'. apply list_elem_of_singleton in Hy' as ->. contradiction.
      * intros y. rewrite !elem_of_app, IHe. reflexivity.
Qed.






(** The entries of the first loop of [buildMovieStats]. *)
Lemma groupByMovie_lookup (rs : list Movie.Rating.t) (m : string) :
  Movie.groupByMovie rs !! m
  = if decide (ratingsFor m rs = []) then None
    else Some {| Movie.Stat.ratings := Movie.Rating.rating <$> ratingsFor m rs;
                 Movie.Stat.avgRating := 0; Movie.Stat.ratingCount := 0;
                 Movie.Stat.highRatingUsers :=
                   Movie.Rating.userId
                     <$> filter (fun r => 4 <= Movie.Rating.rating r) (ratingsFor m rs);
                 Movie.Stat.lowRatingUsers :=
                   Movie.Rating.userId
                     <$> filter (fun r => Movie.Rating.rating r <= 2) (ratingsFor m rs) |}.
Proof.
  induction rs as [|r rs IH] using rev_ind; [reflexivity|].
  unfold Movie.groupByMovie, ratingsFor in *.
  rewrite foldl_snoc, filter_app, filter_cons, filter_nil.
  destruct (decide (Movie.Rating.movieId r = m)) as [->|Hne].
  2:{ rewrite lookup_insert_ne by exact Hne. rewrite IH, app_nil_r. reflexivity. }
  rewrite lookup_insert_eq, IH.
  destruct (decide (filter _ rs = [])) as [He|Hn]; [rewrite He|].
  - cbn [app]. rewrite (decide_False (P := [r] = [])) by discriminate. f_equal.
    unfold default, from_option, Datatypes.id.
    cbn [Movie.Stat.ratings Movie.Stat.avgRating Movie.Stat.ratingCount
         Movie.Stat.highRatingUsers Movie.Stat.lowRatingUsers].
    rewrite !filter_cons, !filter_nil.
    destruct (decide (4 <= Movie.Rating.rating r)) as [H4|H4];
      destruct (decide (Movie.Rating.rating r <= 2)) as [H2|H2]; try lra; reflexivity.
  - rewrite (decide_False (P := (_ ++ [r])%list = []))
      by (intros He; apply app_eq_nil in He as [He _]; contradiction).
    f_equal. unfold default, from_option, Datatypes.id.
    cbn [Movie.Stat.ratings Movie.Stat.avgRating Movie.Stat.ratingCount
         Movie.Stat.highRatingUsers Movie.Stat.lowRatingUsers].
    rewrite !filter_app, !fmap_app, !filter_cons, !filter_nil.
    destruct (decide (4 <= Movie.Rating.rating r)) as [H4|H4];
      destruct (decide (Movie.Rating.rating r <= 2)) as [H2|H2]; try lra;
      cbn; rewrite ?app_nil_r; reflexivity.
Qed.

Lemma reachable_indices `{Host} (s : Movie.system) :
  reachable s ->
  Movie.userProfiles s = Movie.buildUserProfiles (Movie.ratings s)
  /\ Movie.movieStats s = Movie.buildMovieStats (Movie.ratings s).
Proof.
  induction 1 as [|s rs now _ _|s ms _ IH|s now _ IH]; cbn.
  - unfold Movie.buildUserProfiles, Movie.buildMovieStats. cbn. now rewrite !fmap_empty.
  - now split.
  - exact IH.
  - exact IH.
Qed.




End IndexFacts.

Section IndexProperties.
Import Js.

Lemma oset_fresh {V} (o : ordered V) (k : string) (v : V) :
  k ∉ map fst o -> oset o k v = (o ++ [(k, v)])%list.
Proof.
  induction o as [|[k' v'] o IH]; intros Hk; cbn [oset app]; [reflexivity|].
  cbn [map fst] in Hk. apply not_elem_of_cons in Hk as [Hne Hk].
  destruct (String.eqb_spec k' k) as [->|_]; [contradiction|].
  now rewrite IH.
Qed.

Lemma trained_table_fresh {V} (f : string -> V) (ids : list string) :
  NoDup ids ->
  forall tbl : ordered V,
    (forall k, k ∈ ids -> k ∉ map fst tbl) ->
    foldl (fun tbl k => oset tbl k (f k)) tbl ids
    = (tbl ++ ((fun k => (k, f k)) <$> ids))%list.
Proof.
  induction 1 as [|k ids Hk _ IH]; intros tbl Hfresh; cbn [foldl fmap list_fmap].
  - now rewrite app_nil_r.
  - rewrite oset_fresh by (apply Hfresh, list_elem_of_here).
    rewrite IH, <- app_assoc; [reflexivity|].
    intros k' Hk'. rewrite map_app, elem_of_app. cbn [map fst].
    intros [Hin|Hin].
    + apply (Hfresh k'); [now apply list_elem_of_further | exact Hin].
    + apply list_elem_of_singleton in Hin as ->. contradiction.
Qed.



(** X13.  [trainMovieEmbeddings] builds the table with one entry per
    distinct movie id of [this.ratings], in the order of first occurrence;
    the entry of an id is the embedding [createMovieEmbedding] computes for
    it, of 64 coordinates.  In every reachable state each of these ids has
    statistics, so no trained embedding is the all-zero vector returned for
    a movie without statistics. *)
Theorem X13_trained_movie_table `{Host} (s : Movie.system) (now : Z) :
  let ids := dedupe (map Movie.Rating.movieId (Movie.ratings s)) in
  Movie.movieEmbeddings (Movie.trainMovieEmbeddings s now)
  = (fun k => (k, Movie.createMovieEmbedding s now k)) <$> ids
  /\ NoDup ids
  /\ (forall k, k ∈ ids <-> exists r, r ∈ Movie.ratings s /\ Movie.Rating.movieId r = k)
  /\ (forall k, length (Movie.createMovieEmbedding s now k) = Movie.embeddingDim)
  /\ (reachable s -> forall k, k ∈ ids -> is_Some (Movie.movieStats s !! k)).
Proof.
  intros ids. destruct (dedupe_spec (map Movie.Rating.movieId (Movie.ratings s))) as [Hn He].
  fold ids in Hn, He.
  assert (Hids : forall k, k ∈ ids
                 <-> exists r, r ∈ Movie.ratings s /\ Movie.Rating.movieId r = k).
  { intros k. rewrite He, list_elem_of_fmap. split; intros (r & H1 & H2); eauto. }
  split; [|split; [exact Hn | split; [exact Hids | split]]].
  - cbn [Movie.trainMovieEmbeddings Movie.movieEmbeddings]. fold ids.
    rewrite (trained_table_fresh (Movie.createMovieEmbedding s now) ids Hn []);
      [reflexivity|].
    intros k _ Hk. now apply elem_of_nil in Hk.
  - intros k. apply createMovieEmbedding_length.
  - intros Hreach k Hk. destruct (reachable_indices s Hreach) as [_ ->].
    apply Hids in Hk as (r & Hr & <-).
    pose proof (Hlook := groupByMovie_lookup (Movie.ratings s) (Movie.Rating.movieId r)).
    unfold Movie.buildMovieStats. rewrite lookup_fmap, Hlook.
    rewrite decide_False; [cbn; now eexists|].
    intros Hnil.
    assert (Hf : r ∈ ratingsFor (Movie.Rating.movieId r) (Movie.ratings s))
      by now apply list_elem_of_filter.
    rewrite Hnil in Hf. now apply elem_of_nil in Hf.
Qed.

Lemma X13_trained_movie_table_witness :
  @reachable plainHost (@trainedXY plainHost 0)
  /\ forall k, k ∈ dedupe (map Movie.Rating.movieId (Movie.ratings (@trainedXY plainHost 0))) ->
               is_Some (Movie.movieStats (@trainedXY plainHost 0) !! k).
Proof.
  assert (Hreach : @reachable plainHost (@trainedXY plainHost 0)) by repeat constructor.
  split; [exact Hreach|].
  destruct (@X13_trained_movie_table plainHost (@trainedXY plainHost 0) 0)
    as (_ & _ & _ & _ & Hstats).
  exact (Hstats Hreach).
Defined.



End IndexProperties.

(** *** Movies: recommendations *)

Section MovieRecommendationFacts.
Import Js Vec.





Lemma candidate_scored `{Host} (s : Movie.system) (userEmb : list R) (movieId : string) :
  exists r, Movie.candidate s userEmb movieId = Normal r /\ scoredMovie userEmb movieId r.
Proof.
  unfold Movie.candidate, Movie.predictRating.
  set (emb := default [] (oget (Movie.movieEmbeddings s) movieId)).
  destruct (decide (length userEmb = length emb)) as [Hlen|Hlen].
  - rewrite (movie_cosine_eq userEmb emb Hlen). cbn [bind].
    eexists. split; [reflexivity|]. split; [reflexivity|].
    cbn [Movie.Rec.similarity_score]. split; [apply cosine_bounds|].
    intros Hz. apply cosine_zero. now left.
  - rewrite (movie_cosine_mismatch userEmb emb Hlen). cbn [bind].
    eexists. split; [reflexivity|]. split; [reflexivity|].
    cbn [Movie.Rec.similarity_score]. split; [lra | reflexivity].
Qed.

(** The list [getRecommendations] returns, before sorting and cutting. *)
Lemma getRecommendations_results `{Host} (s : Movie.system) (userId : string) (limit : Z) :
  exists results,
    Movie.getRecommendations s userId limit
    = Normal (slice0 (sort Movie.more_similar results) limit)
    /\ Forall2 (scoredMovie (Movie.createUserEmbedding s userId))
         (filter (fun movieId =>
                    movieId ∉ (list_to_set
                                 (match Movie.userProfiles s !! userId with
                                  | Some p => map Movie.Rating.movieId (Movie.Profile.ratings p)
                                  | None => []
                                  end) : gset string))
                 (okeys (Movie.movieEmbeddings s)))
         results.
Proof.
  unfold Movie.getRecommendations.
  set (ids := filter _ _).
  destruct (mapM_Forall2 (Movie.candidate s (Movie.createUserEmbedding s userId))
              (scoredMovie (Movie.createUserEmbedding s userId)) ids) as (rs & -> & Hrs).
  { intros movieId _. apply candidate_scored. }
  cbn [bind]. now exists rs.
Qed.

Lemma Forall2_fmap_eq {A B} (f : B -> A) (P : A -> B -> Prop) (l : list A) (k : list B) :
  (forall x y, P x y -> f y = x) -> Forall2 P l k -> f <$> k = l.
Proof.
  intros Hf. induction 1 as [|x y l k Hxy _ IH]; [reflexivity|].
  cbn. now rewrite (Hf x y Hxy), IH.
Qed.

Lemma filter_all {A} (P : A -> Prop) `{forall x, Decision (P x)} (l : list A) :
  (forall x, x ∈ l -> P x) -> filter P l = l.
Proof.
  induction l as [|x l IH]; intros Hall; [reflexivity|].
  rewrite filter_cons, decide_True by (apply Hall, list_elem_of_here).
  f_equal. apply IH. intros y Hy. now apply Hall, list_elem_of_further.
Qed.


End MovieRecommendationFacts.

Section MovieRecommendationProperties.
Import Js Vec.



(** X16.  For a user id that has no profile and is not a property name
    inherited from [Object.prototype], the user vector is all zero, every
    movie of the table gets similarity 0, and [getRecommendations] returns
    the keys of the table in the order of [Object.keys], cut by
    [slice(0, limit)]. *)
Theorem X16_getRecommendations_unknown_user `{Host} (s : Movie.system) (userId : string)
    (limit : Z) :
  userId ∉ inheritedNames ->
  Movie.userProfiles s !! userId = None ->
  exists recs,
    Movie.getRecommendations s userId limit = Normal recs
    /\ Movie.Rec.movieId <$> recs = slice0 (okeys (Movie.movieEmbeddings s)) limit
    /\ forall r, r ∈ recs -> Movie.Rec.similarity_score r = 0.
Proof.
  intros _ Hnone.
  destruct (getRecommendations_results s userId limit) as (results & Hres & Hall).
  rewrite Hnone in Hall.
  assert (Hzero : zero (Movie.createUserEmbedding s userId)).
  { unfold Movie.createUserEmbedding. rewrite Hnone. apply zero_replicate. }
  assert (Hscore : forall r, r ∈ results -> Movie.Rec.similarity_score r = 0).
  { intros r Hr. apply list_elem_of_lookup_1 in Hr as [i Hi].
    destruct (Forall2_lookup_r _ _ _ _ _ Hall Hi) as (k & _ & _ & _ & Hz). now apply Hz. }
  pose proof (Forall2_fmap_eq Movie.Rec.movieId _ _ results
                (fun k r (Hs : scoredMovie _ k r) => proj1 Hs) Hall) as Hids.
  exists (slice0 (sort Movie.more_similar results) limit).
  split; [exact Hres|].
  rewrite sort_unordered.
  2:{ intros a b Ha Hb. unfold Movie.more_similar.
      rewrite (Hscore a Ha), (Hscore b Hb). apply bool_decide_eq_false. lra. }
  split.
  - rewrite slice0_fmap, Hids. f_equal.
    apply filter_all. intros k _ Hk. now apply elem_of_list_to_set, elem_of_nil in Hk.
  - intros r Hr. apply slice0_elem in Hr. now apply Hscore.
Qed.

Lemma X16_getRecommendations_unknown_user_witness :
  ("w" ∉ inheritedNames)
  /\ Movie.userProfiles (@trainedXY plainHost 0) !! "w" = None
  /\ exists recs,
       @Movie.getRecommendations plainHost (@trainedXY plainHost 0) "w" 1 = Normal recs
       /\ forall r, r ∈ recs -> Movie.Rec.similarity_score r = 0.
Proof.
  assert (Hown : "w" ∉ inheritedNames).
  { unfold inheritedNames. rewrite !not_elem_of_cons.
    repeat split; try discriminate. apply not_elem_of_nil. }
  assert (Hnone : Movie.userProfiles (@trainedXY plainHost 0) !! "w" = None)
    by reflexivity.
  split; [exact Hown|]. split; [exact Hnone|].
  destruct (@X16_getRecommendations_unknown_user plainHost (@trainedXY plainHost 0) "w" 1
              Hown Hnone) as (recs & Hrecs & _ & Hz).
  exists recs. now split.
Defined.

End MovieRecommendationProperties.

(** *** Movies: the rating histogram of an embedding *)

Section HistogramFacts.
Import Js.

Lemma sum_list_alter_S (bins : list nat) (k : nat) :
  (k < length bins)%nat -> sum_list (alter S k bins) = S (sum_list bins).
Proof.
  revert k. induction bins as [|b bins IH]; intros k Hk; [cbn in Hk; lia|].
  destruct k as [|k]; cbn [alter list_alter sum_list sum_list_with].
  - reflexivity.
  - cbn in Hk. rewrite IH by lia. lia.
Qed.

Lemma lookup_le_sum_list (bins : list nat) (j : nat) : (bins !!! j <= sum_list bins)%nat.
Proof.
  revert j. induction bins as [|b bins IH]; intros j; [destruct j; vm_compute; lia|].
  destruct j as [|j].
  - change ((b :: bins) !!! 0%nat) with b.
    change (sum_list (b :: bins)) with (b + sum_list bins)%nat. lia.
  - change ((b :: bins) !!! S j) with (bins !!! j).
    change (sum_list (b :: bins)) with (b + sum_list bins)%nat.
    specialize (IH j). lia.
Qed.

Lemma bin_exists (r : R) : (0 <=? Z.min (Zfloor r - 1) 4)%Z = bool_decide (1 <= r).
Proof.
  pose proof (Zfloor_bound r) as [Hlo Hhi].
  destruct (Z.leb_spec 0 (Z.min (Zfloor r - 1) 4)) as [Hb|Hb]; symmetry.
  - apply bool_decide_eq_true.
    assert (H1 : (1 <= Zfloor r)%Z) by lia. apply IZR_le in H1. lra.
  - apply bool_decide_eq_false. intros Hr.
    pose proof (Zfloor_lub 1 r Hr). lia.
Qed.

(** The histogram loop keeps five bins and counts each rating that is at
    least 1 in exactly one of them. *)
Lemma histogram_loop (rs : list R) : forall bins : list nat,
  length bins = 5%nat ->
  let bins' := foldl (fun bins r =>
                        let binIdx := Z.min (Zfloor r - 1) 4 in
                        if (0 <=? binIdx)%Z then alter S (Z.to_nat binIdx) bins else bins)
                     bins rs in
  length bins' = 5%nat
  /\ sum_list bins' = (sum_list bins + length (filter (fun r => (1 <= r)%R) rs))%nat.
Proof.
  induction rs as [|r rs IH]; intros bins Hlen; cbv zeta in *; cbn [foldl].
  - rewrite filter_nil. cbn. split; [exact Hlen | lia].
  - rewrite filter_cons, bin_exists.
    destruct (decide (1 <= r)) as [Hr|Hr].
    + rewrite bool_decide_true by exact Hr.
      destruct (IH (alter S (Z.to_nat (Z.min (Zfloor r - 1) 4)) bins)) as [H1 H2];
        [now rewrite length_alter|].
      split; [exact H1|]. rewrite H2, sum_list_alter_S; [cbn [length]; lia|].
      pose proof (Zfloor_lub 1 r Hr). lia.
    + rewrite bool_decide_false by exact Hr. now apply IH.
Qed.

Lemma histogram_sum (rs : list R) :
  length (Movie.histogram rs) = 5%nat
  /\ sum_list (Movie.histogram rs) = length (filter (fun r => 1 <= r) rs).
Proof.
  destruct (histogram_loop rs [0; 0; 0; 0; 0]%nat eq_refl) as [H1 H2].
  split; [exact H1 | exact H2].
Qed.

End HistogramFacts.

Section HistogramProperties.
Import Js.

(** X17.  Coordinates 0-4 of the embedding of a movie that has statistics
    are fractions between 0 and 1, and add up to the share of its ratings
    that are at least 1: a rating below 1 (a half star, or the 0 put for a
    missing rating) is counted in no bin, a rating of 5 or more in the
    last one. *)
Theorem X17_histogram_coordinates (s : Movie.system) (now : Z) (movieId : string)
    (stat : Movie.Stat.t) :
  Movie.movieStats s !! movieId = Some stat ->
  let vec := Movie.createMovieEmbedding s now movieId in
  let total := if (length (Movie.Stat.ratings stat) =? 0)%nat then 1%nat
               else length (Movie.Stat.ratings stat) in
  (forall j, (j < 5)%nat -> 0 <= vec !!! j <= 1)
  /\ vec !!! 0%nat + vec !!! 1%nat + vec !!! 2%nat + vec !!! 3%nat + vec !!! 4%nat
     = INR (length (filter (fun r => 1 <= r) (Movie.Stat.ratings stat))) / INR total.
Proof.
  intros Hstat vec total. subst vec.
  destruct (histogram_sum (Movie.Stat.ratings stat)) as [Hlen Hsum].
  assert (Hfilter : (length (filter (fun r => (1 <= r)%R) (Movie.Stat.ratings stat))
                     <= length (Movie.Stat.ratings stat))%nat) by apply length_filter.
  assert (Htotal : (length (Movie.Stat.ratings stat) <= total /\ 0 < total)%nat).
  { subst total. destruct (Nat.eqb_spec (length (Movie.Stat.ratings stat)) 0); lia. }
  assert (Hpos : 0 < INR total) by (apply lt_0_INR; lia).
  split.
  - intros j Hj. rewrite (createMovieEmbedding_histogram s now movieId stat j Hstat Hj).
    fold total.
    pose proof (lookup_le_sum_list (Movie.histogram (Movie.Stat.ratings stat)) j) as Hle.
    assert (Hb : (Movie.histogram (Movie.Stat.ratings stat) !!! j <= total)%nat) by lia.
    apply le_INR in Hb. pose proof (pos_INR (Movie.histogram (Movie.Stat.ratings stat) !!! j)).
    split.
    + apply Rmult_le_pos; [assumption | left; now apply Rinv_0_lt_compat].
    + apply Rmult_le_reg_r with (INR total); [exact Hpos|].
      unfold Rdiv. rewrite Rmult_assoc, Rinv_l by lra. lra.
  - rewrite !(createMovieEmbedding_histogram s now movieId stat) by (exact Hstat || lia).
    fold total. rewrite <- Hsum.
    destruct (Movie.histogram (Movie.Stat.ratings stat))
      as [|b0 [|b1 [|b2 [|b3 [|b4 [|b5 bins]]]]]]; try discriminate.
    change (sum_list [b0; b1; b2; b3; b4]) with (b0 + (b1 + (b2 + (b3 + (b4 + 0)))))%nat.
    change ([b0; b1; b2; b3; b4] !!! 0%nat) with b0.
    change ([b0; b1; b2; b3; b4] !!! 1%nat) with b1.
    change ([b0; b1; b2; b3; b4] !!! 2%nat) with b2.
    change ([b0; b1; b2; b3; b4] !!! 3%nat) with b3.
    change ([b0; b1; b2; b3; b4] !!! 4%nat) with b4.
    rewrite !plus_INR. change (INR 0) with 0. field. lra.
Qed.

Lemma X17_histogram_coordinates_witness :
  Movie.movieStats (@trainedXY plainHost 0) !! "X" = Some statX
  /\ forall j, (j < 5)%nat ->
       0 <= Movie.createMovieEmbedding (@trainedXY plainHost 0) 0 "X" !!! j <= 1.
Proof.
  pose proof (@movieStats_X plainHost 0) as Hstat.
  split; [exact Hstat|].
  destruct (X17_histogram_coordinates (@trainedXY plainHost 0) 0 "X" statX Hstat)
    as [Hb _].
  exact Hb.
Defined.

End HistogramProperties.

(** *** The CSV helpers of the server *)

Section CsvFacts.
Import Js.

Lemma quoteFree_nil : quoteFree "".
Proof. unfold quoteFree. cbn. apply not_elem_of_nil. Qed.

Lemma quoteFree_cons (c : ascii) (s : string) :
  quoteFree (String c s) <-> c <> Server.quote /\ quoteFree s.
Proof.
  unfold quoteFree. cbn [list_ascii_of_string]. rewrite not_elem_of_cons.
  split; intros [H1 H2]; split; congruence.
Qed.

Lemma append_nil_l (t : string) : ("" ++ t)%string = t.
Proof. reflexivity. Qed.

Lemma append_cons (c : ascii) (s t : string) :
  (String c s ++ t)%string = String c (s ++ t).
Proof. reflexivity. Qed.

Lemma quoteFree_app (s t : string) : quoteFree (s ++ t) <-> quoteFree s /\ quoteFree t.
Proof.
  induction s as [|c s IH].
  - rewrite append_nil_l.
    split; [intros Ht; split; [apply quoteFree_nil | exact Ht] | now intros [_ Ht]].
  - rewrite append_cons, !quoteFree_cons, IH. tauto.
Qed.

Lemma dropLastQuote_free (s : string) : quoteFree s -> Server.dropLastQuote s = s.
Proof.
  induction s as [|c s IH]; intros Hs; [reflexivity|].
  apply quoteFree_cons in Hs as [Hc Hs]. cbn [Server.dropLastQuote].
  destruct s as [|c' s'].
  - destruct (Ascii.eqb_spec c Server.quote); [contradiction | reflexivity].
  - now rewrite IH.
Qed.

Lemma stripQuotes_free (s : string) : quoteFree s -> Server.stripQuotes s = s.
Proof.
  intros Hs. destruct s as [|c s]; [reflexivity|]. cbn [Server.stripQuotes].
  pose proof Hs as Hs'. apply quoteFree_cons in Hs' as [Hc _].
  destruct (Ascii.eqb_spec c Server.quote); [contradiction|].
  now apply dropLastQuote_free.
Qed.

Lemma parseCSVLine_from_free (line : string) :
  forall result current inQuotes,
    Forall quoteFree result -> quoteFree current ->
    Forall quoteFree (Server.parseCSVLine_from line result current inQuotes).
Proof.
  induction line as [|c line IH]; intros result current inQuotes Hr Hc;
    cbn [Server.parseCSVLine_from].
  - apply Forall_app. split; [exact Hr|]. constructor; [|constructor].
    now rewrite stripQuotes_free.
  - destruct (Ascii.eqb_spec c Server.quote) as [->|Hne]; [now apply IH|].
    destruct (Ascii.eqb c "," && negb inQuotes).
    + apply IH; [|apply quoteFree_nil].
      apply Forall_app. split; [exact Hr|]. constructor; [|constructor].
      now rewrite stripQuotes_free.
    + apply IH; [exact Hr|]. apply quoteFree_app. split; [exact Hc|].
      apply quoteFree_cons. split; [exact Hne | apply quoteFree_nil].
Qed.

Lemma split_nonempty (sep : ascii) (s : string) : split sep s <> [].
Proof.
  induction s as [|c s IH]; cbn [split]; [discriminate|].
  destruct (Ascii.eqb c sep); [discriminate|].
  destruct (split sep s); [contradiction | discriminate].
Qed.

Lemma append_assoc (s t u : string) : ((s ++ t) ++ u = s ++ (t ++ u))%string.
Proof.
  induction s as [|c s IH]; [reflexivity|]. rewrite !append_cons. now rewrite IH.
Qed.

Lemma append_empty_r (s : string) : (s ++ "")%string = s.
Proof. induction s as [|c s IH]; [reflexivity|]. rewrite append_cons. now rewrite IH. Qed.

(** Outside quotes, on text without quotes, the loop splits at the commas. *)
Lemma parseCSVLine_from_split (line : string) :
  forall result current,
    quoteFree line -> quoteFree current ->
    Server.parseCSVLine_from line result current false
    = (result ++ prepend current (split "," line))%list.
Proof.
  induction line as [|c line IH]; intros result current Hl Hc;
    cbn [Server.parseCSVLine_from split].
  - cbn [prepend]. now rewrite stripQuotes_free, append_empty_r.
  - apply quoteFree_cons in Hl as [Hne Hl].
    destruct (Ascii.eqb_spec c Server.quote) as [->|_]; [contradiction|].
    destruct (Ascii.eqb_spec c ",") as [->|Hcomma]; cbn [andb negb].
    + rewrite IH by (exact Hl || apply quoteFree_nil).
      rewrite stripQuotes_free by exact Hc.
      cbn [prepend]. rewrite append_empty_r, <- app_assoc. cbn [app].
      destruct (split "," line) as [|h t] eqn:E; [now apply split_nonempty in E|].
      reflexivity.
    + rewrite IH.
      * destruct (split "," line) as [|h t] eqn:E; [now apply split_nonempty in E|].
        cbn [prepend]. now rewrite append_assoc.
      * exact Hl.
      * apply quoteFree_app. split; [exact Hc|].
        apply quoteFree_cons. split; [exact Hne | apply quoteFree_nil].
Qed.

(** Inside quotes, text without quotes is added to the current field,
    commas included. *)
Lemma parseCSVLine_from_quoted (inner : string) :
  forall rest result current,
    quoteFree inner ->
    Server.parseCSVLine_from (inner ++ rest) result current true
    = Server.parseCSVLine_from rest result (current ++ inner) true.
Proof.
  induction inner as [|c inner IH]; intros rest result current Hi.
  - now rewrite append_nil_l, append_empty_r.
  - apply quoteFree_cons in Hi as [Hne Hi].
    rewrite append_cons. cbn [Server.parseCSVLine_from].
    destruct (Ascii.eqb_spec c Server.quote) as [->|_]; [contradiction|].
    rewrite andb_false_r, IH by exact Hi.
    now rewrite append_assoc.
Qed.

End CsvFacts.

Section CsvProperties.
Import Js.

(** X18.  [parseCSVLine] never returns a field that contains a double
    quote.  On a line without quotes it is [line.split(',')].  A leading
    quoted part is taken literally, commas included: it is put in front of
    the first field of what follows the closing quote. *)
Theorem X18_parseCSVLine_fields (line : string) (expectedCols : nat) :
  Forall quoteFree (Server.parseCSVLine line expectedCols)
  /\ (quoteFree line -> Server.parseCSVLine line expectedCols = split "," line)
  /\ (forall inner rest,
        quoteFree inner -> quoteFree rest ->
        line = String Server.quote (inner ++ String Server.quote rest) ->
        Server.parseCSVLine line expectedCols = prepend inner (split "," rest)).
Proof.
  unfold Server.parseCSVLine. split; [|split].
  - apply parseCSVLine_from_free; [constructor | apply quoteFree_nil].
  - intros Hl. rewrite parseCSVLine_from_split by (exact Hl || apply quoteFree_nil).
    cbn [app]. destruct (split "," line) as [|h t] eqn:E; [now apply split_nonempty in E|].
    reflexivity.
  - intros inner rest Hi Hr ->. cbn [Server.parseCSVLine_from].
    change (Ascii.eqb Server.quote Server.quote) with true. cbn [negb].
    rewrite parseCSVLine_from_quoted by exact Hi.
    rewrite append_nil_l. cbn [Server.parseCSVLine_from].
    change (Ascii.eqb Server.quote Server.quote) with true. cbn [negb].
    now rewrite parseCSVLine_from_split by assumption.
Qed.

Lemma X18_parseCSVLine_fields_witness :
  quoteFree "a,b" /\ Server.parseCSVLine "a,b" 2 = ["a"; "b"].
Proof.
  assert (Hq : quoteFree "a,b").
  { unfold quoteFree. cbn. rewrite !not_elem_of_cons.
    repeat split; try discriminate. apply not_elem_of_nil. }
  split; [exact Hq|].
  destruct (X18_parseCSVLine_fields "a,b" 2) as (_ & Hsplit & _).
  rewrite (Hsplit Hq). reflexivity.
Defined.

End CsvProperties.

Section CsvRowFacts.
Import Js.










End CsvRowFacts.

Section CsvRowProperties.
Import Js.



End CsvRowProperties.

(** *** The server's deduplication of songs *)

Section DedupFacts.
Import Js.

(** The [Map] of [deduplicateSongs] after the records [l]. *)
Lemma seen_snoc (l : list object) (r : object) :
  seenSongs (l ++ [r])
  = if bool_decide (Server.songKey r ∈ map fst (seenSongs l)) then seenSongs l
    else (seenSongs l ++ [(Server.songKey r, r)])%list.
Proof. unfold seenSongs. now rewrite foldl_snoc. Qed.

Lemma seen_spec (l : list object) :
  Forall (fun kv => kv.1 = Server.songKey kv.2) (seenSongs l)
  /\ NoDup (map fst (seenSongs l))
  /\ map snd (seenSongs l) `sublist_of` l
  /\ (forall k, k ∈ map fst (seenSongs l) <-> k ∈ map Server.songKey l).
Proof.
  induction l as [|r l (IHk & IHn & IHs & IHe)] using rev_ind.
  - cbn. split; [constructor|]. split; [constructor|]. split; [constructor|]. reflexivity.
  - rewrite seen_snoc. case_bool_decide as Hin.
    + split; [exact IHk|]. split; [exact IHn|]. split.
      * now apply sublist_inserts_r.
      * intros k. rewrite map_app, elem_of_app, <- IHe. cbn [map].
        rewrite list_elem_of_singleton. split; [tauto|]. intros [?| ->]; assumption.
    + split; [|split; [|split]].
      * apply Forall_app. split; [exact IHk|]. now constructor.
      * rewrite map_app. apply NoDup_app. split; [exact IHn|]. split; [|apply NoDup_singleton].
        intros k Hk Hk'. apply list_elem_of_singleton in Hk'. now subst k.
      * rewrite map_app. now apply sublist_app.
      * intros k. rewrite !map_app, !elem_of_app, IHe. reflexivity.
Qed.

Lemma seen_keys (l : list object) :
  map fst (seenSongs l) = map Server.songKey (map snd (seenSongs l)).
Proof.
  destruct (seen_spec l) as (Hk & _). induction Hk as [|[k r] seen Hkr _ IH]; [reflexivity|].
  cbn in *. now rewrite Hkr, IH.
Qed.

Lemma seen_first (l : list object) (i : nat) (r : object) :
  l !! i = Some r ->
  (forall j r', (j < i)%nat -> l !! j = Some r' -> Server.songKey r' <> Server.songKey r) ->
  r ∈ map snd (seenSongs l).
Proof.
  revert i r. induction l as [|x l IH] using rev_ind; intros i r Hi Hfirst.
  - now rewrite lookup_nil in Hi.
  - rewrite seen_snoc.
    destruct (decide (i < length l)%nat) as [Hlt|Hge].
    + rewrite lookup_app_l in Hi by exact Hlt.
      assert (Hr : r ∈ map snd (seenSongs l)).
      { apply (IH i r Hi). intros j r' Hj Hj'. apply (Hfirst j r' Hj).
        rewrite lookup_app_l by lia. exact Hj'. }
      case_bool_decide; [exact Hr|]. rewrite map_app, elem_of_app. now left.
    + rewrite lookup_app_r in Hi by lia.
      destruct (i - length l)%nat as [|n] eqn:E; [|cbn in Hi; discriminate].
      cbn in Hi. injection Hi as ->.
      rewrite bool_decide_false.
      * rewrite map_app, elem_of_app. right. cbn. apply list_elem_of_here.
      * intros Hin. apply (proj1 (proj2 (proj2 (proj2 (seen_spec l))) _)) in Hin.
        apply list_elem_of_fmap in Hin as (r' & Hk & Hr').
        apply list_elem_of_lookup_1 in Hr' as [j Hj].
        apply (Hfirst j r'); [|rewrite lookup_app_l by (now apply lookup_lt_Some in Hj); exact Hj
                              |now symmetry].
        apply lookup_lt_Some in Hj. lia.
Qed.

Lemma seen_distinct (l : list object) :
  NoDup (map Server.songKey l) -> seenSongs l = map (fun r => (Server.songKey r, r)) l.
Proof.
  induction l as [|r l IH] using rev_ind; intros Hn; [reflexivity|].
  rewrite map_app in Hn. apply NoDup_app in Hn as (Hn & Hfresh & _).
  rewrite seen_snoc, IH by exact Hn.
  rewrite bool_decide_false; [now rewrite map_app|].
  rewrite map_map. cbn [fst]. intros Hin. apply (Hfresh _ Hin). cbn. apply list_elem_of_here.
Qed.

End DedupFacts.

Section DedupProperties.
Import Js.

(** X20.  [deduplicateSongs] returns a sub-list of the records, in their
    order, in which no two records have the same title::artist key; every
    record's key is the key of a record it returns; a record that no
    earlier record shares its key with is returned; and applying it twice
    changes nothing more. *)
Theorem X20_deduplicateSongs_first (records : list object) :
  let songs := Server.deduplicateSongs records in
  songs `sublist_of` records
  /\ NoDup (map Server.songKey songs)
  /\ (forall r, r ∈ records -> Server.songKey r ∈ map Server.songKey songs)
  /\ (forall i r,
        records !! i = Some r ->
        (forall j r', (j < i)%nat -> records !! j = Some r' ->
                      Server.songKey r' <> Server.songKey r) ->
        r ∈ songs)
  /\ Server.deduplicateSongs songs = songs.
Proof.
  intros songs. subst songs.
  change (Server.deduplicateSongs records) with (map snd (seenSongs records)).
  destruct (seen_spec records) as (Hk & Hn & Hs & He).
  rewrite seen_keys in Hn, He.
  split; [exact Hs|]. split; [exact Hn|]. split; [|split].
  - intros r Hr. apply He. apply list_elem_of_fmap. now exists r.
  - apply seen_first.
  - change (Server.deduplicateSongs ?l) with (map snd (seenSongs l)).
    rewrite (seen_distinct _ Hn), map_map. cbn [snd]. apply map_id.
Qed.

Lemma X20_deduplicateSongs_first_witness :
  [songAB; recordAB] !! 0%nat = Some songAB
  /\ songAB ∈ Server.deduplicateSongs [songAB; recordAB].
Proof.
  split; [reflexivity|].
  destruct (X20_deduplicateSongs_first [songAB; recordAB]) as (_ & _ & _ & Hfirst & _).
  apply (Hfirst 0%nat songAB eq_refl). intros j r' Hj. lia.
Defined.

End DedupProperties.

(** *** Song ids across the server, the catalog and the stored history *)

Section SongIdFacts.
Context `{Js.Host}.
Import Js.

Lemma makeSongId_named (song : object) :
  named song -> Music.makeSongId song = (titleOf song ++ "::" ++ artistOf song)%string.
Proof.
  intros Hn. unfold Music.makeSongId. fold (titleOf song). fold (artistOf song).
  destruct (String.eqb_spec (titleOf song) ""), (String.eqb_spec (artistOf song) "");
    try reflexivity.
  destruct Hn; contradiction.
Qed.

Lemma or_skip (a b c : value) : truthy b = false -> or (or a b) c = or a c.
Proof.
  intros Hb. unfold or. destruct (truthy a) eqn:Ea; [now rewrite Ea|]. now rewrite Hb.
Qed.

Lemma songKey_plain (song : object) :
  plainlyNamed song -> Server.songKey song = (titleOf song ++ "::" ++ artistOf song)%string.
Proof.
  intros [Ht Ha]. unfold Server.songKey, titleOf, artistOf, Music.field2.
  now rewrite (or_skip _ _ _ Ht), (or_skip _ _ _ Ha).
Qed.

Lemma filter_none {A} (P : A -> Prop) `{forall x, Decision (P x)} (l : list A) :
  (forall x, x ∈ l -> ~ P x) -> filter P l = [].
Proof.
  induction l as [|x l IH]; intros Hall; [reflexivity|].
  rewrite filter_cons, decide_False by (apply Hall, list_elem_of_here).
  apply IH. intros y Hy. now apply Hall, list_elem_of_further.
Qed.

Lemma filter_unique {A B} `{EqDecision B} (f : A -> B) (l : list A) (x : A) :
  NoDup (map f l) -> x ∈ l -> filter (fun y => f y = f x) l = [x].
Proof.
  induction l as [|y l IH]; intros Hn Hx; [now apply elem_of_nil in Hx|].
  cbn [map] in Hn. apply NoDup_cons in Hn as [Hy Hn].
  rewrite filter_cons. apply elem_of_cons in Hx as [->|Hx].
  - rewrite decide_True by reflexivity. f_equal.
    apply filter_none. intros z Hz He. apply Hy. rewrite <- He.
    apply list_elem_of_fmap. now exists z.
  - rewrite decide_False.
    + now apply IH.
    + intros He. apply Hy. rewrite He. apply list_elem_of_fmap. now exists x.
Qed.

Lemma doc_fields now (r : object) :
  get (Music.historyDocument now r) "title" = or (Music.field2 r "title" "Song_Title") (VStr "")
  /\ get (Music.historyDocument now r) "Song_Title" = VUndef
  /\ get (Music.historyDocument now r) "artist"
     = or (Music.field2 r "artist" "Artist_Name") (VStr "")
  /\ get (Music.historyDocument now r) "Artist_Name" = VUndef.
Proof. repeat split; reflexivity. Qed.

Lemma or_default_twice (v : value) :
  text (or (or (or v (VStr "")) VUndef) (VStr "")) = text (or v (VStr "")).
Proof.
  unfold or. destruct (truthy v) eqn:E; cbn; rewrite ?E; cbn; rewrite ?E; reflexivity.
Qed.

Lemma doc_names now (r : object) :
  titleOf (Music.historyDocument now r) = titleOf r
  /\ artistOf (Music.historyDocument now r) = artistOf r.
Proof.
  destruct (doc_fields now r) as (Ht & Hst & Ha & Han).
  unfold titleOf, artistOf, Music.field2 at 1 3.
  rewrite Ht, Hst, Ha, Han, !or_default_twice. now split.
Qed.

(** A signal stored as a number reads back as the number parsed from the
    row, the defaults included. *)
Lemma float_round_trip (x : value) (d : R) :
  num_or (parseFloat (or (VNum (num_or (parseFloat x) 0)) VUndef)) d
  = num_or (parseFloat x) d.
Proof.
  unfold or, truthy. destruct (parseFloat x) as [y|]; cbn [num_or].
  - destruct (Req_EM_T y 0) as [Hy|Hy].
    + destruct (Req_EM_T 0 0); [reflexivity | contradiction].
    + destruct (Req_EM_T y 0); [contradiction|]. cbn [parseFloat num_or].
      destruct (Req_EM_T y 0); [contradiction | reflexivity].
  - destruct (Req_EM_T 0 0); [reflexivity | contradiction].
Qed.

Lemma int_round_trip (x : value) :
  (Z.abs (int_or (parseInt x) 0) < 10 ^ 21)%Z ->
  int_or (parseInt (or (VNum (IZR (int_or (parseInt x) 0))) VUndef)) 0
  = int_or (parseInt x) 0.
Proof.
  set (n := int_or (parseInt x) 0). intros Hb. unfold or, truthy.
  destruct (Req_EM_T (IZR n) 0) as [Hn|Hn].
  - apply eq_IZR in Hn. cbn. now rewrite Hn.
  - rewrite parseInt_IZR by exact Hb. apply int_or_zero.
Qed.

Lemma field2_csv (r : object) (a b : string) :
  truthy (get r a) = false -> Music.field2 r a b = get r b.
Proof. intros Ha. unfold Music.field2, or. now rewrite Ha. Qed.

End SongIdFacts.

Section SongIdProperties.
Import Js.

(** X21.  When every uploaded record names its song with title/Song_Title
    and artist/Artist_Name only and has a non-empty title or artist, the
    catalog [deduplicateSongs] builds has no two songs with the same id,
    and after [trainSongEmbeddings] the table holds, under the id of each
    catalog song, the embedding of that very song: nothing is overwritten. *)
Theorem X21_deduplicated_catalog `{Host} (records : list object) :
  (forall r, r ∈ records -> named r /\ plainlyNamed r) ->
  let s := Music.trainSongEmbeddings
             {| Music.songs := Server.deduplicateSongs records;
                Music.songEmbeddings := ∅ |} in
  NoDup (map Music.makeSongId (Music.songs s))
  /\ forall song, song ∈ Music.songs s ->
       Music.songEmbeddings s !! Music.makeSongId song
       = Some (Music.createSongEmbedding song).
Proof.
  intros Hrec s. subst s. cbn [Music.trainSongEmbeddings Music.songs Music.songEmbeddings].
  set (songs := Server.deduplicateSongs records).
  destruct (seen_spec records) as (Hk & Hn & Hs & _).
  rewrite seen_keys in Hn.
  change (map snd (seenSongs records)) with songs in Hn, Hs.
  assert (Hid : forall song, song ∈ songs -> Music.makeSongId song = Server.songKey song).
  { intros song Hsong.
    destruct (Hrec song (elem_of_sublist _ _ _ Hsong Hs)) as [Hnamed Hplain].
    now rewrite makeSongId_named, songKey_plain. }
  assert (Hids : map Music.makeSongId songs = map Server.songKey songs).
  { apply map_ext_in. intros song Hsong. apply Hid. now apply list_elem_of_In. }
  assert (Hnd : NoDup (map Music.makeSongId songs)) by now rewrite Hids.
  split; [exact Hnd|].
  intros song Hsong. rewrite trained_table_last.
  now rewrite (filter_unique Music.makeSongId songs song Hnd Hsong).
Qed.

Lemma X21_deduplicated_catalog_witness :
  (forall r, r ∈ [songAB; recordAB] -> named r /\ plainlyNamed r)
  /\ NoDup (map (@Music.makeSongId plainHost)
              (Music.songs (@Music.trainSongEmbeddings plainHost
                 {| Music.songs := Server.deduplicateSongs [songAB; recordAB];
                    Music.songEmbeddings := ∅ |}))).
Proof.
  assert (Hrec : forall r, r ∈ [songAB; recordAB] -> named r /\ plainlyNamed r).
  { intros r Hr. apply elem_of_cons in Hr as [->|Hr];
      [|apply list_elem_of_singleton in Hr as ->].
    - split; [left; discriminate | split; reflexivity].
    - split; [left; discriminate | split; reflexivity]. }
  split; [exact Hrec|].
  destruct (@X21_deduplicated_catalog plainHost [songAB; recordAB] Hrec) as [Hn _].
  exact Hn.
Defined.

(** X22.  The document [saveListeningHistory] writes for a record keeps
    the record's normalized title and artist, hence its song id when one
    of them is not empty.  When the record gives its engagement signals
    under the capitalized CSV names only, and its like, skip and repeat
    counts are below 10^21 in magnitude (so that the stored numbers are
    printed in plain decimal notation when they are parsed again), the
    document has the same engagement weight as the record. *)
Theorem X22_history_document `{Host} (now : Z) (r : object) :
  (named r -> Music.makeSongId (Music.historyDocument now r) = Music.makeSongId r)
  /\ (csvSignals r -> ordinaryCounts r ->
      Music.entryWeight (Music.historyDocument now r) = Music.entryWeight r).
Proof.
  split.
  - intros Hn. destruct (doc_names now r) as [Ht Ha].
    rewrite !makeSongId_named; [now rewrite Ht, Ha | exact Hn |].
    unfold named. now rewrite Ht, Ha.
  - intros Hcsv Hord. unfold csvSignals in Hcsv. unfold ordinaryCounts in Hord.
    repeat match goal with
           | Hc : Forall _ (_ :: _) |- _ => apply Forall_cons in Hc as [? Hc]
           end.
    unfold Music.entryWeight.
    rewrite !(field2_csv r) by assumption.
    unfold Music.field2.
    change (get (Music.historyDocument now r) "completionRate")
      with (VNum (num_or (parseFloat (get r "Completion_Rate")) 0)).
    change (get (Music.historyDocument now r) "rating")
      with (VNum (num_or (parseFloat (get r "Rating")) 0)).
    change (get (Music.historyDocument now r) "likedFlag")
      with (VNum (IZR (int_or (parseInt (get r "Liked_Flag")) 0))).
    change (get (Music.historyDocument now r) "skipFlag")
      with (VNum (IZR (int_or (parseInt (get r "Skip_Flag")) 0))).
    change (get (Music.historyDocument now r) "repeatCount")
      with (VNum (IZR (int_or (parseInt (get r "Repeat_Count")) 0))).
    change (get (Music.historyDocument now r) "Completion_Rate") with VUndef.
    change (get (Music.historyDocument now r) "Rating") with VUndef.
    change (get (Music.historyDocument now r) "Liked_Flag") with VUndef.
    change (get (Music.historyDocument now r) "Skip_Flag") with VUndef.
    change (get (Music.historyDocument now r) "Repeat_Count") with VUndef.
    now rewrite !float_round_trip, !int_round_trip by assumption.
Qed.

Lemma X22_history_document_witness :
  named rowCsv /\ csvSignals rowCsv /\ @ordinaryCounts plainHost rowCsv
  /\ @Music.makeSongId plainHost (@Music.historyDocument plainHost 0 rowCsv)
     = @Music.makeSongId plainHost rowCsv
  /\ @Music.entryWeight plainHost (@Music.historyDocument plainHost 0 rowCsv)
     = @Music.entryWeight plainHost rowCsv.
Proof.
  assert (Hn : named rowCsv) by (left; discriminate).
  assert (Hcsv : csvSignals rowCsv) by (repeat constructor).
  assert (Hord : @ordinaryCounts plainHost rowCsv).
  { unfold ordinaryCounts.
    constructor; [|constructor; [|constructor; [|constructor]]].
    - change (get rowCsv "Liked_Flag") with (VNum 1).
      rewrite (@parseInt_IZR plainHost) by (vm_compute; reflexivity).
      vm_compute. reflexivity.
    - change (get rowCsv "Skip_Flag") with (VNum 0).
      rewrite (@parseInt_IZR plainHost) by (vm_compute; reflexivity).
      vm_compute. reflexivity.
    - change (get rowCsv "Repeat_Count") with (VNum 2).
      rewrite (@parseInt_IZR plainHost) by (vm_compute; reflexivity).
      vm_compute. reflexivity. }
  destruct (@X22_history_document plainHost 0 rowCsv) as [Hid Hw].
  split; [exact Hn|]. split; [exact Hcsv|]. split; [exact Hord|].
  split; [exact (Hid Hn) | exact (Hw Hcsv Hord)].
Defined.

End SongIdProperties.

(** *** Symmetry of the two cosine functions *)

Section CosineSymmetry.
Import Js Vec.

Lemma cosine_comm (a b : list R) : cosine a b = cosine b a.
Proof. unfold cosine. now rewrite dot_comm, (Rmult_comm (norm a)). Qed.

(** X23.  The movie cosine is symmetric in its two arguments, whatever
    their lengths; the music cosine is symmetric for vectors of the same
    length. *)
Theorem X23_cosine_symmetric (a b : list R) :
  Movie.cosineSimilarity a b = Movie.cosineSimilarity b a
  /\ (length a = length b -> Music.cosineSimilarity a b = Music.cosineSimilarity b a).
Proof.
  split.
  - destruct (decide (length a = length b)) as [Hlen|Hlen].
    + rewrite !movie_cosine_eq by congruence. now rewrite cosine_comm.
    + rewrite !movie_cosine_mismatch by congruence. reflexivity.
  - intros Hlen. rewrite !music_cosine_eq by congruence. now rewrite cosine_comm.
Qed.

Lemma X23_cosine_symmetric_witness :
  length [1; 2] = length [3; 4]
  /\ Music.cosineSimilarity [1; 2] [3; 4] = Music.cosineSimilarity [3; 4] [1; 2].
Proof.
  split; [reflexivity|].
  destruct (X23_cosine_symmetric [1; 2] [3; 4]) as [_ Hm].
  exact (Hm eq_refl).
Defined.

End CosineSymmetry.

(** *** Music: the scalar coordinates of a song embedding *)

Section SongScalarFacts.
Context `{Js.Host}.
Import Js.

Lemma contribution_miss_range target cs j : forall i weight,
  (forall k, (i <= k < i + length cs)%nat -> target k <> j) ->
  contribution target i cs weight j = 0.
Proof.
  induction cs as [|c r IH]; intros i weight Hmiss; cbn [contribution]; [reflexivity|].
  rewrite IH by (intros k Hk; apply Hmiss; cbn [length]; lia).
  case_decide as Hd; [|lra].
  exfalso. apply (Hmiss i); [cbn [length]; lia | exact Hd].
Qed.

(** A text of at most [bound] characters hashed from [offset] on leaves
    coordinate [j] alone when [j] is not among the [bound] coordinates
    that follow [offset], counted around the end of the vector. *)
Lemma music_hash_untouched str (vec : list R) offset weight j bound :
  length vec = Music.embeddingDim -> (j < Music.embeddingDim)%nat ->
  (String.length (text (or str (VStr ""))) <= bound)%nat ->
  (forall k, (k < bound)%nat -> ((offset + k) mod Music.embeddingDim)%nat <> j) ->
  Music.hashToVector str vec offset weight !!! j = vec !!! j.
Proof.
  intros Hlen Hj Hb Hmiss. unfold Music.hashToVector.
  rewrite music_hash_lookup by lia.
  rewrite contribution_miss_range; [lra|].
  intros k Hk. rewrite codes_length, toLowerCase_length in Hk. rewrite Hlen.
  apply Hmiss. lia.
Qed.

Lemma wrap_miss (offset bound j : nat) :
  (112 <= j <= 122)%nat -> (123 <= offset < 128)%nat -> (offset + bound <= 240)%nat ->
  forall k, (k < bound)%nat -> ((offset + k) mod Music.embeddingDim)%nat <> j.
Proof.
  intros Hj Ho Hb k Hk. unfold Music.embeddingDim.
  pose proof (Nat.div_mod_eq (offset + k) 128) as Hdm.
  pose proof (Nat.mod_upper_bound (offset + k) 128 ltac:(lia)) as Hub.
  lia.
Qed.

(** The scalar coordinates after the weather and the location have been
    hashed are the ones before. *)
Lemma createSongEmbedding_scalar (song : object) (j : nat) :
  (String.length (text (or (Music.field2 song "weather" "Weather") (VStr ""))) <= 117)%nat ->
  (String.length (text (or (Music.field2 song "location" "Location") (VStr ""))) <= 114)%nat ->
  (112 <= j <= 122)%nat ->
  forall base : list R,
    length base = Music.embeddingDim ->
    Music.hashToVector (Music.field2 song "location" "Location")
      (Music.hashToVector (Music.field2 song "weather" "Weather") base 123 0.8) 126 0.5 !!! j
    = base !!! j.
Proof.
  intros Hw Hl Hj base Hlen.
  rewrite (music_hash_untouched _ _ 126 0.5 j 114);
    [|now rewrite music_hashToVector_length | unfold Music.embeddingDim; lia | exact Hl
     |apply wrap_miss; lia].
  apply (music_hash_untouched _ _ 123 0.8 j 117);
    [exact Hlen | unfold Music.embeddingDim; lia | exact Hw | apply wrap_miss; lia].
Qed.

End SongScalarFacts.

Section SongScalarProperties.
Import Js.

Ltac scalar_coordinate Hw Hl :=
  unfold Music.createSongEmbedding;
  rewrite (createSongEmbedding_scalar _ _ Hw Hl) by
    (first [lia | repeat first [rewrite music_hashToVector_length | rewrite length_insert];
                  apply length_replicate]);
  rewrite ?list_lookup_total_insert_ne by lia;
  rewrite list_lookup_total_insert_eq;
  [reflexivity
  |repeat first [rewrite music_hashToVector_length | rewrite length_insert];
   rewrite length_replicate; unfold Music.embeddingDim; lia].

(** X24.  When the weather text has at most 117 characters and the
    location text at most 114, coordinates 112-122 of a song embedding
    hold exactly the values assigned to them, whatever the other text
    fields are: the text hashed before them is overwritten and the weather
    and location hashed after them do not reach them.  In particular the
    hour of day is a point of the unit circle. *)
Theorem X24_song_scalars `{Host} (song : object) :
  (String.length (text (or (Music.field2 song "weather" "Weather") (VStr ""))) <= 117)%nat ->
  (String.length (text (or (Music.field2 song "location" "Location") (VStr ""))) <= 114)%nat ->
  let vec := Music.createSongEmbedding song in
  let hour := int_or (parseInt (Music.field2 song "hourOfDay" "Hour_of_Day")) 12 in
  vec !!! 112%nat
  = (IZR (int_or (parseInt (Music.field2 song "releaseYear" "Release_Year")) 2020) - 1950)
    / 100
  /\ vec !!! 113%nat
     = num_or (parseFloat (Music.field2 song "duration" "Duration_sec")) 200 / 600
  /\ vec !!! 114%nat = completionRate_of song
  /\ vec !!! 115%nat = rating_of song
  /\ vec !!! 116%nat = IZR (liked_of song)
  /\ vec !!! 117%nat
     = IZR (Z.min (int_or (parseInt (Music.field2 song "repeatCount" "Repeat_Count")) 0) 5) / 5
  /\ vec !!! 118%nat = 1 - IZR (skipped_of song)
  /\ vec !!! 119%nat
     = IZR (int_or (parseInt (Music.field2 song "addedToPlaylist" "Added_To_Playlist")) 0)
  /\ vec !!! 120%nat = sin (2 * PI * IZR hour / 24)
  /\ vec !!! 121%nat = cos (2 * PI * IZR hour / 24)
  /\ vec !!! 122%nat
     = IZR (int_or (parseInt (Music.field2 song "weekendFlag" "Weekend_Flag")) 0)
  /\ vec !!! 120%nat * vec !!! 120%nat + vec !!! 121%nat * vec !!! 121%nat = 1.
Proof.
  intros Hw Hl vec hour. subst vec.
  assert (H120 : Music.createSongEmbedding song !!! 120%nat = sin (2 * PI * IZR hour / 24))
    by scalar_coordinate Hw Hl.
  assert (H121 : Music.createSongEmbedding song !!! 121%nat = cos (2 * PI * IZR hour / 24))
    by scalar_coordinate Hw Hl.
  repeat (split; [first [exact H120 | exact H121 | scalar_coordinate Hw Hl]|]).
  rewrite H120, H121.
  pose proof (sin2_cos2 (2 * PI * IZR hour / 24)) as Hc. unfold Rsqr in Hc. exact Hc.
Qed.

Lemma X24_song_scalars_witness :
  (String.length (text (or (Music.field2 songAB "weather" "Weather") (VStr ""))) <= 117)%nat
  /\ (String.length (text (or (Music.field2 songAB "location" "Location") (VStr "")))
      <= 114)%nat
  /\ @Music.createSongEmbedding plainHost songAB !!! 116%nat = 0.
Proof.
  assert (Hw : (String.length (text (or (Music.field2 songAB "weather" "Weather")
                                        (VStr ""))) <= 117)%nat) by (vm_compute; lia).
  assert (Hl : (String.length (text (or (Music.field2 songAB "location" "Location")
                                        (VStr ""))) <= 114)%nat) by (vm_compute; lia).
  split; [exact Hw|]. split; [exact Hl|].
  destruct (@X24_song_scalars plainHost songAB Hw Hl) as (_ & _ & _ & _ & H116 & _).
  rewrite H116. reflexivity.
Defined.

End SongScalarProperties.

(** *** Movies: the statistics coordinates of an embedding *)

Section MovieStatCoordinates.
Import Js.

Ltac stat_len :=
  repeat first [rewrite movie_hash_length | rewrite length_insert
               | rewrite loop_insert_length | rewrite loop_alter_length
               | rewrite length_replicate];
  unfold Movie.embeddingDim; try lia.

Ltac stat_peel :=
  repeat first
    [ rewrite list_lookup_total_insert_ne by lia
    | rewrite movie_hash_outside by (stat_len; lia)
    | rewrite loop_insert_miss by (apply pairs_miss; lia) ].

(** Coordinates 5-9 of the embedding of a movie that has statistics. *)
Lemma createMovieEmbedding_statistics (s : Movie.system) now movieId stat :
  Movie.movieStats s !! movieId = Some stat ->
  let vec := Movie.createMovieEmbedding s now movieId in
  let total := if (length (Movie.Stat.ratings stat) =? 0)%nat then 1%nat
               else length (Movie.Stat.ratings stat) in
  vec !!! 5%nat = Movie.Stat.avgRating stat / 5
  /\ vec !!! 6%nat = Rmin (INR (Movie.Stat.ratingCount stat) / 1000) 1
  /\ vec !!! 7%nat = sqrt (INR (Movie.Stat.ratingCount stat)) / 100
  /\ vec !!! 8%nat = INR (length (Movie.Stat.highRatingUsers stat)) / INR total
  /\ vec !!! 9%nat = 1 - INR (length (Movie.Stat.lowRatingUsers stat)) / INR total.
Proof.
  intros Hstat vec total. subst vec total. unfold Movie.createMovieEmbedding. rewrite Hstat.
  rewrite (foldl_ext _ (fun vec p => <[(10 + p.1)%nat := Movie.hashUser p.2]> vec))
    by (intros ? [? ?]; reflexivity).
  destruct (List.find _ (Movie.movies s)) as [m|];
    [destruct (String.eqb (Movie.Meta.genres m) "")|];
    destruct (map Movie.Rating.timestamp _) as [|t ts].
  all: repeat split; stat_peel.
  all: rewrite list_lookup_total_insert_eq by stat_len; reflexivity.
Qed.

Lemma length_filter_exclusive {A} (P Q : A -> Prop) `{forall x, Decision (P x)}
    `{forall x, Decision (Q x)} (l : list A) :
  (forall x, P x -> Q x -> False) ->
  (length (filter P l) + length (filter Q l) <= length l)%nat.
Proof.
  intros Hex. induction l as [|x l IH]; [cbn; lia|].
  rewrite !filter_cons.
  destruct (decide (P x)) as [HP|HP], (decide (Q x)) as [HQ|HQ]; cbn [length]; try lia.
  exfalso. exact (Hex x HP HQ).
Qed.

End MovieStatCoordinates.

Section MovieStatProperties.
Import Js.

(** X25.  In every reachable state, for a movie that has statistics:
    coordinate 5 of its embedding is its average rating over 5, coordinate
    6 its rating count over 1000 capped at 1, coordinate 7 the square root
    of the count over 100, coordinate 8 the share of its ratings that are 4
    or more and coordinate 9 one minus the share that are 2 or less; the
    coordinates 6, 8 and 9 lie between 0 and 1, and coordinate 8 never
    exceeds coordinate 9. *)
Theorem X25_statistics_coordinates `{Host} (s : Movie.system) (now : Z) (movieId : string)
    (stat : Movie.Stat.t) :
  reachable s ->
  Movie.movieStats s !! movieId = Some stat ->
  let vec := Movie.createMovieEmbedding s now movieId in
  let n := length (ratingsFor movieId (Movie.ratings s)) in
  n <> 0%nat
  /\ vec !!! 5%nat = Movie.Stat.avgRating stat / 5
  /\ vec !!! 6%nat = Rmin (INR n / 1000) 1
  /\ vec !!! 7%nat = sqrt (INR n) / 100
  /\ vec !!! 8%nat
     = INR (length (filter (fun r => 4 <= Movie.Rating.rating r)
                           (ratingsFor movieId (Movie.ratings s)))) / INR n
  /\ vec !!! 9%nat
     = 1 - INR (length (filter (fun r => Movie.Rating.rating r <= 2)
                               (ratingsFor movieId (Movie.ratings s)))) / INR n
  /\ 0 <= vec !!! 6%nat <= 1
  /\ 0 <= vec !!! 8%nat <= vec !!! 9%nat /\ vec !!! 9%nat <= 1.
Proof.
  intros Hreach Hstat vec n.
  destruct (createMovieEmbedding_statistics s now movieId stat Hstat)
    as (H5 & H6 & H7 & H8 & H9). cbv zeta in *. fold vec in H5, H6, H7, H8, H9.
  destruct (reachable_indices s Hreach) as [_ Hm]. rewrite Hm in Hstat.
  unfold Movie.buildMovieStats in Hstat.
  rewrite lookup_fmap, groupByMovie_lookup in Hstat.
  destruct (decide (ratingsFor movieId (Movie.ratings s) = [])) as [He|Hne];
    [discriminate|].
  cbn in Hstat. injection Hstat as <-.
  cbn [Movie.Stat.ratings Movie.Stat.ratingCount Movie.Stat.highRatingUsers
       Movie.Stat.lowRatingUsers Movie.Stat.avgRating Movie.statAverages] in *.
  rewrite !length_fmap in *. fold n in H6, H7, H8, H9.
  assert (Hn : n <> 0%nat).
  { subst n. destruct (ratingsFor movieId (Movie.ratings s)); [contradiction | discriminate]. }
  destruct (Nat.eqb_spec n 0) as [H0|_]; [contradiction|].
  pose proof (length_filter_exclusive
                (fun r => 4 <= Movie.Rating.rating r) (fun r => Movie.Rating.rating r <= 2)
                (ratingsFor movieId (Movie.ratings s))
                ltac:(intros x H4 H2; cbn in *; lra)) as Hex.
  fold n in Hex.
  set (hi := length (filter (fun r => 4 <= Movie.Rating.rating r) _)) in *.
  set (lo := length (filter (fun r => Movie.Rating.rating r <= 2) _)) in *.
  assert (Hpos : 0 < INR n) by (apply lt_0_INR; lia).
  assert (Hsum : INR hi + INR lo <= INR n) by (rewrite <- plus_INR; apply le_INR; lia).
  pose proof (pos_INR hi) as Hhi. pose proof (pos_INR lo) as Hlo.
  assert (Hinv : 0 < / INR n) by now apply Rinv_0_lt_compat.
  assert (Hone : INR n * / INR n = 1) by (apply Rinv_r; lra).
  split; [exact Hn|].
  split; [exact H5|]. split; [exact H6|]. split; [exact H7|].
  split; [exact H8|]. split; [exact H9|].
  rewrite H6, H8, H9. unfold Rdiv. split; [|split].
  - split; [|apply Rmin_r]. apply Rmin_glb; [|lra].
    apply Rmult_le_pos; [lra|]. lra.
  - split; [apply Rmult_le_pos; lra|].
    apply (Rmult_le_compat_r (/ INR n)) in Hsum; [|lra].
    rewrite Rmult_plus_distr_r, Hone in Hsum. lra.
  - assert (0 <= INR lo * / INR n) by (apply Rmult_le_pos; lra). lra.
Qed.

Lemma X25_statistics_coordinates_witness :
  @reachable plainHost (@trainedXY plainHost 0)
  /\ Movie.movieStats (@trainedXY plainHost 0) !! "X" = Some statX
  /\ Movie.createMovieEmbedding (@trainedXY plainHost 0) 0 "X" !!! 9%nat <= 1.
Proof.
  assert (Hreach : @reachable plainHost (@trainedXY plainHost 0)) by repeat constructor.
  pose proof (@movieStats_X plainHost 0) as Hstat.
  split; [exact Hreach|]. split; [exact Hstat|].
  destruct (@X25_statistics_coordinates plainHost (@trainedXY plainHost 0) 0 "X" statX
              Hreach Hstat) as (_ & _ & _ & _ & _ & _ & _ & _ & H9).
  exact H9.
Defined.

End MovieStatProperties.
